(** * usage: directory usage analyzer (main.go)

    A shallow embedding of the size scanner, the size cache and the
    Bubble Tea model of [main.go], with the properties of the design
    document stated over them.

    Conventions of the embedding:
    - Go's [int] and [int64] are [Z] with the 64-bit two's-complement
      wrap-around written out ([Int64.wrap]);
    - [float64] is the IEEE-754 binary64 format of [SpecFloat]
      ([prec = 53], [emax = 1024]);
    - the file system is a finite tree ([FsNode]); a path handed to
      [os.Stat] or [os.ReadDir] is paired with the object found there;
    - the global [sizeCache] is a [gmap string Z] threaded through the
      calls, together with a ghost log of the traversals and stores;
    - a run-time panic (nil dereference, index out of range) is [None]. *)

From Stdlib Require Import ZArith List String Ascii Bool Lia.
From Stdlib Require Import Sorting.Permutation Sorting.Sorted.
From Stdlib Require Import Floats.SpecFloat.
From stdpp Require Import gmap strings.

Import ListNotations.
Local Open Scope string_scope.
Local Open Scope list_scope.
Local Open Scope Z_scope.

#[local] Set Warnings "-register-all".

(* ===================================================================== *)
(** ** Machine integers *)
(* ===================================================================== *)

Module Int64.

Definition min_int : Z := - 2 ^ 63.
Definition max_int : Z := 2 ^ 63 - 1.

(** Two's-complement reduction of a mathematical integer to 64 bits. *)
Definition wrap (z : Z) : Z := (z + 2 ^ 63) mod 2 ^ 64 - 2 ^ 63.

Definition in_range (z : Z) : Prop := min_int <= z <= max_int.

Definition add (a b : Z) : Z := wrap (a + b).
Definition sub (a b : Z) : Z := wrap (a - b).

(** Go's [%] truncates towards zero. *)
Definition rem (a b : Z) : Z := Z.rem a b.

End Int64.

(* ===================================================================== *)
(** ** float64 *)
(* ===================================================================== *)

Module Float64.

Definition prec : Z := 53.
Definition emax : Z := 1024.

Definition t : Type := spec_float.

(** The zero value of a [float64] field. *)
Definition zero : t := S754_zero false.

(** The conversion [float64(n)] of an [int64]. *)
Definition of_int (n : Z) : t := binary_normalize prec emax n 0 false.

Definition div (x y : t) : t := SFdiv prec emax x y.
Definition mul (x y : t) : t := SFmul prec emax x y.
Definition leb (x y : t) : bool := SFleb x y.

(** The constants [100] and [100.0] of the source. *)
Definition hundred : t := Eval vm_compute in of_int 100.

End Float64.

(* ===================================================================== *)
(** ** Library functions the program calls *)
(* ===================================================================== *)

(** [path/filepath] and [sort.Slice] belong to the Go library, not to the
    program.  The program is embedded over any implementation of them. *)
Class GoLib := {
  filepath_Base : string -> string;
  filepath_Dir : string -> string;
  filepath_Join : string -> string -> string;
  sort_Slice : forall {A : Type}, (A -> A -> bool) -> list A -> list A
}.

(** A [less] function as [sort.Slice] expects it: a strict weak order. *)
Record StrictWeak {A : Type} (less : A -> A -> bool) : Prop := {
  sw_asym : forall a b, less a b = true -> less b a = false;
  sw_negtrans : forall a b c,
      less a b = false -> less b c = false -> less a c = false
}.

(** What [sort.Slice] promises: the result is a rearrangement of the
    slice in which no element is [less] than one before it.  Nothing is
    said on the order of elements that compare equal (the sort is not
    stable). *)
Class GoLibLaws (lib : GoLib) : Prop := {
  sort_Slice_perm : forall (A : Type) (less : A -> A -> bool) (l : list A),
      Permutation (sort_Slice less l) l;
  sort_Slice_sorted : forall (A : Type) (less : A -> A -> bool) (l : list A),
      StrictWeak less ->
      StronglySorted (fun a b => less b a = false) (sort_Slice less l)
}.

(* ===================================================================== *)
(** ** The file system *)
(* ===================================================================== *)

(** [*os.PathError]: the operation that failed and its path. *)
Inductive error := PathError (op : string) (path : string).

(** A file-system object as [os.Stat] reports the scanned path and as
    [Info()] reports an entry of a listing.  Anything that is not a
    directory is a [FsFile] with its length.  The listing of a directory
    is [None] when [os.ReadDir] fails; an entry carries [None] when its
    [Info()] fails. *)
Inductive FsNode :=
| FsFile (size : Z)
| FsDir (entries : option (list (string * option FsNode))).

(** What [os.ReadDir] returns: names, each with the result of [Info()]. *)
Abbreviation DirListing := (list (string * option FsNode)) (only parsing).

(** [strings.HasPrefix(name, ".")] *)
Definition isHidden (name : string) : bool := String.prefix "." name.

Arguments isHidden : simpl never.

(* ===================================================================== *)
(** ** DirEntry *)
(* ===================================================================== *)

(** [ParentDir] is a back pointer in the source; the entry it points to is
    identified by its path. *)
Inductive DirEntry := mkDirEntry {
  Name : string;
  Path : string;
  Size : Z;
  Percent : Float64.t;
  Children : list DirEntry;
  IsDir : bool;
  Level : Z;
  ParentDir : option string
}.

(** [child.Percent = p] *)
Definition setPercent (p : Float64.t) (d : DirEntry) : DirEntry :=
  mkDirEntry (Name d) (Path d) (Size d) p (Children d) (IsDir d) (Level d)
             (ParentDir d).

(* ===================================================================== *)
(** ** The size cache *)
(* ===================================================================== *)

(** Ghost events: a full traversal started at a path, a store of a path. *)
Inductive CacheEvent :=
| EvTraverse (path : string)
| EvStore (path : string).

(** The global [sizeCache] and the log of what was done to it, newest
    event first. *)
Record CacheState := mkCacheState {
  sizeCache : gmap string Z;
  events : list CacheEvent
}.

Definition emptyCache : CacheState := mkCacheState ∅ [].

Section Program.

Context {lib : GoLib}.

(** [calculateFullDirSize(path)]; [n] is the object at [path].
    [os.ReadDir] fails on a file. *)
Fixpoint calculateFullDirSize (path : string) (n : FsNode) : Z :=
  match n with
  | FsFile _ => 0
  | FsDir None => 0
  | FsDir (Some entries) =>
      (fix loop (entries : DirListing) (size : Z) {struct entries} : Z :=
         match entries with
         | [] => size
         | (name, info) :: rest =>
             if isHidden name then loop rest size
             else
               let childPath := filepath_Join path name in
               match info with
               | None => loop rest size
               | Some (FsDir _ as child) =>
                   loop rest
                     (Int64.add size (calculateFullDirSize childPath child))
               | Some (FsFile sz) => loop rest (Int64.add size sz)
               end
         end) entries 0
  end.

(** [getCachedSize(path)] when no other goroutine touches the cache
    between its lookup and its store; [n] is the object at [path].  The
    steps of a call that shares the cache with other calls are [getStep]
    below. *)
Definition getCachedSize (path : string) (n : FsNode) (st : CacheState)
  : Z * CacheState :=
  match sizeCache st !! path with
  | Some size => (size, st)
  | None =>
      let size := calculateFullDirSize path n in
      (size,
       mkCacheState (<[path := size]> (sizeCache st))
                    (EvStore path :: EvTraverse path :: events st))
  end.

(** Where a call of [getCachedSize] stands.  The read lock covers the
    lookup and is released before the traversal; the write lock covers
    the store only. *)
Inductive GetPc :=
| AtLookup
| AtTraverse
| AtStore (size : Z)
| Returned (size : Z).

(** A call of [getCachedSize(path)] by one goroutine; [callNode] is the
    object its traversal finds at the path. *)
Record GetCall := mkGetCall {
  callPath : string;
  callNode : FsNode;
  callPc : GetPc
}.

(** One step of a call: the lookup under [cacheMutex.RLock], the
    traversal under no lock, the store under [cacheMutex.Lock]. *)
Definition getStep (c : GetCall) (st : CacheState) : GetCall * CacheState :=
  match callPc c with
  | AtLookup =>
      match sizeCache st !! callPath c with
      | Some size => (mkGetCall (callPath c) (callNode c) (Returned size), st)
      | None => (mkGetCall (callPath c) (callNode c) AtTraverse, st)
      end
  | AtTraverse =>
      (mkGetCall (callPath c) (callNode c)
                 (AtStore (calculateFullDirSize (callPath c) (callNode c))),
       mkCacheState (sizeCache st) (EvTraverse (callPath c) :: events st))
  | AtStore size =>
      (mkGetCall (callPath c) (callNode c) (Returned size),
       mkCacheState (<[callPath c := size]> (sizeCache st))
                    (EvStore (callPath c) :: events st))
  | Returned _ => (c, st)
  end.

(** The calls of the goroutines that run at one time, stepped in the
    order of a schedule: each number names the call that steps next. *)
Fixpoint runSchedule (sched : list nat) (calls : list GetCall)
         (st : CacheState) : list GetCall * CacheState :=
  match sched with
  | [] => (calls, st)
  | i :: rest =>
      match nth_error calls i with
      | None => runSchedule rest calls st
      | Some c =>
          let '(c', st') := getStep c st in
          runSchedule rest (<[i := c']> calls) st'
      end
  end.

(** The state of the loop of [scanDirectoryWithCache]. *)
Record ScanAcc := mkScanAcc {
  totalSize : Z;
  directories : list DirEntry;
  files : list DirEntry;
  cache : CacheState
}.

(** One iteration of [for _, e := range entries]. *)
Definition scanStep (path : string) (level : Z) (showFiles : bool)
           (acc : ScanAcc) (e : string * option FsNode) : ScanAcc :=
  let '(name, info) := e in
  let childPath := filepath_Join path name in
  if isHidden name then acc
  else
    match info with
    | None => acc
    | Some (FsDir _ as child) =>
        let '(childSize, st) := getCachedSize childPath child (cache acc) in
        mkScanAcc (Int64.add (totalSize acc) childSize)
          (directories acc ++
             [mkDirEntry name childPath childSize Float64.zero [] true
                         (Int64.add level 1) (Some path)])
          (files acc) st
    | Some (FsFile sz) =>
        if showFiles then
          mkScanAcc (Int64.add (totalSize acc) sz)
            (directories acc)
            (files acc ++
               [mkDirEntry name childPath sz Float64.zero [] false
                           (Int64.add level 1) (Some path)])
            (cache acc)
        else
          mkScanAcc (Int64.add (totalSize acc) sz)
            (directories acc) (files acc) (cache acc)
    end.

Definition scanLoop (path : string) (level : Z) (showFiles : bool)
           (entries : DirListing) (acc : ScanAcc) : ScanAcc :=
  fold_left (scanStep path level showFiles) entries acc.

(** [func(i, j int) bool { return s[i].Size > s[j].Size }] *)
Definition bySizeDesc (a b : DirEntry) : bool := Size a >? Size b.

(** [float64(child.Size) / float64(totalSize) * 100] *)
Definition percentOf (size total : Z) : Float64.t :=
  Float64.mul (Float64.div (Float64.of_int size) (Float64.of_int total))
              Float64.hundred.

(** The loop [for _, child := range entry.Children] and its guard
    [if totalSize > 0]. *)
Definition assignPercentages (total : Z) (children : list DirEntry)
  : list DirEntry :=
  if total >? 0
  then map (fun c => setPercent (percentOf (Size c) total) c) children
  else children.

(** [scanDirectoryWithCache(path, parentDir, level, showFiles)]; [stat]
    is the object at [path], [None] when [os.Stat] fails. *)
Definition scanDirectoryWithCache (path : string) (stat : option FsNode)
           (parentDir : option string) (level : Z) (showFiles : bool)
           (st : CacheState) : (error + DirEntry) * CacheState :=
  match stat with
  | None => (inl (PathError "stat" path), st)
  | Some (FsFile sz) =>
      (inr (mkDirEntry (filepath_Base path) path sz Float64.zero []
                       false level parentDir), st)
  | Some (FsDir None) => (inl (PathError "open" path), st)
  | Some (FsDir (Some entries)) =>
      let acc := scanLoop path level showFiles entries
                          (mkScanAcc 0 [] [] st) in
      let dirs := sort_Slice bySizeDesc (directories acc) in
      let fls := sort_Slice bySizeDesc (files acc) in
      let total := totalSize acc in
      (inr (mkDirEntry (filepath_Base path) path total Float64.zero
                       (assignPercentages total (dirs ++ fls))
                       true level parentDir),
       cache acc)
  end.

End Program.

(* ===================================================================== *)
(** ** The Bubble Tea model *)
(* ===================================================================== *)

Record Model := mkModel {
  RootDir : option DirEntry;
  CursorPos : Z;
  ScrollPos : Z;
  VisibleDirs : list DirEntry;
  Error : option error;
  Loading : bool;
  LoadingPath : string;
  SpinnerIdx : Z;
  ShowFiles : bool;
  Height : Z
}.

(** The messages [Update] receives.  [KeyMsg] carries [msg.String()]. *)
Inductive Msg :=
| WindowSizeMsg (width height : Z)
| LoadingMsg (path : string)
| LoadingCompleteMsg (dir : option DirEntry) (err : option error)
| SpinnerMsg
| KeyMsg (key : string)
| ExecuteFileMsg (filePath : string) (success : bool) (err : option error).

(** The commands [Update] hands back to the run time. *)
Inductive Cmd :=
| CmdNil
| CmdQuit
| CmdDoSpinner
| CmdLoadDirectory (path : string) (showFiles : bool)
| CmdSend (msg : Msg)
| CmdExecuteFile (filePath : string).

(** What [View] puts on the screen, before styling. *)
Record Row := mkRow {
  row_selected : bool;
  row_indent : string;
  row_entry : DirEntry
}.

Inductive Screen :=
| ScreenError (e : error)
| ScreenLoading (frame : string) (path : string)
| ScreenListing (header : string) (rows : list Row).

Definition spinnerFrames : list string := ["◐"; "◓"; "◑"; "◒"].

Fixpoint repeatString (s : string) (n : nat) : string :=
  match n with
  | O => EmptyString
  | S n' => String.append s (repeatString s n')
  end.

(** [strings.Repeat(s, count)]: panics on a negative count and when the
    length of the result overflows an [int]. *)
Definition strings_Repeat (s : string) (count : Z) : option string :=
  if count <? 0 then None
  else if Z.of_nat (String.length s) * count >? Int64.max_int then None
  else Some (repeatString s (Z.to_nat count)).

(** [len(s)] *)
Definition len {A : Type} (s : list A) : Z := Z.of_nat (length s).

(** [s[i]]; out of range is a panic. *)
Definition index {A : Type} (s : list A) (i : Z) : option A :=
  if i <? 0 then None else nth_error s (Z.to_nat i).

Definition withCursorPos (m : Model) (c : Z) : Model :=
  mkModel (RootDir m) c (ScrollPos m) (VisibleDirs m) (Error m) (Loading m)
          (LoadingPath m) (SpinnerIdx m) (ShowFiles m) (Height m).

Definition withScrollPos (m : Model) (s : Z) : Model :=
  mkModel (RootDir m) (CursorPos m) s (VisibleDirs m) (Error m) (Loading m)
          (LoadingPath m) (SpinnerIdx m) (ShowFiles m) (Height m).

Definition withHeight (m : Model) (h : Z) : Model :=
  mkModel (RootDir m) (CursorPos m) (ScrollPos m) (VisibleDirs m) (Error m)
          (Loading m) (LoadingPath m) (SpinnerIdx m) (ShowFiles m) h.

Definition withVisibleDirs (m : Model) (v : list DirEntry) : Model :=
  mkModel (RootDir m) (CursorPos m) (ScrollPos m) v (Error m) (Loading m)
          (LoadingPath m) (SpinnerIdx m) (ShowFiles m) (Height m).

Definition withRootDir (m : Model) (r : option DirEntry) : Model :=
  mkModel r (CursorPos m) (ScrollPos m) (VisibleDirs m) (Error m) (Loading m)
          (LoadingPath m) (SpinnerIdx m) (ShowFiles m) (Height m).

Definition withError (m : Model) (e : option error) : Model :=
  mkModel (RootDir m) (CursorPos m) (ScrollPos m) (VisibleDirs m) e
          (Loading m) (LoadingPath m) (SpinnerIdx m) (ShowFiles m) (Height m).

Definition withLoading (m : Model) (b : bool) (p : string) : Model :=
  mkModel (RootDir m) (CursorPos m) (ScrollPos m) (VisibleDirs m) (Error m)
          b p (SpinnerIdx m) (ShowFiles m) (Height m).

Definition withSpinnerIdx (m : Model) (i : Z) : Model :=
  mkModel (RootDir m) (CursorPos m) (ScrollPos m) (VisibleDirs m) (Error m)
          (Loading m) (LoadingPath m) i (ShowFiles m) (Height m).

(** [maxVisible := m.Height - 2] *)
Definition maxVisible (m : Model) : Z := Int64.sub (Height m) 2.

(** [func (m *Model) ensureCursorVisible()] *)
Definition ensureCursorVisible (m : Model) : Model :=
  if len (VisibleDirs m) =? 0 then m
  else
    let mv := maxVisible m in
    let scroll :=
      if CursorPos m <? ScrollPos m then CursorPos m
      else if CursorPos m >=? Int64.add (ScrollPos m) mv
           then Int64.add (Int64.sub (CursorPos m) mv) 1
           else ScrollPos m in
    let scroll := if scroll <? 0 then 0 else scroll in
    let maxScroll := Int64.sub (len (VisibleDirs m)) mv in
    let maxScroll := if maxScroll <? 0 then 0 else maxScroll in
    let scroll := if scroll >? maxScroll then maxScroll else scroll in
    withScrollPos m scroll.

Definition isKey (key : string) (names : list string) : bool :=
  existsb (String.eqb key) names.

Section Navigation.

Context {lib : GoLib}.

(** The command of [loadDirectory(path)] once the run time executes it;
    [stat] is the object at [path]. *)
Definition loadDirectory (m : Model) (path : string) (stat : option FsNode)
           (st : CacheState) : Msg * CacheState :=
  match scanDirectoryWithCache path stat None 0 (ShowFiles m) st with
  | (inl err, st') => (LoadingCompleteMsg None (Some err), st')
  | (inr dir, st') =>
      (LoadingCompleteMsg (Some (setPercent Float64.hundred dir)) None, st')
  end.

(** [func (m *Model) updateVisibleDirs()]; a nil [RootDir] panics. *)
Definition updateVisibleDirs (m : Model) : option Model :=
  match RootDir m with
  | None => None
  | Some root =>
      let parentPath := filepath_Dir (Path root) in
      let visible :=
        if String.eqb parentPath (Path root) then []
        else [mkDirEntry ".." parentPath 0 Float64.zero [] true 0 None] in
      let visible :=
        visible ++
          List.filter (fun child => IsDir child || ShowFiles m)
                      (Children root) in
      Some (withScrollPos (withCursorPos (withVisibleDirs m visible) 0) 0)
  end.

(** The [tea.KeyMsg] case of [Update] when no load is running. *)
Definition updateKey (m : Model) (key : string) : option (Model * Cmd) :=
  if isKey key ["q"; "ctrl+c"] then Some (m, CmdQuit)
  else if isKey key ["up"; "k"] then
    if CursorPos m >? 0
    then Some (ensureCursorVisible
                 (withCursorPos m (Int64.sub (CursorPos m) 1)), CmdNil)
    else Some (m, CmdNil)
  else if isKey key ["down"; "j"] then
    if CursorPos m <? Int64.sub (len (VisibleDirs m)) 1
    then Some (ensureCursorVisible
                 (withCursorPos m (Int64.add (CursorPos m) 1)), CmdNil)
    else Some (m, CmdNil)
  else if isKey key ["enter"] then
    if CursorPos m <? len (VisibleDirs m) then
      match index (VisibleDirs m) (CursorPos m) with
      | None => None
      | Some dir =>
          if IsDir dir then
            if String.eqb (Name dir) ".." then
              match RootDir m with
              | None => None
              | Some root =>
                  let parentPath := filepath_Dir (Path root) in
                  if String.eqb parentPath (Path root)
                  then Some (m, CmdNil)
                  else Some (m, CmdSend (LoadingMsg parentPath))
              end
            else Some (m, CmdSend (LoadingMsg (Path dir)))
          else Some (m, CmdExecuteFile (Path dir))
      end
    else Some (m, CmdNil)
  else if isKey key ["backspace"; "h"] then
    match RootDir m with
    | None => None
    | Some root =>
        let parentPath := filepath_Dir (Path root) in
        if String.eqb parentPath (Path root)
        then Some (m, CmdNil)
        else Some (m, CmdSend (LoadingMsg parentPath))
    end
  else if isKey key ["home"; "g"] then
    Some (ensureCursorVisible (withCursorPos m 0), CmdNil)
  else if isKey key ["end"; "G"] then
    if len (VisibleDirs m) >? 0
    then Some (ensureCursorVisible
                 (withCursorPos m (Int64.sub (len (VisibleDirs m)) 1)),
               CmdNil)
    else Some (m, CmdNil)
  else if isKey key ["pgup"] then
    let mv := maxVisible m in
    let c := Int64.sub (CursorPos m) mv in
    let c := if c <? 0 then 0 else c in
    Some (ensureCursorVisible (withCursorPos m c), CmdNil)
  else if isKey key ["pgdown"] then
    let mv := maxVisible m in
    let c := Int64.add (CursorPos m) mv in
    let c := if c >=? len (VisibleDirs m)
             then Int64.sub (len (VisibleDirs m)) 1 else c in
    Some (ensureCursorVisible (withCursorPos m c), CmdNil)
  else Some (m, CmdNil).

(** [func (m Model) Update(msg tea.Msg) (tea.Model, tea.Cmd)] *)
Definition Update (m : Model) (msg : Msg) : option (Model * Cmd) :=
  match msg with
  | WindowSizeMsg _ height =>
      Some (ensureCursorVisible (withHeight m height), CmdNil)
  | LoadingMsg path =>
      let m := withLoading m true path in
      Some (m, CmdLoadDirectory path (ShowFiles m))
  | LoadingCompleteMsg dir err =>
      let m := withLoading m false (LoadingPath m) in
      match err with
      | Some e => Some (withError m (Some e), CmdNil)
      | None =>
          match updateVisibleDirs (withRootDir m dir) with
          | None => None
          | Some m =>
              Some (ensureCursorVisible
                      (withScrollPos (withCursorPos m 0) 0), CmdNil)
          end
      end
  | SpinnerMsg =>
      if Loading m
      then Some (withSpinnerIdx m
                   (Int64.rem (Int64.add (SpinnerIdx m) 1)
                              (len spinnerFrames)),
                 CmdDoSpinner)
      else Some (m, CmdNil)
  | KeyMsg key =>
      if Loading m then
        if String.eqb key "q" || String.eqb key "ctrl+c"
        then Some (m, CmdQuit)
        else Some (m, CmdNil)
      else updateKey m key
  | ExecuteFileMsg _ _ _ => Some (m, CmdNil)
  end.

(** The loop of [View] over the rows [i], [i+1], ... of the visible
    window, [n] of them: the row is read, its indentation is built from
    its [Level], then the line. *)
Fixpoint viewRows (m : Model) (i : Z) (n : nat) : option (list Row) :=
  match n with
  | O => Some []
  | S n' =>
      match index (VisibleDirs m) i with
      | None => None
      | Some dir =>
          match strings_Repeat "  " (Level dir) with
          | None => None
          | Some indent =>
              match viewRows m (Int64.add i 1) n' with
              | None => None
              | Some rows =>
                  Some (mkRow (i =? CursorPos m) indent dir :: rows)
              end
          end
      end
  end.

(** [func (m Model) View() string], up to styling and formatting. *)
Definition View (m : Model) : option Screen :=
  match Error m with
  | Some e => Some (ScreenError e)
  | None =>
      if Loading m then
        match index spinnerFrames (SpinnerIdx m) with
        | None => None
        | Some frame => Some (ScreenLoading frame (LoadingPath m))
        end
      else
        match RootDir m with
        | None => None
        | Some root =>
            let start := ScrollPos m in
            let stop := Int64.add start (maxVisible m) in
            let stop := if stop >? len (VisibleDirs m)
                        then len (VisibleDirs m) else stop in
            match viewRows m start (Z.to_nat (stop - start)) with
            | None => None
            | Some rows => Some (ScreenListing (Path root) rows)
            end
        end
  end.

(** The model [main] starts the program with. *)
Definition initialModel (rootDir : DirEntry) (showFiles : bool)
  : option Model :=
  updateVisibleDirs
    (mkModel (Some (setPercent Float64.hundred rootDir)) 0 0 [] None false
             "" 0 showFiles 20).

(** Feeding a sequence of messages to [Update], commands dropped. *)
Fixpoint run (m : Model) (msgs : list Msg) : option Model :=
  match msgs with
  | [] => Some m
  | msg :: rest =>
      match Update m msg with
      | None => None
      | Some (m', _) => run m' rest
      end
  end.

End Navigation.

(* ===================================================================== *)
(** ** An implementation of the library functions *)
(* ===================================================================== *)

(** [path/filepath] as it behaves on clean slash-separated paths, and
    insertion sort for [sort.Slice].  The examples below are evaluated
    over this implementation. *)
Module Unix.

Definition isSlash (c : ascii) : bool := Ascii.eqb c "/"%char.

Fixpoint hasSlash (s : string) : bool :=
  match s with
  | EmptyString => false
  | String c r => isSlash c || hasSlash r
  end.

(** The part of [s] before its last separator, if it has one. *)
Fixpoint beforeLastSlash (s : string) : option string :=
  match s with
  | EmptyString => None
  | String c r =>
      match beforeLastSlash r with
      | Some d => Some (String c d)
      | None => if isSlash c then Some EmptyString else None
      end
  end.

(** The part of [s] after its last separator. *)
Fixpoint afterLastSlash (s : string) : string :=
  match s with
  | EmptyString => EmptyString
  | String c r =>
      if hasSlash r then afterLastSlash r
      else if isSlash c then r else s
  end.

Definition Dir (path : string) : string :=
  match beforeLastSlash path with
  | None => "."
  | Some EmptyString => "/"
  | Some d => d
  end.

Definition Base (path : string) : string :=
  match path with
  | EmptyString => "."
  | _ => match afterLastSlash path with
         | EmptyString => "/"
         | b => b
         end
  end.

Definition Join (dir name : string) : string :=
  if String.eqb dir "/" then String.append "/" name
  else String.append dir (String.append "/" name).

Section Sort.
Context {A : Type} (less : A -> A -> bool).

Fixpoint insert (x : A) (l : list A) : list A :=
  match l with
  | [] => [x]
  | y :: l' => if less x y then x :: l else y :: insert x l'
  end.

Fixpoint insertionSort (l : list A) : list A :=
  match l with
  | [] => []
  | x :: l' => insert x (insertionSort l')
  end.
End Sort.

#[export] Instance lib : GoLib := {|
  filepath_Base := Base;
  filepath_Dir := Dir;
  filepath_Join := Join;
  sort_Slice := @insertionSort
|}.

End Unix.


(* ===================================================================== *)
(** ** Sums over listings and entries *)
(* ===================================================================== *)

(** The sum of the sizes of a list of entries, as a mathematical integer. *)
Definition sumSizes (l : list DirEntry) : Z :=
  fold_right (fun c acc => Size c + acc) 0 l.

(** The sizes of the files of a listing that the scan counts: the name is
    not hidden and [Info()] succeeds. *)
Fixpoint countedFileSizes (entries : DirListing) : list Z :=
  match entries with
  | [] => []
  | (name, Some (FsFile sz)) :: rest =>
      if isHidden name then countedFileSizes rest
      else sz :: countedFileSizes rest
  | _ :: rest => countedFileSizes rest
  end.

(** The total of the files present on disk but not displayed. *)
Definition undisplayed (showFiles : bool) (entries : DirListing) : Z :=
  if showFiles then 0 else fold_right Z.add 0 (countedFileSizes entries).

(** The names of the sub-directories, and of the files, that the scan
    counts, in listing order. *)
Fixpoint countedDirNames (entries : DirListing) : list string :=
  match entries with
  | [] => []
  | (name, Some (FsDir _)) :: rest =>
      if isHidden name then countedDirNames rest
      else name :: countedDirNames rest
  | _ :: rest => countedDirNames rest
  end.

Fixpoint countedFileNames (entries : DirListing) : list string :=
  match entries with
  | [] => []
  | (name, Some (FsFile _)) :: rest =>
      if isHidden name then countedFileNames rest
      else name :: countedFileNames rest
  | _ :: rest => countedFileNames rest
  end.

Definition notHidden (e : string * option FsNode) : bool :=
  negb (isHidden (fst e)).

(** Descending order of sizes. *)
Definition sizeDesc (l : list DirEntry) : Prop :=
  StronglySorted (fun a b => Size a >= Size b) l.

(* ===================================================================== *)
(** ** What the scan loop produces *)
(* ===================================================================== *)

Section ScanSpec.

Context {lib : GoLib}.

(** A child as the loop creates it, before sorting and percentages. *)
Record freshChild (path : string) (level : Z) (isDir : bool)
       (c : DirEntry) : Prop := {
  fc_isDir : IsDir c = isDir;
  fc_level : Level c = Int64.add level 1;
  fc_percent : Percent c = Float64.zero;
  fc_children : Children c = [];
  fc_parent : ParentDir c = Some path;
  fc_path : Path c = filepath_Join path (Name c)
}.

(** What one iteration adds to the accumulators. *)
Definition stepSpec (path : string) (level : Z) (showFiles : bool)
           (entries : DirListing) (acc acc' : ScanAcc) : Prop :=
  exists ds fs,
    directories acc' = directories acc ++ ds
    /\ files acc' = files acc ++ fs
    /\ totalSize acc'
       = Int64.wrap (totalSize acc + sumSizes ds + sumSizes fs
                     + undisplayed showFiles entries)
    /\ Forall (freshChild path level true) ds
    /\ Forall (freshChild path level false) fs
    /\ map Name ds = countedDirNames entries
    /\ map Name fs = (if showFiles then countedFileNames entries else [])
    /\ map Size fs = (if showFiles then countedFileSizes entries else []).

End ScanSpec.

(** The cache holds the size of an entry under the entry's path. *)
Definition cachedIn (st : CacheState) (c : DirEntry) : Prop :=
  sizeCache st !! Path c = Some (Size c).

(** Where the children come from: a directory child stands for a
    sub-directory of the listing and carries the size the cache holds for
    its path; a file child stands for a file of the listing and carries
    the size its [Info()] reports. *)
Definition childOrigin (entries : DirListing) (st : CacheState)
           (c : DirEntry) : Prop :=
  if IsDir c
  then (exists es, In (Name c, Some (FsDir es)) entries) /\ cachedIn st c
  else In (Name c, Some (FsFile (Size c))) entries.


(* ===================================================================== *)
(** ** The life of the cache *)
(* ===================================================================== *)

Definition isStoreOf (p : string) (e : CacheEvent) : bool :=
  match e with
  | EvStore q => String.eqb p q
  | EvTraverse _ => false
  end.

Definition isTraverseOf (p : string) (e : CacheEvent) : bool :=
  match e with
  | EvTraverse q => String.eqb p q
  | EvStore _ => false
  end.

(** How often the entry of [p] was written, and how often a traversal was
    started at [p], so far. *)
Definition storesOf (p : string) (st : CacheState) : nat :=
  length (List.filter (isStoreOf p) (events st)).

Definition traversalsOf (p : string) (st : CacheState) : nat :=
  length (List.filter (isTraverseOf p) (events st)).

(** Everything the process does to the cache: a call of [getCachedSize],
    or a scan (of [main] or of [loadDirectory]), each on the file system
    as it is at that moment. *)
Inductive CacheOp :=
| OpGet (path : string) (n : FsNode)
| OpScan (path : string) (stat : option FsNode) (parentDir : option string)
         (level : Z) (showFiles : bool).

Definition runOp {lib : GoLib} (st : CacheState) (op : CacheOp)
  : CacheState :=
  match op with
  | OpGet path n => snd (getCachedSize path n st)
  | OpScan path stat parentDir level showFiles =>
      snd (scanDirectoryWithCache path stat parentDir level showFiles st)
  end.

Definition runOps {lib : GoLib} (ops : list CacheOp) (st : CacheState)
  : CacheState :=
  fold_left runOp ops st.

(** The log agrees with the map: nothing was done for an absent path,
    and at most one traversal and one store for a present one. *)
Definition logAgrees (st : CacheState) : Prop :=
  forall p,
    (storesOf p st <= 1)%nat /\ (traversalsOf p st <= 1)%nat
    /\ (sizeCache st !! p = None ->
        storesOf p st = 0%nat /\ traversalsOf p st = 0%nat).

(* ===================================================================== *)
(** ** Normal floats *)
(* ===================================================================== *)

Module Float64Spec.

(** The rounding position of a remainder [rem] below the unit [unit]. *)
Definition locOf (rem unit : Z) : location :=
if rem =? 0 then loc_Exact else loc_Inexact (2 * rem ?= unit).

(** The float a positive mantissa and an exponent stand for, the
  mantissa having 53 bits, or 54 after a round up. *)
Definition pack (m e : Z) : spec_float :=
if m =? 2 ^ 53 then S754_finite false (Z.to_pos (2 ^ 52)) (e + 1)
else S754_finite false (Z.to_pos m) e.

(** Floats with a mantissa of exactly 53 bits are ordered by exponent,
  then by mantissa. *)
Definition nf_le (m1 e1 m2 e2 : Z) : Prop :=
e1 < e2 \/ (e1 = e2 /\ m1 <= m2).

Definition normal (m : Z) : Prop := 2 ^ 52 <= m < 2 ^ 53.

(** The mantissa and the exponent of [float64(a)], for [a > 0]. *)
Definition rnd (a : Z) : Z * Z :=
let d := Zdigits2 a in
if d <=? 53 then (a * 2 ^ (53 - d), d - 53)
else
  let n := d - 53 in
  let m2 := round_nearest_even (a / 2 ^ n) (locOf (a mod 2 ^ n) (2 ^ n)) in
  if m2 =? 2 ^ 53 then (2 ^ 52, n + 1) else (m2, n).

(** The mantissa of [100.0]. *)
Definition mhundred : Z := 7036874417766400.

End Float64Spec.

(* ===================================================================== *)
(** ** The viewport *)
(* ===================================================================== *)

(** The cursor row lies in the window of [maxVisible] rows that starts at
    the scroll offset, whenever there is a window and a list. *)
Definition viewportInv (m : Model) : Prop :=
  maxVisible m > 0 -> VisibleDirs m <> [] ->
  ScrollPos m <= CursorPos m <= ScrollPos m + maxVisible m - 1.

(** A model whose window has room for the header, whose cursor is on a
    row of the list (or, on an empty list, where the page keys leave it),
    and whose window holds the cursor row. *)
Record navOK (m : Model) : Prop := {
  ok_height : 2 <= Height m < 2 ^ 62;
  ok_len : len (VisibleDirs m) < 2 ^ 62;
  ok_scroll : 0 <= ScrollPos m <= len (VisibleDirs m);
  ok_cursor : VisibleDirs m <> [] -> 0 <= CursorPos m < len (VisibleDirs m);
  ok_cursor_empty : VisibleDirs m = [] -> -1 <= CursorPos m <= 0;
  ok_viewport : viewportInv m
}.

(** A message that keeps the window at two rows or more. *)
Definition msgOK (msg : Msg) : Prop :=
  match msg with
  | WindowSizeMsg _ height => 2 <= height < 2 ^ 62
  | LoadingCompleteMsg (Some dir) None => len (Children dir) < 2 ^ 62 - 1
  | _ => True
  end.

(** [msg.String() == "q" || msg.String() == "ctrl+c"] *)
Definition isQuit (key : string) : bool :=
  String.eqb key "q" || String.eqb key "ctrl+c".

(** The entry [updateVisibleDirs] puts in front of the children. *)
Definition parentEntry (parentPath : string) : DirEntry :=
  mkDirEntry ".." parentPath 0 Float64.zero [] true 0 None.

(* ===================================================================== *)
(** ** A sample tree and sample models *)
(* ===================================================================== *)

Module Sample.

(** [/tmp/x] holds directory [a] (300 bytes in two files), directory [b]
    (100 bytes), a hidden directory, two files, a hidden file and an
    entry whose [Info()] fails. *)
Definition dirA : FsNode :=
  FsDir (Some [("one", Some (FsFile 120)); ("two", Some (FsFile 180));
               (".cache", Some (FsFile 4096))]).
Definition dirB : FsNode := FsDir (Some [("data", Some (FsFile 100))]).

Definition listing : DirListing :=
  [ (".git", Some (FsDir (Some [("HEAD", Some (FsFile 23))])));
    ("a", Some dirA);
    ("b", Some dirB);
    ("gone", None);
    ("notes.txt", Some (FsFile 60));
    (".profile", Some (FsFile 7));
    ("z.bin", Some (FsFile 140)) ].

Definition root : FsNode := FsDir (Some listing).

Definition scanned (showFiles : bool) : (error + DirEntry) * CacheState :=
  scanDirectoryWithCache (lib := Unix.lib) "/tmp/x" (Some root) None 0
                         showFiles emptyCache.

Definition entry (name : string) (isDir : bool) : DirEntry :=
  mkDirEntry name (Unix.Join "/tmp/x" name) 0 Float64.zero [] isDir 1
             (Some "/tmp/x").

(** A model showing [/tmp/x] with [n] sub-directories, in a window of
    [h] rows. *)
Definition rootOf (n : nat) : DirEntry :=
  mkDirEntry "x" "/tmp/x" 0 Float64.hundred
             (repeat (entry "d" true) n) true 0 None.

Definition model (n : nat) (h : Z) : Model :=
  mkModel (Some (rootOf n)) 0 0
          (mkDirEntry ".." "/tmp" 0 Float64.zero [] true 0 None
             :: repeat (entry "d" true) n)
          None false "" 0 true h.

Definition failure : error := PathError "open" "/tmp/x/d".

(** The sample model while a load of [/tmp/x/d] is running. *)
Definition loadingModel : Model :=
  mkModel (Some (rootOf 2)) 1 0
          (mkDirEntry ".." "/tmp" 0 Float64.zero [] true 0 None
             :: repeat (entry "d" true) 2)
          None true "/tmp/x/d" 2 true 20.

(** What a later, successful load of [/tmp/x/d] delivers. *)
Definition newRoot : DirEntry :=
  mkDirEntry "d" "/tmp/x/d" 10 Float64.hundred
             [mkDirEntry "sub" "/tmp/x/d/sub" 10 Float64.hundred [] true 1
                         (Some "/tmp/x/d")]
             true 0 None.

End Sample.

(* ===================================================================== *)
(** ** The bytes below a directory *)
(* ===================================================================== *)

(** The sizes of the files below a node that a full traversal counts:
    the files of every readable directory on the way whose name is not
    hidden and whose [Info()] succeeds. *)
Fixpoint filesBelow (n : FsNode) : list Z :=
  match n with
  | FsFile _ => []
  | FsDir None => []
  | FsDir (Some entries) =>
      (fix below (entries : DirListing) : list Z :=
         match entries with
         | [] => []
         | (name, info) :: rest =>
             if isHidden name then below rest
             else
               match info with
               | None => below rest
               | Some (FsFile sz) => sz :: below rest
               | Some (FsDir _ as child) => filesBelow child ++ below rest
               end
         end) entries
  end.

Definition sumZ (l : list Z) : Z := fold_right Z.add 0 l.

(** The files of a listing counted by the traversal of its directory. *)
Definition filesOfListing (entries : DirListing) : list Z :=
  filesBelow (FsDir (Some entries)).

(** The cache agrees with the file system on the sub-directories of a
    listing: a size it holds for one of them is what a traversal of it
    returns now. *)
Definition coherent {lib : GoLib} (path : string) (entries : DirListing)
           (st : CacheState) : Prop :=
  forall name es v,
    In (name, Some (FsDir es)) entries ->
    isHidden name = false ->
    sizeCache st !! filepath_Join path name = Some v ->
    v = calculateFullDirSize (filepath_Join path name) (FsDir es).

(** The paths of the sub-directories a scan of the listing asks the
    cache for. *)
Definition countedDirPaths {lib : GoLib} (path : string)
           (entries : DirListing) : list string :=
  map (filepath_Join path) (countedDirNames entries).

(** Two listings of one directory that differ at most in what lies
    inside its sub-directories. *)
Definition sameEntry (e e' : string * option FsNode) : Prop :=
  fst e = fst e'
  /\ (snd e = snd e'
      \/ exists es es', snd e = Some (FsDir es) /\ snd e' = Some (FsDir es')).

Definition withCache (acc : ScanAcc) (st : CacheState) : ScanAcc :=
  mkScanAcc (totalSize acc) (directories acc) (files acc) st.

(* ===================================================================== *)
(** ** A session that cannot panic *)
(* ===================================================================== *)

(** The frame index is on [spinnerFrames]. *)
Definition spinnerOK (m : Model) : Prop :=
  0 <= SpinnerIdx m < len spinnerFrames.

(** A root whose list has a row: it has a parent directory, or a child
    that is shown. *)
Definition showsRow {lib : GoLib} (showFiles : bool) (dir : DirEntry)
  : Prop :=
  filepath_Dir (Path dir) <> Path dir
  \/ exists c, In c (Children dir) /\ IsDir c || showFiles = true.

(** The deepest level a row is given here: a path of [PATH_MAX] bytes has
    fewer components. *)
Definition maxDepth : Z := 4096.

(** A row whose indentation [View] can build: [strings.Repeat] panics
    on a negative [Level]. *)
Definition indentOK (c : DirEntry) : Prop := 0 <= Level c <= maxDepth.

(** A model with a root, a list that is not empty, rows that can be
    indented, the cursor on the list and inside a window of two rows or
    more. *)
Record ready (m : Model) : Prop := {
  rd_nav : navOK m;
  rd_rows : VisibleDirs m <> [];
  rd_root : RootDir m <> None;
  rd_spinner : spinnerOK m;
  rd_indent : Forall indentOK (VisibleDirs m)
}.

(** The messages of a session: a window of two rows or more, and the
    results [loadDirectory] delivers, an error or a root that has a row
    and whose children can be indented. *)
Definition msgSafe {lib : GoLib} (showFiles : bool) (msg : Msg) : Prop :=
  match msg with
  | WindowSizeMsg _ height => 2 <= height < 2 ^ 62
  | LoadingCompleteMsg (Some dir) None =>
      len (Children dir) < 2 ^ 62 - 1 /\ showsRow showFiles dir
      /\ Forall indentOK (Children dir)
  | LoadingCompleteMsg None None => False
  | _ => True
  end.

(** The rows of the list that fall into the window. *)
Definition window (m : Model) : list DirEntry :=
  firstn (Z.to_nat (maxVisible m))
         (skipn (Z.to_nat (ScrollPos m)) (VisibleDirs m)).

(* ===================================================================== *)
(** ** Facts on machine integers *)
(* ===================================================================== *)

Module Int64Facts.

Lemma wrap_small z : Int64.in_range z -> Int64.wrap z = z.
Proof.
  unfold Int64.in_range, Int64.min_int, Int64.max_int, Int64.wrap.
  intros Hz. rewrite Z.mod_small; lia.
Qed.

Lemma wrap_range z : Int64.in_range (Int64.wrap z).
Proof.
  unfold Int64.in_range, Int64.min_int, Int64.max_int, Int64.wrap.
  pose proof (Z.mod_pos_bound (z + 2 ^ 63) (2 ^ 64) ltac:(lia)). lia.
Qed.

Lemma wrap_add_l a b : Int64.wrap (Int64.wrap a + b) = Int64.wrap (a + b).
Proof.
  unfold Int64.wrap. f_equal.
  replace ((a + 2 ^ 63) mod 2 ^ 64 - 2 ^ 63 + b + 2 ^ 63)
    with ((a + 2 ^ 63) mod 2 ^ 64 + b) by lia.
  rewrite Z.add_mod_idemp_l by lia. f_equal. lia.
Qed.

Lemma add_small a b : Int64.in_range (a + b) -> Int64.add a b = a + b.
Proof. apply wrap_small. Qed.

Lemma sub_small a b : Int64.in_range (a - b) -> Int64.sub a b = a - b.
Proof. apply wrap_small. Qed.

End Int64Facts.

(** Rewrites every wrapped operation whose result provably fits. *)
Ltac int64_simpl :=
  unfold Int64.in_range, Int64.min_int, Int64.max_int in *;
  repeat first
    [ rewrite Int64Facts.add_small
        by (unfold Int64.in_range, Int64.min_int, Int64.max_int; lia)
    | rewrite Int64Facts.sub_small
        by (unfold Int64.in_range, Int64.min_int, Int64.max_int; lia) ].

Ltac int64_simpl_in H :=
  repeat first
    [ rewrite Int64Facts.add_small in H
        by (unfold Int64.in_range, Int64.min_int, Int64.max_int; lia)
    | rewrite Int64Facts.sub_small in H
        by (unfold Int64.in_range, Int64.min_int, Int64.max_int; lia) ].

(** Splits on a comparison of the goal whose operands hold no
    conditional, innermost tests first. *)
Ltac plain t :=
  lazymatch t with
  | context [if _ then _ else _] => fail
  | _ => idtac
  end.

Ltac case_cmp :=
  match goal with
  | |- context [ ?a <? ?b ] => plain a; plain b; destruct (Z.ltb_spec a b)
  | |- context [ ?a >? ?b ] => plain a; plain b; destruct (Z.gtb_spec a b)
  | |- context [ ?a >=? ?b ] => plain a; plain b; destruct (Z.geb_spec a b)
  | |- context [ ?a =? ?b ] => plain a; plain b; destruct (Z.eqb_spec a b)
  end.

(* ===================================================================== *)
(** ** The sample library meets the contract of [sort.Slice] *)
(* ===================================================================== *)

Module UnixFacts.

Section Sort.
Context {A : Type} (less : A -> A -> bool).

Lemma insert_perm x l : Permutation (Unix.insert less x l) (x :: l).
Proof.
  induction l as [|y l IH]; simpl; [reflexivity|].
  destruct (less x y); [reflexivity|].
  rewrite IH. apply perm_swap.
Qed.

Lemma insertionSort_perm l : Permutation (Unix.insertionSort less l) l.
Proof.
  induction l as [|x l IH]; simpl; [constructor|].
  rewrite insert_perm. now constructor.
Qed.

Hypothesis Hsw : StrictWeak less.

Lemma insert_sorted x l :
  StronglySorted (fun a b => less b a = false) l ->
  StronglySorted (fun a b => less b a = false) (Unix.insert less x l).
Proof.
  induction 1 as [|y l Hl IH Hy]; simpl.
  - repeat constructor.
  - destruct (less x y) eqn:Hxy.
    + constructor; [now constructor|].
      constructor; [now apply (sw_asym less Hsw)|].
      rewrite List.Forall_forall in *. intros z Hz.
      apply (sw_negtrans less Hsw) with y; [now apply Hy|].
      now apply (sw_asym less Hsw).
    + constructor; [exact IH|].
      rewrite List.Forall_forall in *. intros z Hz.
      apply (Permutation_in _ (insert_perm x l)) in Hz.
      destruct Hz as [<-|Hz]; [exact Hxy|now apply Hy].
Qed.

Lemma insertionSort_sorted l :
  StronglySorted (fun a b => less b a = false)
                 (Unix.insertionSort less l).
Proof.
  induction l as [|x l IH]; simpl; [constructor|].
  now apply insert_sorted.
Qed.
End Sort.

#[export] Instance laws : GoLibLaws Unix.lib.
Proof.
  split.
  - intros A less l. apply insertionSort_perm.
  - intros A less l Hsw. now apply insertionSort_sorted.
Qed.

End UnixFacts.

(* ===================================================================== *)
(** ** The scanner *)
(* ===================================================================== *)

Section ScanFacts.

Context {lib : GoLib}.

Lemma sumSizes_app l1 l2 : sumSizes (l1 ++ l2) = sumSizes l1 + sumSizes l2.
Proof. induction l1 as [|c l1 IH]; simpl; lia. Qed.

Lemma sumSizes_perm l1 l2 : Permutation l1 l2 -> sumSizes l1 = sumSizes l2.
Proof. induction 1; simpl; lia. Qed.

Lemma sumSizes_map (f : DirEntry -> DirEntry) l :
  (forall c, Size (f c) = Size c) -> sumSizes (map f l) = sumSizes l.
Proof. intros Hf. induction l as [|c l IH]; simpl; [|rewrite Hf]; lia. Qed.


Lemma scanLoop_cons path level showFiles e rest acc :
  scanLoop path level showFiles (e :: rest) acc
  = scanLoop path level showFiles rest (scanStep path level showFiles acc e).
Proof. reflexivity. Qed.

Lemma undisplayed_cons showFiles e rest :
  undisplayed showFiles (e :: rest)
  = undisplayed showFiles [e] + undisplayed showFiles rest.
Proof.
  unfold undisplayed. destruct showFiles; [reflexivity|].
  destruct e as [name [[sz|es]|]]; simpl; try lia.
  destruct (isHidden name); simpl; lia.
Qed.

Lemma countedDirNames_cons e rest :
  countedDirNames (e :: rest) = countedDirNames [e] ++ countedDirNames rest.
Proof.
  destruct e as [name [[sz|es]|]]; simpl; try reflexivity.
  now destruct (isHidden name).
Qed.

Lemma countedFileNames_cons e rest :
  countedFileNames (e :: rest)
  = countedFileNames [e] ++ countedFileNames rest.
Proof.
  destruct e as [name [[sz|es]|]]; simpl; try reflexivity.
  now destruct (isHidden name).
Qed.

Lemma countedFileSizes_cons e rest :
  countedFileSizes (e :: rest)
  = countedFileSizes [e] ++ countedFileSizes rest.
Proof.
  destruct e as [name [[sz|es]|]]; simpl; try reflexivity.
  now destruct (isHidden name).
Qed.


Lemma stepSpec_nil path level showFiles acc :
  Int64.in_range (totalSize acc) ->
  stepSpec path level showFiles [] acc acc.
Proof.
  intros Hacc. exists [], []. simpl. rewrite !app_nil_r.
  repeat split; try constructor; try (now destruct showFiles).
  replace (undisplayed showFiles []) with 0
    by (unfold undisplayed; now destruct showFiles).
  rewrite !Z.add_0_r. symmetry. now apply Int64Facts.wrap_small.
Qed.

Lemma scanStep_spec path level showFiles acc e :
  Int64.in_range (totalSize acc) ->
  stepSpec path level showFiles [e] acc
           (scanStep path level showFiles acc e).
Proof.
  intros Hacc. destruct e as [name info]. unfold scanStep.
  destruct (isHidden name) eqn:Hhid.
  { replace (stepSpec path level showFiles [(name, info)])
      with (stepSpec path level showFiles []).
    - now apply stepSpec_nil.
    - unfold stepSpec, undisplayed. simpl.
      destruct info as [[sz|es]|]; now rewrite ?Hhid. }
  destruct info as [[sz|es]|].
  - destruct showFiles.
    + exists [], [mkDirEntry name (filepath_Join path name) sz
                           Float64.zero [] false (Int64.add level 1)
                           (Some path)].
      simpl. rewrite Hhid, app_nil_r. unfold undisplayed, Int64.add.
      repeat split; try constructor; try constructor; try reflexivity.
      f_equal; lia.
    + exists [], []. unfold undisplayed, Int64.add. simpl.
      rewrite Hhid, !app_nil_r. simpl.
      repeat split; try constructor. f_equal; lia.
  - destruct (getCachedSize (filepath_Join path name) (FsDir es)
                            (cache acc)) as [childSize st] eqn:Hget.
    exists [mkDirEntry name (filepath_Join path name) childSize
                       Float64.zero [] true (Int64.add level 1)
                       (Some path)], [].
    simpl. rewrite Hhid, app_nil_r. unfold Int64.add.
    replace (undisplayed showFiles [(name, Some (FsDir es))]) with 0
      by (unfold undisplayed; now destruct showFiles).
    repeat split; try constructor; try constructor; try reflexivity;
      try (now destruct showFiles).
    f_equal; lia.
  - replace (stepSpec path level showFiles [(name, None)])
      with (stepSpec path level showFiles []).
    + now apply stepSpec_nil.
    + unfold stepSpec, undisplayed. now simpl.
Qed.

Lemma stepSpec_trans path level showFiles e rest acc acc1 acc2 :
  stepSpec path level showFiles [e] acc acc1 ->
  stepSpec path level showFiles rest acc1 acc2 ->
  stepSpec path level showFiles (e :: rest) acc acc2.
Proof.
  intros (d1 & f1 & Hd1 & Hf1 & Ht1 & Hfd1 & Hff1 & Hn1 & Hm1 & Hs1)
         (d2 & f2 & Hd2 & Hf2 & Ht2 & Hfd2 & Hff2 & Hn2 & Hm2 & Hs2).
  exists (d1 ++ d2), (f1 ++ f2).
  rewrite Hd2, Hd1, Hf2, Hf1, Ht2, Ht1, <- !app_assoc.
  rewrite !map_app, Hn1, Hn2, Hm1, Hm2, Hs1, Hs2, !sumSizes_app.
  rewrite (undisplayed_cons showFiles e rest).
  rewrite (countedDirNames_cons e rest), (countedFileNames_cons e rest).
  rewrite (countedFileSizes_cons e rest).
  repeat split;
    try (apply Forall_app; now split); try (now destruct showFiles).
  rewrite <- !Z.add_assoc, Int64Facts.wrap_add_l. f_equal. lia.
Qed.

Lemma scanStep_range path level showFiles acc e :
  Int64.in_range (totalSize acc) ->
  Int64.in_range (totalSize (scanStep path level showFiles acc e)).
Proof.
  intros Hacc.
  destruct (scanStep_spec path level showFiles acc e Hacc)
    as (ds & fs & _ & _ & -> & _).
  apply Int64Facts.wrap_range.
Qed.

(** What the loop adds to its accumulators. *)
Lemma scanLoop_spec path level showFiles entries : forall acc,
  Int64.in_range (totalSize acc) ->
  stepSpec path level showFiles entries acc
           (scanLoop path level showFiles entries acc).
Proof.
  induction entries as [|e rest IH]; intros acc Hacc.
  - now apply stepSpec_nil.
  - rewrite scanLoop_cons.
    eapply stepSpec_trans; [now apply scanStep_spec|].
    apply IH. now apply scanStep_range.
Qed.

Lemma scanLoop_hidden path level showFiles entries : forall acc,
  scanLoop path level showFiles (List.filter notHidden entries) acc
  = scanLoop path level showFiles entries acc.
Proof.
  induction entries as [|[name info] rest IH]; intros acc; [reflexivity|].
  rewrite scanLoop_cons. simpl List.filter. unfold notHidden at 1.
  simpl fst. destruct (isHidden name) eqn:Hhid; simpl negb; cbv iota.
  - rewrite IH. unfold scanStep. now rewrite Hhid.
  - now rewrite scanLoop_cons, IH.
Qed.

Lemma bySizeDesc_strictWeak : StrictWeak bySizeDesc.
Proof. split; unfold bySizeDesc; intros; lia. Qed.

Lemma assignPercentages_app total l1 l2 :
  assignPercentages total (l1 ++ l2)
  = assignPercentages total l1 ++ assignPercentages total l2.
Proof.
  unfold assignPercentages. destruct (total >? 0); [apply map_app|easy].
Qed.

Lemma assignPercentages_sumSizes total l :
  sumSizes (assignPercentages total l) = sumSizes l.
Proof.
  unfold assignPercentages. destruct (total >? 0); [|reflexivity].
  now apply sumSizes_map.
Qed.

Lemma assignPercentages_map {B} (f : DirEntry -> B) total l :
  (forall p c, f (setPercent p c) = f c) ->
  map f (assignPercentages total l) = map f l.
Proof.
  intros Hf. unfold assignPercentages. destruct (total >? 0); [|easy].
  rewrite map_map. apply map_ext. intros c. apply Hf.
Qed.

Lemma sizeDesc_of_sorted l :
  StronglySorted (fun a b => bySizeDesc b a = false) l -> sizeDesc l.
Proof.
  unfold sizeDesc, bySizeDesc.
  induction 1 as [|a l Hl IH Ha]; constructor; [exact IH|].
  eapply List.Forall_impl; [|exact Ha]. simpl. intros b Hb. lia.
Qed.

Lemma sizeDesc_assignPercentages total l :
  sizeDesc l -> sizeDesc (assignPercentages total l).
Proof.
  unfold assignPercentages. destruct (total >? 0); [|easy].
  unfold sizeDesc.
  induction 1 as [|a l Hl IH Ha]; simpl; constructor; [exact IH|].
  rewrite List.Forall_forall in *. intros b Hb.
  apply in_map_iff in Hb as (c & <- & Hc). simpl. now apply Ha.
Qed.

(** The shape of the result on a readable directory. *)
Lemma scan_dir path entries parentDir level showFiles st :
  let acc := scanLoop path level showFiles entries (mkScanAcc 0 [] [] st) in
  scanDirectoryWithCache path (Some (FsDir (Some entries))) parentDir level
                         showFiles st
  = (inr (mkDirEntry (filepath_Base path) path (totalSize acc)
                     Float64.zero
                     (assignPercentages (totalSize acc)
                        (sort_Slice bySizeDesc (directories acc)
                         ++ sort_Slice bySizeDesc (files acc)))
                     true level parentDir),
     cache acc).
Proof. reflexivity. Qed.

Lemma zero_in_range : Int64.in_range 0.
Proof. unfold Int64.in_range, Int64.min_int, Int64.max_int. lia. Qed.

End ScanFacts.

(* ===================================================================== *)
(** ** The size cache *)
(* ===================================================================== *)

Section CacheFacts.

Context {lib : GoLib}.


Lemma getCachedSize_hit path n st size :
  sizeCache st !! path = Some size ->
  getCachedSize path n st = (size, st).
Proof. unfold getCachedSize. now intros ->. Qed.

Lemma getCachedSize_miss path n st :
  sizeCache st !! path = None ->
  getCachedSize path n st
  = (calculateFullDirSize path n,
     mkCacheState (<[path := calculateFullDirSize path n]> (sizeCache st))
                  (EvStore path :: EvTraverse path :: events st)).
Proof. unfold getCachedSize. now intros ->. Qed.

(** After a call the path is cached with the value returned. *)
Lemma getCachedSize_cached path n st :
  sizeCache (snd (getCachedSize path n st)) !! path
  = Some (fst (getCachedSize path n st)).
Proof.
  destruct (sizeCache st !! path) as [size|] eqn:Hl.
  - now rewrite (getCachedSize_hit _ _ _ _ Hl).
  - rewrite (getCachedSize_miss _ _ _ Hl). simpl.
    apply lookup_insert_eq.
Qed.

Lemma getCachedSize_grows path n st :
  sizeCache st ⊆ sizeCache (snd (getCachedSize path n st)).
Proof.
  destruct (sizeCache st !! path) as [size|] eqn:Hl.
  - now rewrite (getCachedSize_hit _ _ _ _ Hl).
  - rewrite (getCachedSize_miss _ _ _ Hl). simpl.
    now apply insert_subseteq.
Qed.

Lemma getCachedSize_logAgrees path n st :
  logAgrees st -> logAgrees (snd (getCachedSize path n st)).
Proof.
  intros Hst.
  destruct (sizeCache st !! path) as [size|] eqn:Hl.
  - now rewrite (getCachedSize_hit _ _ _ _ Hl).
  - rewrite (getCachedSize_miss _ _ _ Hl). simpl. intros p.
    destruct (Hst p) as (Hs & Ht & Hnone).
    unfold storesOf, traversalsOf in *. simpl.
    destruct (String.eqb p path) eqn:Hp.
    + apply String.eqb_eq in Hp. subst p. simpl.
      destruct (Hnone Hl) as [Hs0 Ht0]. rewrite Hs0, Ht0.
      rewrite lookup_insert_eq. repeat split; auto; discriminate.
    + apply String.eqb_neq in Hp.
      rewrite lookup_insert_ne by congruence. tauto.
Qed.

(** A property of the cache that every call of [getCachedSize] keeps is
    kept by the scanner. *)
Section Closed.
Variable P : CacheState -> Prop.
Hypothesis Hget : forall path n st,
    P st -> P (snd (getCachedSize path n st)).

Lemma scanStep_keeps path level showFiles acc e :
  P (cache acc) -> P (cache (scanStep path level showFiles acc e)).
Proof.
  intros Hacc. destruct e as [name [[sz|es]|]]; unfold scanStep;
    destruct (isHidden name); try exact Hacc.
  - now destruct showFiles.
  - specialize (Hget (filepath_Join path name) (FsDir es) (cache acc)
                     Hacc).
    now destruct (getCachedSize _ _ _).
Qed.

Lemma scanLoop_keeps path level showFiles entries : forall acc,
  P (cache acc) -> P (cache (scanLoop path level showFiles entries acc)).
Proof.
  induction entries as [|e rest IH]; intros acc Hacc; [exact Hacc|].
  rewrite scanLoop_cons. now apply IH, scanStep_keeps.
Qed.

Lemma scan_keeps path stat parentDir level showFiles st :
  P st ->
  P (snd (scanDirectoryWithCache path stat parentDir level showFiles st)).
Proof.
  intros Hst. destruct stat as [[sz|[entries|]]|]; try exact Hst.
  rewrite scan_dir. simpl. now apply scanLoop_keeps.
Qed.

Lemma runOps_keeps ops : forall st, P st -> P (runOps ops st).
Proof.
  induction ops as [|op ops IH]; intros st Hst; [exact Hst|].
  simpl. apply IH. destruct op; simpl; [now apply Hget|].
  now apply scan_keeps.
Qed.
End Closed.

Lemma cachedIn_grows st st' c :
  sizeCache st ⊆ sizeCache st' -> cachedIn st c -> cachedIn st' c.
Proof. unfold cachedIn. intros Hsub Hc. now apply (lookup_weaken _ _ _ _ Hc). Qed.

(** Every directory the loop has listed is in the cache with its size. *)
Lemma scanStep_dirs_cached path level showFiles acc e :
  Forall (cachedIn (cache acc)) (directories acc) ->
  Forall (cachedIn (cache (scanStep path level showFiles acc e)))
         (directories (scanStep path level showFiles acc e)).
Proof.
  intros Hacc. destruct e as [name [[sz|es]|]]; unfold scanStep;
    destruct (isHidden name); try exact Hacc.
  - now destruct showFiles.
  - pose proof (getCachedSize_cached (filepath_Join path name) (FsDir es)
                                     (cache acc)) as Hnew.
    pose proof (getCachedSize_grows (filepath_Join path name) (FsDir es)
                                    (cache acc)) as Hsub.
    destruct (getCachedSize _ _ _) as [childSize st1]. simpl in *.
    apply Forall_app. split.
    + eapply List.Forall_impl; [|exact Hacc].
      intros c. now apply cachedIn_grows.
    + repeat constructor. exact Hnew.
Qed.

Lemma scanLoop_dirs_cached path level showFiles entries : forall acc,
  Forall (cachedIn (cache acc)) (directories acc) ->
  Forall (cachedIn (cache (scanLoop path level showFiles entries acc)))
         (directories (scanLoop path level showFiles entries acc)).
Proof.
  induction entries as [|e rest IH]; intros acc Hacc; [exact Hacc|].
  rewrite scanLoop_cons. now apply IH, scanStep_dirs_cached.
Qed.

Lemma logAgrees_empty : logAgrees emptyCache.
Proof. intros p. cbn. repeat split; auto. Qed.

(** X17: for calls that run one after the other, a second
    [getCachedSize] of a path returns what the first did and does
    nothing else, whatever the file system has become: no traversal, no
    store.  Over any sequence of such calls and scans from the empty
    cache the entry of a path is written at most once and a traversal
    starts there at most once, and an entry once present keeps its
    value. *)
Theorem getCachedSize_memo :
  (forall path n n' st,
      getCachedSize path n' (snd (getCachedSize path n st))
      = getCachedSize path n st)
  /\ (forall path n st,
         (traversalsOf path (snd (getCachedSize path n st))
          <= S (traversalsOf path st))%nat)
  /\ (forall ops path,
         (storesOf path (runOps ops emptyCache) <= 1)%nat
         /\ (traversalsOf path (runOps ops emptyCache) <= 1)%nat)
  /\ (forall ops st, sizeCache st ⊆ sizeCache (runOps ops st)).
Proof.
  repeat split.
  - intros path n n' st.
    rewrite (getCachedSize_hit _ _ _ _ (getCachedSize_cached path n st)).
    now destruct (getCachedSize path n st).
  - intros path n st. unfold getCachedSize, traversalsOf.
    destruct (sizeCache st !! path); simpl; [lia|].
    rewrite String.eqb_refl. simpl. lia.
  - apply (runOps_keeps logAgrees getCachedSize_logAgrees ops emptyCache
             logAgrees_empty).
  - apply (runOps_keeps logAgrees getCachedSize_logAgrees ops emptyCache
             logAgrees_empty).
  - intros ops st.
    apply (runOps_keeps (fun st' => sizeCache st ⊆ sizeCache st')); [|easy].
    intros path n st' Hst'. etransitivity; [exact Hst'|].
    apply getCachedSize_grows.
Qed.

End CacheFacts.

(* ===================================================================== *)
(** ** Two loads at one time *)
(* ===================================================================== *)

Section RaceFacts.

Context {lib : GoLib}.

(** A call that runs alone does what [getCachedSize] says. *)
Lemma getCachedSize_alone path n st :
  runSchedule [0; 0; 0]%nat [mkGetCall path n AtLookup] st
  = ([mkGetCall path n (Returned (fst (getCachedSize path n st)))],
     snd (getCachedSize path n st)).
Proof.
  unfold getCachedSize. cbn [runSchedule nth_error getStep callPc callPath].
  destruct (sizeCache st !! path) as [size|] eqn:Hl; reflexivity.
Qed.

(** Two calls for one path, both past the lookup before either stores:
    both traverse, both store, and the second store replaces what the
    first wrote. *)
Lemma getCachedSize_race path n n' st :
  sizeCache st !! path = None ->
  exists st',
    runSchedule [0; 1; 0; 0; 1; 1]%nat
                [mkGetCall path n AtLookup; mkGetCall path n' AtLookup] st
    = ([mkGetCall path n (Returned (calculateFullDirSize path n));
        mkGetCall path n' (Returned (calculateFullDirSize path n'))], st')
    /\ storesOf path st' = S (S (storesOf path st))
    /\ traversalsOf path st' = S (S (traversalsOf path st))
    /\ sizeCache st' !! path = Some (calculateFullDirSize path n').
Proof.
  intros Hmiss. eexists.
  cbn [runSchedule nth_error getStep callPc callPath callNode].
  rewrite Hmiss.
  cbn [runSchedule nth_error getStep callPc callPath callNode list_insert
       insert].
  rewrite Hmiss. cbn. split; [reflexivity|].
  unfold storesOf, traversalsOf. cbn.
  rewrite !String.eqb_refl. cbn.
  repeat split. apply lookup_insert_eq.
Qed.

(** A load request is accepted while a load is running, and starts a
    second load. *)
Lemma load_accepted_while_loading (m : Model) (p p' : string) :
  Update (withLoading m true p) (LoadingMsg p')
  = Some (withLoading m true p', CmdLoadDirectory p' (ShowFiles m)).
Proof. reflexivity. Qed.

End RaceFacts.


(** Two groups, one after the other, each in descending order. *)
Section Grouped.

Variables ds fs : list DirEntry.
Hypothesis Hds : Forall (fun c => IsDir c = true) ds.
Hypothesis Hfs : Forall (fun c => IsDir c = false) fs.

Lemma grouped_dirs_first i j a b :
  (i < j)%nat ->
  nth_error (ds ++ fs) i = Some a -> nth_error (ds ++ fs) j = Some b ->
  IsDir b = true -> IsDir a = true.
Proof.
  intros Hij Ha Hb Hdir.
  destruct (Nat.lt_ge_cases i (length ds)) as [Hi|Hi].
  - rewrite nth_error_app1 in Ha by exact Hi.
    apply nth_error_In in Ha.
    rewrite List.Forall_forall in Hds. now apply Hds.
  - rewrite nth_error_app2 in Hb by lia.
    apply nth_error_In in Hb.
    rewrite List.Forall_forall in Hfs. apply Hfs in Hb. congruence.
Qed.

Lemma sizeDesc_adjacent l i a b :
  sizeDesc l ->
  nth_error l i = Some a -> nth_error l (S i) = Some b -> Size a >= Size b.
Proof.
  unfold sizeDesc. intros Hl. revert i.
  induction Hl as [|c l Hl IH Hc]; intros i Ha Hb.
  - now destruct i.
  - destruct i as [|i].
    + injection Ha as <-. change (nth_error l 0 = Some b) in Hb.
      apply nth_error_In in Hb.
      rewrite List.Forall_forall in Hc. now apply Hc.
    + now apply (IH i).
Qed.

Lemma grouped_adjacent i a b :
  sizeDesc ds -> sizeDesc fs ->
  nth_error (ds ++ fs) i = Some a -> nth_error (ds ++ fs) (S i) = Some b ->
  IsDir a = IsDir b -> Size a >= Size b.
Proof.
  intros Sd Sf Ha Hb Hsame.
  destruct (Nat.lt_ge_cases (S i) (length ds)) as [Hi|Hi].
  - rewrite nth_error_app1 in Ha, Hb by lia.
    now apply (sizeDesc_adjacent ds i).
  - destruct (Nat.lt_ge_cases i (length ds)) as [Hi'|Hi'].
    + rewrite nth_error_app1 in Ha by lia.
      rewrite nth_error_app2 in Hb by lia.
      apply nth_error_In in Ha, Hb.
      rewrite List.Forall_forall in Hds, Hfs.
      apply Hds in Ha. apply Hfs in Hb. congruence.
    + rewrite nth_error_app2 in Ha, Hb by lia.
      replace (S i - length ds)%nat with (S (i - length ds)) in Hb by lia.
      now apply (sizeDesc_adjacent fs (i - length ds)).
Qed.

End Grouped.

Section ScanTheorems.

Context {lib : GoLib} {laws : GoLibLaws lib}.

Lemma counted_not_hidden entries name :
  In name (countedDirNames entries ++ countedFileNames entries) ->
  isHidden name = false.
Proof.
  rewrite in_app_iff.
  induction entries as [|[n [[sz|es]|]] rest IH]; simpl; try tauto.
  - destruct (isHidden n) eqn:Hn; simpl; [tauto|].
    intros [H|[H|H]]; subst; auto.
  - destruct (isHidden n) eqn:Hn; simpl; [tauto|].
    intros [[H|H]|H]; subst; auto.
Qed.

Lemma forall_fresh_perm path level isDir l l' :
  Permutation l' l ->
  Forall (freshChild path level isDir) l ->
  Forall (freshChild path level isDir) l'.
Proof.
  intros Hp Hl. rewrite List.Forall_forall in *.
  intros c Hc. apply Hl. now apply (Permutation_in _ Hp).
Qed.

(** The total of the loop is the 64-bit sum of what it lists. *)
Lemma scan_total path level showFiles entries st :
  let acc := scanLoop path level showFiles entries (mkScanAcc 0 [] [] st) in
  totalSize acc
  = Int64.wrap (sumSizes (assignPercentages (totalSize acc)
                            (sort_Slice bySizeDesc (directories acc)
                             ++ sort_Slice bySizeDesc (files acc)))
                + undisplayed showFiles entries).
Proof.
  intros acc.
  destruct (scanLoop_spec path level showFiles entries
              (mkScanAcc 0 [] [] st) zero_in_range)
    as (ds & fs & Hd & Hf & Ht & _).
  simpl in Hd, Hf, Ht. fold acc in Hd, Hf, Ht.
  rewrite assignPercentages_sumSizes, sumSizes_app.
  rewrite (sumSizes_perm _ _ (sort_Slice_perm _ bySizeDesc _)).
  rewrite (sumSizes_perm _ _ (sort_Slice_perm _ bySizeDesc (files acc))).
  rewrite Hd, Hf, Ht; f_equal; lia.
Qed.

(** No child of a scan has a hidden name. *)
Lemma scan_children_visible path level showFiles entries st :
  let acc := scanLoop path level showFiles entries (mkScanAcc 0 [] [] st) in
  Forall (fun c => isHidden (Name c) = false)
         (assignPercentages (totalSize acc)
            (sort_Slice bySizeDesc (directories acc)
             ++ sort_Slice bySizeDesc (files acc))).
Proof.
  intros acc.
  destruct (scanLoop_spec path level showFiles entries
              (mkScanAcc 0 [] [] st) zero_in_range)
    as (ds & fs & Hd & Hf & _ & _ & _ & Hn & Hm & _).
  simpl in Hd, Hf. fold acc in Hd, Hf.
  rewrite List.Forall_forall. intros c Hc.
  apply (in_map Name) in Hc.
  rewrite assignPercentages_map in Hc by reflexivity.
  rewrite map_app in Hc.
  apply (counted_not_hidden entries).
  rewrite in_app_iff in *. rewrite <- Hn.
  destruct Hc as [Hc|Hc].
  - left. rewrite Hd in Hc.
    eapply Permutation_in; [|exact Hc].
    apply Permutation_map. apply sort_Slice_perm.
  - right. rewrite Hf in Hc.
    assert (Hc' : In (Name c) (map Name fs)).
    { eapply Permutation_in; [|exact Hc].
      apply Permutation_map. apply sort_Slice_perm. }
    rewrite Hm in Hc'. now destruct showFiles.
Qed.

Lemma counted_dir_origin entries name :
  In name (countedDirNames entries) ->
  exists es, In (name, Some (FsDir es)) entries.
Proof.
  induction entries as [|[n [[sz|es]|]] rest IH]; simpl; try tauto;
    try (intros H; destruct (IH H) as [es' Hes]; exists es'; now right).
  destruct (isHidden n).
  - intros H; destruct (IH H) as [es' Hes]; exists es'; now right.
  - intros [<-|H]; [exists es; now left|].
    destruct (IH H) as [es' Hes]; exists es'; now right.
Qed.

Lemma counted_file_origin entries name sz :
  In (name, sz) (combine (countedFileNames entries)
                         (countedFileSizes entries)) ->
  In (name, Some (FsFile sz)) entries.
Proof.
  induction entries as [|[n [[z|es]|]] rest IH]; simpl; try tauto;
    try (intros H; right; now apply IH).
  destruct (isHidden n); simpl.
  - intros H; right; now apply IH.
  - intros [[= <- <-]|H]; [now left|right; now apply IH].
Qed.

Lemma in_combine_map {A B C} (f : A -> B) (g : A -> C) (l : list A) c :
  In c l -> In (f c, g c) (combine (map f l) (map g l)).
Proof.
  induction l as [|d l IH]; simpl; [easy|].
  intros [->|H]; [now left|right; now apply IH].
Qed.

Lemma assignPercentages_in total l c :
  In c (assignPercentages total l) ->
  exists c0, In c0 l /\ Name c = Name c0 /\ Path c = Path c0
             /\ Size c = Size c0 /\ IsDir c = IsDir c0.
Proof.
  unfold assignPercentages. destruct (total >? 0).
  - intros Hc. apply in_map_iff in Hc as (c0 & <- & Hc0).
    exists c0. now repeat split.
  - intros Hc. exists c. now repeat split.
Qed.

Lemma scan_children_origin path level showFiles entries st :
  let acc := scanLoop path level showFiles entries (mkScanAcc 0 [] [] st) in
  Forall (childOrigin entries (cache acc))
         (assignPercentages (totalSize acc)
            (sort_Slice bySizeDesc (directories acc)
             ++ sort_Slice bySizeDesc (files acc))).
Proof.
  intros acc.
  destruct (scanLoop_spec path level showFiles entries
              (mkScanAcc 0 [] [] st) zero_in_range)
    as (ds & fs & Hd & Hf & _ & Hfd & Hff & Hn & Hm & Hs).
  simpl in Hd, Hf. fold acc in Hd, Hf.
  pose proof (scanLoop_dirs_cached path level showFiles entries
                (mkScanAcc 0 [] [] st) (List.Forall_nil _)) as Hcached.
  fold acc in Hcached.
  rewrite List.Forall_forall in *. intros c Hc.
  apply assignPercentages_in in Hc
    as (c0 & Hc0 & Hname & Hpath & Hsize & Hdir).
  unfold childOrigin, cachedIn. rewrite Hdir, Hname, Hpath, Hsize.
  apply in_app_iff in Hc0 as [Hc0|Hc0];
    apply (Permutation_in _ (sort_Slice_perm _ bySizeDesc _)) in Hc0.
  - rewrite (fc_isDir _ _ _ _ (Hfd c0 ltac:(now rewrite <- Hd))).
    split; [|now apply Hcached].
    apply counted_dir_origin. rewrite <- Hn, <- Hd. now apply in_map.
  - rewrite Hf in Hc0. rewrite (fc_isDir _ _ _ _ (Hff c0 Hc0)).
    apply counted_file_origin.
    destruct showFiles.
    + rewrite <- Hm, <- Hs. now apply in_combine_map.
    + destruct fs; [easy|discriminate].
Qed.

(** C1: the size of a scanned directory is the 64-bit sum of the sizes
    of its children and of the counted files that are not displayed (the
    exact sum whenever that fits in an [int64]); a directory child has
    the size the cache holds for it and a file child the size of its
    [Info()]; hidden entries take no part: no child is hidden and
    dropping them from the listing changes nothing. *)
Theorem scan_size_is_sum path entries parentDir level showFiles st :
  exists r st',
    scanDirectoryWithCache path (Some (FsDir (Some entries))) parentDir
                           level showFiles st = (inr r, st')
    /\ IsDir r = true
    /\ Size r = Int64.wrap (sumSizes (Children r)
                            + undisplayed showFiles entries)
    /\ (Int64.in_range (sumSizes (Children r)
                        + undisplayed showFiles entries) ->
        Size r = sumSizes (Children r) + undisplayed showFiles entries)
    /\ Forall (childOrigin entries st') (Children r)
    /\ Forall (fun c => isHidden (Name c) = false) (Children r)
    /\ scanDirectoryWithCache path
         (Some (FsDir (Some (List.filter notHidden entries)))) parentDir
         level showFiles st = (inr r, st').
Proof.
  rewrite !scan_dir, scanLoop_hidden. cbv zeta.
  eexists _, _. split; [reflexivity|]. cbn [IsDir Size Children].
  pose proof (scan_total path level showFiles entries st) as Htot.
  cbv zeta in Htot.
  split; [reflexivity|]. split; [exact Htot|]. split.
  - intros Hfit. rewrite Htot at 1. now apply Int64Facts.wrap_small.
  - split; [apply scan_children_origin|].
    split; [apply scan_children_visible|reflexivity].
Qed.

Lemma forall_isDir_assign total (b : bool) l :
  Forall (fun c => IsDir c = b) l ->
  Forall (fun c => IsDir c = b) (assignPercentages total l).
Proof.
  unfold assignPercentages. destruct (total >? 0); [|easy].
  intros Hl. rewrite List.Forall_forall in *. intros c Hc.
  apply in_map_iff in Hc as (d & <- & Hd). simpl. now apply Hl.
Qed.

(** C3: the children of a scanned directory are its sub-directories
    followed by its files, each group in descending order of size: a
    child next to one of its own group is at least as large, and no
    file comes before a directory. *)
Theorem scan_children_order path entries parentDir level showFiles st :
  exists r st' ds fs,
    scanDirectoryWithCache path (Some (FsDir (Some entries))) parentDir
                           level showFiles st = (inr r, st')
    /\ Children r = ds ++ fs
    /\ Forall (fun c => IsDir c = true) ds
    /\ Forall (fun c => IsDir c = false) fs
    /\ sizeDesc ds /\ sizeDesc fs
    /\ Permutation (map Name ds) (countedDirNames entries)
    /\ Permutation (map Name fs)
                   (if showFiles then countedFileNames entries else [])
    /\ (forall i a b,
           nth_error (Children r) i = Some a ->
           nth_error (Children r) (S i) = Some b ->
           IsDir a = IsDir b -> Size a >= Size b)
    /\ (forall i j a b,
           (i < j)%nat ->
           nth_error (Children r) i = Some a ->
           nth_error (Children r) j = Some b ->
           IsDir b = true -> IsDir a = true).
Proof.
  rewrite scan_dir. cbv zeta.
  destruct (scanLoop_spec path level showFiles entries
              (mkScanAcc 0 [] [] st) zero_in_range)
    as (ds & fs & Hd & Hf & Ht & Hfd & Hff & Hn & Hm & Hs).
  simpl in Hd, Hf.
  set (acc := scanLoop path level showFiles entries (mkScanAcc 0 [] [] st))
    in *.
  set (ds' := assignPercentages (totalSize acc)
                (sort_Slice bySizeDesc (directories acc))).
  set (fs' := assignPercentages (totalSize acc)
                (sort_Slice bySizeDesc (files acc))).
  assert (Hds : Forall (fun c => IsDir c = true) ds').
  { apply forall_isDir_assign.
    rewrite Hd.
    eapply List.Forall_impl;
      [|apply (forall_fresh_perm path level true ds _
                 (sort_Slice_perm _ bySizeDesc _) Hfd)].
    intros c Hc. apply Hc. }
  assert (Hfs : Forall (fun c => IsDir c = false) fs').
  { apply forall_isDir_assign.
    rewrite Hf.
    eapply List.Forall_impl;
      [|apply (forall_fresh_perm path level false fs _
                 (sort_Slice_perm _ bySizeDesc _) Hff)].
    intros c Hc. apply Hc. }
  assert (Sd : sizeDesc ds').
  { apply sizeDesc_assignPercentages, sizeDesc_of_sorted.
    apply sort_Slice_sorted, bySizeDesc_strictWeak. }
  assert (Sf : sizeDesc fs').
  { apply sizeDesc_assignPercentages, sizeDesc_of_sorted.
    apply sort_Slice_sorted, bySizeDesc_strictWeak. }
  exists (mkDirEntry (filepath_Base path) path (totalSize acc) Float64.zero
                     (ds' ++ fs') true level parentDir), (cache acc),
         ds', fs'.
  split; [unfold ds', fs'; now rewrite <- assignPercentages_app|]. simpl.
  repeat split; auto.
  - unfold ds'. rewrite assignPercentages_map by reflexivity.
    rewrite <- Hn, <- Hd. apply Permutation_map, sort_Slice_perm.
  - unfold fs'. rewrite assignPercentages_map by reflexivity.
    rewrite <- Hm, <- Hf. apply Permutation_map, sort_Slice_perm.
  - intros i a b. now apply grouped_adjacent.
  - intros i j a b. now apply grouped_dirs_first.
Qed.

(** Every child of a scan is one level below the scanned directory. *)
Lemma scan_children_level path entries parentDir level showFiles st :
  exists r st',
    scanDirectoryWithCache path (Some (FsDir (Some entries))) parentDir
                           level showFiles st = (inr r, st')
    /\ Level r = level
    /\ Path r = path
    /\ Forall (fun c => Level c = Int64.add level 1
                        /\ isHidden (Name c) = false)
              (Children r).
Proof.
  pose proof (scan_children_visible path level showFiles entries st) as Hhid.
  cbv zeta in Hhid.
  rewrite scan_dir. cbv zeta. eexists _, _. split; [reflexivity|].
  simpl.
  destruct (scanLoop_spec path level showFiles entries
              (mkScanAcc 0 [] [] st) zero_in_range)
    as (ds & fs & Hd & Hf & Ht & Hfd & Hff & Hn & Hm & Hs).
  simpl in Hd, Hf.
  repeat split.
  rewrite List.Forall_forall in *. intros c Hc.
  split; [|now apply Hhid].
  assert (Hm' := assignPercentages_map Level (totalSize
    (scanLoop path level showFiles entries (mkScanAcc 0 [] [] st)))).
  apply (in_map Level) in Hc. rewrite Hm' in Hc by reflexivity.
  apply in_map_iff in Hc as (d & <- & Hc).
  apply in_app_iff in Hc as [Hc|Hc].
  - apply (Permutation_in _ (sort_Slice_perm _ bySizeDesc _)) in Hc.
    rewrite Hd in Hc. now apply Hfd.
  - apply (Permutation_in _ (sort_Slice_perm _ bySizeDesc _)) in Hc.
    rewrite Hf in Hc. now apply Hff.
Qed.

End ScanTheorems.

(** The scan of the sample directory, files not displayed: 300 and 100
    bytes in the two sub-directories, 200 bytes in the two files. *)
Lemma scan_size_is_sum_witness :
  exists r st',
    scanDirectoryWithCache (lib := Unix.lib) "/tmp/x"
      (Some (FsDir (Some Sample.listing))) None 0 false emptyCache
    = (inr r, st')
    /\ Size r = sumSizes (Children r) + undisplayed false Sample.listing
    /\ Size r = 600.
Proof.
  destruct (scan_size_is_sum (laws := UnixFacts.laws) "/tmp/x" Sample.listing
                             None 0 false emptyCache)
    as (r & st' & Hscan & _ & _ & Hexact & _).
  exists r, st'. split; [exact Hscan|].
  vm_compute in Hscan. injection Hscan as <- <-.
  split; [|reflexivity].
  apply Hexact. vm_compute. split; discriminate.
Defined.

(** The scan of the sample directory, files displayed. *)
Lemma scan_children_order_witness :
  exists r st' ds fs,
    scanDirectoryWithCache (lib := Unix.lib) "/tmp/x"
      (Some (FsDir (Some Sample.listing))) None 0 true emptyCache
    = (inr r, st')
    /\ Children r = ds ++ fs
    /\ Forall (fun c => IsDir c = true) ds
    /\ Forall (fun c => IsDir c = false) fs
    /\ sizeDesc ds /\ sizeDesc fs
    /\ Permutation (map Name ds) (countedDirNames Sample.listing)
    /\ Permutation (map Name fs) (countedFileNames Sample.listing)
    /\ (forall i a b,
           nth_error (Children r) i = Some a ->
           nth_error (Children r) (S i) = Some b ->
           IsDir a = IsDir b -> Size a >= Size b)
    /\ (forall i j a b,
           (i < j)%nat ->
           nth_error (Children r) i = Some a ->
           nth_error (Children r) j = Some b ->
           IsDir b = true -> IsDir a = true).
Proof.
  exact (scan_children_order (laws := UnixFacts.laws) "/tmp/x" Sample.listing
                             None 0 true emptyCache).
Defined.

(* ===================================================================== *)
(** ** The model: loading and errors *)
(* ===================================================================== *)

Section LoadFacts.

Context {lib : GoLib}.

(** C9: while a load is running a key changes nothing and issues no
    command, except the quit keys, which quit. *)
Theorem loading_ignores_keys (m : Model) (key : string) :
  Loading m = true ->
  Update m (KeyMsg key)
  = Some (m, if isQuit key then CmdQuit else CmdNil).
Proof.
  intros Hl. unfold Update, isQuit. rewrite Hl.
  now destruct (String.eqb key "q" || String.eqb key "ctrl+c").
Qed.

(** Once an error is stored no message removes it, and [View] shows
    nothing else. *)
Lemma error_sticks (m : Model) (msg : Msg) (e : error) m' cmd :
  Error m = Some e ->
  Update m msg = Some (m', cmd) ->
  exists e', Error m' = Some e' /\ View m' = Some (ScreenError e').
Proof.
  intros He Hu.
  assert (Hview : forall m1 e1, Error m1 = Some e1 ->
                                View m1 = Some (ScreenError e1)).
  { intros m1 e1 H1. unfold View. now rewrite H1. }
  assert (Hens : forall m1, Error (ensureCursorVisible m1) = Error m1).
  { intros m1. unfold ensureCursorVisible.
    now destruct (len (VisibleDirs m1) =? 0). }
  destruct msg as [w h|path|dir err| |key|f s err]; simpl in Hu.
  - injection Hu as <- <-. exists e. rewrite Hens. simpl.
    split; [exact He|]. apply Hview. now rewrite Hens.
  - injection Hu as <- <-. exists e. split; [exact He|now apply Hview].
  - destruct err as [e1|].
    + injection Hu as <- <-. exists e1. split; [reflexivity|].
      now apply Hview.
    + unfold updateVisibleDirs in Hu. simpl in Hu.
      destruct dir as [root|]; [|discriminate].
      injection Hu as <- <-. exists e. rewrite Hens. simpl.
      split; [exact He|]. apply Hview. now rewrite Hens.
  - destruct (Loading m); injection Hu as <- <-; exists e;
      (split; [exact He|now apply Hview]).
  - assert (Hkey : Error m' = Some e).
    { destruct (Loading m).
      - destruct (_ || _); now injection Hu as <- <-.
      - unfold updateKey in Hu.
        repeat match type of Hu with
               | (if ?c then _ else _) = _ => destruct c
               | match ?o with Some _ => _ | None => _ end = _ =>
                   destruct o; try discriminate
               end;
          injection Hu as <- <-; rewrite ?Hens; exact He. }
    exists e. split; [exact Hkey|now apply Hview].
  - injection Hu as <- <-. exists e. split; [exact He|now apply Hview].
Qed.

End LoadFacts.

(** The sample model while loading: [j] is ignored. *)
Lemma loading_ignores_keys_witness :
  Update (lib := Unix.lib) Sample.loadingModel (KeyMsg "j")
  = Some (Sample.loadingModel, CmdNil).
Proof.
  exact (loading_ignores_keys (lib := Unix.lib) Sample.loadingModel "j"
                              eq_refl).
Defined.

(** C7, on the code: a load fails, the user asks for another directory,
    that load succeeds and the model holds the new root and its list, but
    the stored error is still there and [View] still shows it. *)
Theorem error_outlives_successful_load :
  exists m1 m2 m3,
    Update (lib := Unix.lib) Sample.loadingModel
           (LoadingCompleteMsg None (Some Sample.failure))
    = Some (m1, CmdNil)
    /\ View m1 = Some (ScreenError Sample.failure)
    /\ Update (lib := Unix.lib) m1 (KeyMsg "enter")
       = Some (m1, CmdSend (LoadingMsg "/tmp/x/d"))
    /\ Update (lib := Unix.lib) m1 (LoadingMsg "/tmp/x/d")
       = Some (m2, CmdLoadDirectory "/tmp/x/d" true)
    /\ Loading m2 = true
    /\ Update (lib := Unix.lib) m2
              (LoadingCompleteMsg (Some Sample.newRoot) None)
       = Some (m3, CmdNil)
    /\ Loading m3 = false
    /\ RootDir m3 = Some Sample.newRoot
    /\ map Name (VisibleDirs m3) = [".."; "sub"]
    /\ Error m3 = Some Sample.failure
    /\ View m3 = Some (ScreenError Sample.failure).
Proof.
  eexists _, _, _.
  split; [reflexivity|]. split; [reflexivity|].
  split; [reflexivity|]. split; [reflexivity|].
  split; [reflexivity|]. split; [reflexivity|].
  repeat split.
Qed.

(* ===================================================================== *)
(** ** The model: cursor and viewport *)
(* ===================================================================== *)

Section NavFacts.

Context {lib : GoLib}.

Lemma ensure_CursorPos m : CursorPos (ensureCursorVisible m) = CursorPos m.
Proof.
  unfold ensureCursorVisible. now destruct (len (VisibleDirs m) =? 0).
Qed.

Lemma ensure_VisibleDirs m :
  VisibleDirs (ensureCursorVisible m) = VisibleDirs m.
Proof.
  unfold ensureCursorVisible. now destruct (len (VisibleDirs m) =? 0).
Qed.

Lemma ensure_RootDir m : RootDir (ensureCursorVisible m) = RootDir m.
Proof.
  unfold ensureCursorVisible. now destruct (len (VisibleDirs m) =? 0).
Qed.

Lemma ensure_Height m : Height (ensureCursorVisible m) = Height m.
Proof.
  unfold ensureCursorVisible. now destruct (len (VisibleDirs m) =? 0).
Qed.

Lemma updateKey_pgup m :
  updateKey m "pgup"
  = Some (ensureCursorVisible
            (withCursorPos m
               (let c := Int64.sub (CursorPos m) (maxVisible m) in
                if c <? 0 then 0 else c)), CmdNil).
Proof. reflexivity. Qed.

Lemma updateKey_pgdown m :
  updateKey m "pgdown"
  = Some (ensureCursorVisible
            (withCursorPos m
               (let c := Int64.add (CursorPos m) (maxVisible m) in
                if c >=? len (VisibleDirs m)
                then Int64.sub (len (VisibleDirs m)) 1 else c)), CmdNil).
Proof. reflexivity. Qed.

Lemma len_nonneg {A} (l : list A) : 0 <= len l.
Proof. unfold len. lia. Qed.

(** C6, as the code has it: with a window of at least two rows and the
    cursor on a row of the list, a page key moves the cursor by the rows
    of the window that are left below the header, [Height - 2] of them,
    and stops at the first and at the last row. *)
Theorem page_moves_by_window_rows (m : Model) :
  Loading m = false ->
  2 <= Height m ->
  0 <= CursorPos m < len (VisibleDirs m) ->
  len (VisibleDirs m) + Height m <= 2 ^ 63 ->
  (exists m',
      Update m (KeyMsg "pgup") = Some (m', CmdNil)
      /\ CursorPos m' = Z.max 0 (CursorPos m - (Height m - 2))
      /\ VisibleDirs m' = VisibleDirs m
      /\ 0 <= CursorPos m' < len (VisibleDirs m'))
  /\ (exists m',
         Update m (KeyMsg "pgdown") = Some (m', CmdNil)
         /\ CursorPos m'
            = Z.min (len (VisibleDirs m) - 1)
                    (CursorPos m + (Height m - 2))
         /\ VisibleDirs m' = VisibleDirs m
         /\ 0 <= CursorPos m' < len (VisibleDirs m')).
Proof.
  intros Hl Hh Hc Hfit.
  assert (Hmv : maxVisible m = Height m - 2).
  { unfold maxVisible. int64_simpl. reflexivity. }
  split.
  - eexists. unfold Update. rewrite Hl, updateKey_pgup.
    split; [reflexivity|].
    rewrite ensure_CursorPos, ensure_VisibleDirs. simpl.
    rewrite Hmv. int64_simpl.
    destruct (Z.ltb_spec (CursorPos m - (Height m - 2)) 0);
      repeat split; lia.
  - eexists. unfold Update. rewrite Hl, updateKey_pgdown.
    split; [reflexivity|].
    rewrite ensure_CursorPos, ensure_VisibleDirs. simpl.
    rewrite Hmv. int64_simpl.
    destruct (Z.geb_spec (CursorPos m + (Height m - 2))
                         (len (VisibleDirs m)));
      repeat split; lia.
Qed.

(** C10: when the root has a parent, the list built from it starts
    with the parent entry: a directory named [..] at the parent path,
    of size 0 and percent 0; when it has none, the list holds children
    of the root only.  A completed load shows the same list. *)
Theorem parent_entry_first (m : Model) (root : DirEntry) :
  RootDir m = Some root ->
  let shown := List.filter (fun c => IsDir c || ShowFiles m)
                           (Children root) in
  (filepath_Dir (Path root) <> Path root ->
   exists m' p,
     updateVisibleDirs m = Some m'
     /\ VisibleDirs m' = p :: shown
     /\ index (VisibleDirs m') 0 = Some p
     /\ p = parentEntry (filepath_Dir (Path root))
     /\ IsDir p = true
     /\ Path p = filepath_Dir (Path root)
     /\ Size p = 0
     /\ Percent p = Float64.zero)
  /\ (filepath_Dir (Path root) = Path root ->
      exists m', updateVisibleDirs m = Some m' /\ VisibleDirs m' = shown)
  /\ (forall m0,
         ShowFiles m0 = ShowFiles m ->
         exists m1 m',
           updateVisibleDirs m = Some m1
           /\ Update m0 (LoadingCompleteMsg (Some root) None)
              = Some (m', CmdNil)
           /\ VisibleDirs m' = VisibleDirs m1).
Proof.
  intros Hroot shown. repeat split.
  - intros Hne. unfold updateVisibleDirs. rewrite Hroot.
    apply String.eqb_neq in Hne. rewrite Hne.
    eexists _, _. split; [reflexivity|].
    repeat split.
  - intros Heq. unfold updateVisibleDirs. rewrite Hroot.
    apply String.eqb_eq in Heq. rewrite Heq.
    eexists. split; reflexivity.
  - intros m0 Hshow. unfold Update, updateVisibleDirs. rewrite Hroot.
    cbn [RootDir withRootDir withLoading ShowFiles].
    eexists _, _. split; [reflexivity|]. split; [reflexivity|].
    rewrite ensure_VisibleDirs. cbn. now rewrite Hshow.
Qed.

Lemma len_zero {A} (l : list A) : len l = 0 <-> l = [].
Proof. unfold len. destruct l; simpl; split; intros; try easy; lia. Qed.

(** The rule of [ensureCursorVisible] on a list that is not empty: the
    scroll offset follows the cursor out of the window, then is clamped
    into [[0, max (len - maxVisible) 0]]. *)
Lemma ensure_scroll_rule m :
  VisibleDirs m <> [] ->
  Int64.in_range (Height m - 2) ->
  Int64.in_range (ScrollPos m + (Height m - 2)) ->
  Int64.in_range (CursorPos m - (Height m - 2) + 1) ->
  Int64.in_range (CursorPos m - (Height m - 2)) ->
  Int64.in_range (len (VisibleDirs m) - (Height m - 2)) ->
  let mv := Height m - 2 in
  let moved :=
    if CursorPos m <? ScrollPos m then CursorPos m
    else if CursorPos m >=? ScrollPos m + mv then CursorPos m - mv + 1
         else ScrollPos m in
  ScrollPos (ensureCursorVisible m)
  = Z.min (Z.max moved 0) (Z.max (len (VisibleDirs m) - mv) 0).
Proof.
  intros Hne H1 H2 H3 H4 H5 mv moved. unfold ensureCursorVisible.
  destruct (Z.eqb_spec (len (VisibleDirs m)) 0) as [H0|H0];
    [now apply len_zero in H0|].
  assert (Hmv : maxVisible m = mv).
  { unfold maxVisible. now rewrite Int64Facts.sub_small. }
  rewrite Hmv. unfold mv in *. cbn [ScrollPos withScrollPos].
  rewrite (Int64Facts.add_small (ScrollPos m)) by exact H2.
  rewrite (Int64Facts.sub_small (CursorPos m)) by exact H4.
  rewrite (Int64Facts.add_small _ 1) by exact H3.
  rewrite (Int64Facts.sub_small (len (VisibleDirs m))) by exact H5.
  subst moved. repeat case_cmp; lia.
Qed.

(** On a sound cursor, [ensureCursorVisible] brings the cursor row into
    the window. *)
Lemma ensure_navOK m :
  2 <= Height m < 2 ^ 62 ->
  len (VisibleDirs m) < 2 ^ 62 ->
  0 <= ScrollPos m <= len (VisibleDirs m) ->
  (VisibleDirs m <> [] -> 0 <= CursorPos m < len (VisibleDirs m)) ->
  (VisibleDirs m = [] -> -1 <= CursorPos m <= 0) ->
  navOK (ensureCursorVisible m).
Proof.
  intros Hh Hlen Hs Hc He.
  assert (Hmv : maxVisible m = Height m - 2).
  { unfold maxVisible. int64_simpl. reflexivity. }
  split; rewrite ?ensure_Height, ?ensure_VisibleDirs, ?ensure_CursorPos;
    auto.
  - unfold ensureCursorVisible.
    destruct (Z.eqb_spec (len (VisibleDirs m)) 0) as [H0|H0]; [easy|].
    rewrite <- len_zero in Hc. specialize (Hc H0).
    rewrite Hmv. simpl. int64_simpl.
    repeat case_cmp; lia.
  - unfold viewportInv.
    replace (maxVisible (ensureCursorVisible m)) with (Height m - 2)
      by (unfold maxVisible; now rewrite ensure_Height).
    rewrite ensure_VisibleDirs, ensure_CursorPos. intros Hpos Hne.
    unfold ensureCursorVisible.
    destruct (Z.eqb_spec (len (VisibleDirs m)) 0) as [H0|H0];
      [now apply len_zero in H0|].
    specialize (Hc Hne).
    rewrite Hmv. simpl. int64_simpl.
    repeat case_cmp; lia.
Qed.

Lemma len_filter_le {A} (f : A -> bool) (l : list A) :
  len (List.filter f l) <= len l.
Proof.
  unfold len. induction l as [|a l IH]; simpl; [lia|].
  destruct (f a); simpl length; lia.
Qed.

Lemma len_app {A} (l1 l2 : list A) : len (l1 ++ l2) = len l1 + len l2.
Proof. unfold len. rewrite length_app. lia. Qed.

Lemma navOK_same m m' :
  navOK m ->
  Height m' = Height m -> VisibleDirs m' = VisibleDirs m ->
  CursorPos m' = CursorPos m -> ScrollPos m' = ScrollPos m ->
  navOK m'.
Proof.
  intros [Hh Hlen Hs Hc He Hv] H1 H2 H3 H4.
  split; unfold viewportInv, maxVisible in *; rewrite ?H1, ?H2, ?H3, ?H4;
    assumption.
Qed.

(** As long as the window keeps two rows or more, every message leaves
    the cursor on the list and inside the window. *)
Lemma update_keeps_navOK m msg m' cmd :
  navOK m -> msgOK msg -> Update m msg = Some (m', cmd) -> navOK m'.
Proof.
  intros Hok Hmsg Hu.
  assert (Hok' := Hok). destruct Hok' as [Hh Hlen Hs Hc He Hv].
  assert (Hmv : maxVisible m = Height m - 2).
  { unfold maxVisible. int64_simpl. reflexivity. }
  pose proof (len_nonneg (VisibleDirs m)) as Hlen0.
  destruct msg as [w h|path|dir err| |key|f s err]; simpl in Hu.
  - injection Hu as <- <-. simpl in Hmsg.
    now apply ensure_navOK.
  - injection Hu as <- <-. now apply (navOK_same m).
  - destruct err as [e|].
    + injection Hu as <- <-. now apply (navOK_same m).
    + destruct dir as [root|]; [|discriminate].
      unfold updateVisibleDirs in Hu. simpl in Hu, Hmsg.
      injection Hu as <- <-.
      set (vis := _ ++ List.filter _ _).
      assert (Hvis : 0 <= len vis < 2 ^ 62).
      { split; [apply len_nonneg|]. unfold vis. rewrite len_app.
        pose proof (len_filter_le
                      (fun child => IsDir child || ShowFiles m)
                      (Children root)).
        destruct (String.eqb _ _); unfold len at 1; simpl length; lia. }
      apply ensure_navOK; simpl; try lia.
      * intros Hne. rewrite <- len_zero in Hne. lia.
  - destruct (Loading m); injection Hu as <- <-;
      now apply (navOK_same m).
  - destruct (Loading m).
    { destruct (_ || _); injection Hu as <- <-; exact Hok. }
    assert (Hne : VisibleDirs m <> [] <-> len (VisibleDirs m) <> 0)
      by (now rewrite len_zero).
    assert (Hemp : VisibleDirs m = [] <-> len (VisibleDirs m) = 0)
      by (now rewrite len_zero).
    assert (Hcur : (len (VisibleDirs m) = 0 /\ -1 <= CursorPos m <= 0)
                   \/ (len (VisibleDirs m) <> 0
                       /\ 0 <= CursorPos m < len (VisibleDirs m))).
    { destruct (Z.eq_dec (len (VisibleDirs m)) 0) as [H0|H0].
      - left. split; [exact H0|]. now apply He, Hemp.
      - right. split; [exact H0|]. now apply Hc, Hne. }
    clear Hc He.
    unfold updateKey in Hu. rewrite ?Hmv in Hu.
    destruct Hcur as [[H0 Hcur]|[H0 Hcur]]; int64_simpl_in Hu;
    repeat match type of Hu with
           | (if isKey ?k ?l then _ else _) = _ => destruct (isKey k l)
           end;
      repeat match type of Hu with
           | context [ ?a <? ?b ] =>
               plain a; plain b; destruct (Z.ltb_spec a b)
           | context [ ?a >? ?b ] =>
               plain a; plain b; destruct (Z.gtb_spec a b)
           | context [ ?a >=? ?b ] =>
               plain a; plain b; destruct (Z.geb_spec a b)
           | (if ?c then _ else _) = _ => destruct c eqn:?
           | match ?o with Some _ => _ | None => _ end = _ =>
               destruct o; try discriminate
           end;
      injection Hu as <- <-; try exact Hok;
      apply ensure_navOK; simpl; auto; rewrite ?Hne, ?Hemp;
      int64_simpl; intros; lia.
  - injection Hu as <- <-. exact Hok.
Qed.

End NavFacts.

(** The sample model with a hundred rows in a window of twenty. *)
Lemma page_moves_by_window_rows_witness :
  (exists m',
      Update (lib := Unix.lib) (Sample.model 100 20) (KeyMsg "pgup")
      = Some (m', CmdNil)
      /\ CursorPos m' = 0)
  /\ (exists m',
         Update (lib := Unix.lib) (Sample.model 100 20) (KeyMsg "pgdown")
         = Some (m', CmdNil)
         /\ CursorPos m' = 18).
Proof.
  destruct (page_moves_by_window_rows (lib := Unix.lib) (Sample.model 100 20))
    as [(m1 & H1 & C1 & _) (m2 & H2 & C2 & _)];
    [reflexivity | vm_compute; discriminate
    | vm_compute; split; [discriminate|reflexivity]
    | vm_compute; discriminate |].
  split; [exists m1|exists m2]; (split; [assumption|]).
  - rewrite C1. reflexivity.
  - rewrite C2. reflexivity.
Defined.

(** C6, as stated, on the code: in a window of twenty rows page-down
    takes the cursor from row 0 to row 18, not to row 20. *)
Lemma page_move_is_not_by_height :
  exists m',
    Update (lib := Unix.lib) (Sample.model 100 20) (KeyMsg "pgdown")
    = Some (m', CmdNil)
    /\ Height (Sample.model 100 20) = 20
    /\ len (VisibleDirs (Sample.model 100 20)) = 101
    /\ CursorPos (Sample.model 100 20) = 0
    /\ CursorPos m' = 18
    /\ CursorPos m'
       <> Z.min (len (VisibleDirs (Sample.model 100 20)) - 1)
                (CursorPos (Sample.model 100 20)
                 + Height (Sample.model 100 20)).
Proof.
  eexists. split; [reflexivity|].
  repeat split. vm_compute. discriminate.
Qed.

(** The parent entry of the sample model. *)
Lemma parent_entry_first_witness :
  exists m' p,
    updateVisibleDirs (lib := Unix.lib) (Sample.model 2 20) = Some m'
    /\ index (VisibleDirs m') 0 = Some p
    /\ p = parentEntry "/tmp".
Proof.
  destruct (parent_entry_first (lib := Unix.lib) (Sample.model 2 20)
              (Sample.rootOf 2) eq_refl) as [H _].
  destruct H as (m' & p & Hu & _ & Hi & Hp & _);
    [vm_compute; discriminate|].
  exists m', p. repeat split; assumption.
Defined.

(** C2, on the code: the sample model shows one row.  The window shrinks
    to one row, page-up is pressed, the window grows to three rows: the
    viewport held at the start, and now the cursor is on row 1 of a list
    of one row while the window of one row starts at row 0. *)
Theorem viewport_lost_after_short_window :
  exists m',
    run (lib := Unix.lib) (Sample.model 0 20)
        [WindowSizeMsg 80 1; KeyMsg "pgup"; WindowSizeMsg 80 3]
    = Some m'
    /\ viewportInv (Sample.model 0 20)
    /\ len (VisibleDirs m') = 1
    /\ maxVisible m' = 1
    /\ CursorPos m' = 1
    /\ ScrollPos m' = 0
    /\ ~ viewportInv m'.
Proof.
  eexists. split; [reflexivity|].
  split; [intros _ _; vm_compute; split; discriminate|].
  repeat split. intros Hinv.
  assert (H : 0 <= 1 <= 0 + 1 - 1).
  { apply Hinv; [reflexivity|discriminate]. }
  lia.
Qed.

(** Page-down on an empty list leaves the cursor at -1, and [enter] then
    indexes the list out of range. *)
Example page_down_on_empty_list :
  exists m',
    Update (lib := Unix.lib) (withVisibleDirs (Sample.model 0 20) [])
           (KeyMsg "pgdown") = Some (m', CmdNil)
    /\ CursorPos m' = -1
    /\ Update (lib := Unix.lib) m' (KeyMsg "enter") = None.
Proof. eexists. repeat split. Qed.

(** In a window of one row page-down moves the cursor up, past row 0. *)
Example page_down_in_short_window :
  exists m',
    run (lib := Unix.lib) (Sample.model 2 20)
        [WindowSizeMsg 80 1; KeyMsg "pgdown"] = Some m'
    /\ CursorPos m' = -1
    /\ len (VisibleDirs m') = 3.
Proof. eexists. repeat split. Qed.

Section RunFacts.

Context {lib : GoLib}.

(** Over any sequence of messages that keep the window at two rows or
    more, the viewport holds after every message. *)
Lemma run_keeps_viewport msgs : forall m m',
  navOK m -> Forall msgOK msgs -> run m msgs = Some m' ->
  navOK m' /\ viewportInv m'.
Proof.
  induction msgs as [|msg msgs IH]; intros m m' Hok Hmsgs Hrun.
  - injection Hrun as <-. split; [exact Hok|apply Hok].
  - simpl in Hrun. inversion Hmsgs as [|? ? Hmsg Hrest]; subst.
    destruct (Update m msg) as [[m1 cmd]|] eqn:Hu; [|discriminate].
    apply (IH m1); auto.
    now apply (update_keeps_navOK m msg m1 cmd).
Qed.

Context {laws : GoLibLaws lib}.

Lemma hidden_dotdot : isHidden ".." = true.
Proof. reflexivity. Qed.

(** C8, as the code has it: a load scans the new root at depth 0, so
    the root has depth 0, each of its children has depth 1, and in the
    list shown after the load every row has depth 1 except the parent
    entry, which has depth 0. *)
Theorem listing_depth (m : Model) (path : string) (entries : DirListing)
        (st : CacheState) :
  exists root st' m',
    loadDirectory m path (Some (FsDir (Some entries))) st
    = (LoadingCompleteMsg (Some root) None, st')
    /\ Level root = 0
    /\ Forall (fun c => Level c = 1) (Children root)
    /\ Update m (LoadingCompleteMsg (Some root) None) = Some (m', CmdNil)
    /\ RootDir m' = Some root
    /\ Forall (fun c => Level c = if String.eqb (Name c) ".." then 0 else 1)
              (VisibleDirs m').
Proof.
  destruct (scan_children_level path entries None 0 (ShowFiles m) st)
    as (r & st' & Hscan & Hlevel & Hpath & Hch).
  exists (setPercent Float64.hundred r), st'.
  eexists. split; [unfold loadDirectory; now rewrite Hscan|].
  unfold Update, updateVisibleDirs.
  cbn [RootDir withRootDir withLoading ShowFiles setPercent Path Children
       Level].
  split; [exact Hlevel|].
  assert (Hone : Forall (fun c => Level c = 1) (Children r)).
  { eapply List.Forall_impl; [|exact Hch]. now intros c [Hc _]. }
  split; [exact Hone|]. split; [reflexivity|].
  rewrite ensure_VisibleDirs, ensure_RootDir. cbn.
  split; [reflexivity|].
  apply Forall_app. split.
  - destruct (String.eqb _ _); repeat constructor.
  - rewrite List.Forall_forall in *. intros c Hc.
    apply filter_In in Hc as [Hc _].
    destruct (Hch c Hc) as [Hl Hhid].
    destruct (String.eqb_spec (Name c) "..") as [Heq|_]; [|exact Hl].
    rewrite Heq, hidden_dotdot in Hhid. discriminate.
Qed.

End RunFacts.

(** The load of the sample directory. *)
Lemma listing_depth_witness :
  exists root st' m',
    loadDirectory (lib := Unix.lib) (Sample.model 0 20) "/tmp/x"
                  (Some (FsDir (Some Sample.listing))) emptyCache
    = (LoadingCompleteMsg (Some root) None, st')
    /\ Level root = 0
    /\ Forall (fun c => Level c = 1) (Children root)
    /\ Update (lib := Unix.lib) (Sample.model 0 20)
              (LoadingCompleteMsg (Some root) None) = Some (m', CmdNil)
    /\ RootDir m' = Some root
    /\ Forall (fun c => Level c = if String.eqb (Name c) ".." then 0 else 1)
              (VisibleDirs m').
Proof.
  exact (listing_depth (laws := UnixFacts.laws) (Sample.model 0 20) "/tmp/x"
                       Sample.listing emptyCache).
Defined.

(** C8, as stated, on the code: after the load of the sample directory
    its sub-directory [a], a direct child of the root shown, has depth 1. *)
Lemma direct_child_has_depth_one :
  exists m' a,
    Update (lib := Unix.lib) (Sample.model 0 20)
           (fst (loadDirectory (lib := Unix.lib) (Sample.model 0 20) "/tmp/x"
                               (Some Sample.root) emptyCache))
    = Some (m', CmdNil)
    /\ map Name (VisibleDirs m') = [".."; "a"; "b"; "z.bin"; "notes.txt"]
    /\ map Level (VisibleDirs m') = [0; 1; 1; 1; 1]
    /\ In a (VisibleDirs m')
    /\ Path a = "/tmp/x/a"
    /\ ParentDir a = Some "/tmp/x"
    /\ Level a = 1
    /\ Level a <> 0.
Proof.
  eexists _, _. split; [vm_compute; reflexivity|].
  split; [reflexivity|]. split; [reflexivity|].
  split; [right; left; reflexivity|].
  repeat split. discriminate.
Qed.

(* ===================================================================== *)
(** ** Rounding in binary64 *)
(* ===================================================================== *)

Module Float64Facts.

Import Float64 Float64Spec.

(** *** Shifting a mantissa to the right *)

Lemma iter_pos_iter {A : Type} (f : A -> A) (p : positive) : forall x,
SpecFloat.iter_pos f p x = Pos.iter f x p.
Proof.
induction p as [p IH|p IH|]; intros x; simpl.
- now rewrite !IH, <- !Pos.iter_swap.
- now rewrite !IH.
- reflexivity.
Qed.

Lemma shr_1_spec m r s :
0 <= m -> shr_1 (Build_shr_record m r s)
          = Build_shr_record (m / 2) (Z.odd m) (r || s).
Proof.
intros Hm. rewrite <- Z.div2_div.
destruct m as [|[p|p|]|p]; try reflexivity; lia.
Qed.


(** After [n] shifts of an exact mantissa: the quotient by [2 ^ n], and
  the round and sticky bits of the remainder. *)
Lemma shr_iter_exact (n : positive) (m : Z) :
0 <= m ->
exists r s,
  Pos.iter shr_1 (Build_shr_record m false false) n
  = Build_shr_record (m / 2 ^ Zpos n) r s
  /\ r = (2 ^ (Zpos n - 1) <=? m mod 2 ^ Zpos n)
  /\ s = negb (m mod 2 ^ Zpos n - (if r then 2 ^ (Zpos n - 1) else 0) =? 0).
Proof.
intros Hm. induction n as [|n IH] using Pos.peano_ind.
- cbn [Pos.iter]. rewrite shr_1_spec by exact Hm.
  eexists _, _. split; [reflexivity|].
  change (2 ^ 1) with 2. change (2 ^ (1 - 1)) with 1.
  rewrite (Zmod_odd m). destruct (Z.odd m); split; reflexivity.
- destruct IH as (r & s & Hit & Hr & Hs).
  rewrite Pos.iter_succ, Hit.
  assert (Hq : 0 <= m / 2 ^ Zpos n) by (apply Z.div_pos; lia).
  rewrite shr_1_spec by exact Hq.
  assert (Hpow : 2 ^ Zpos (Pos.succ n) = 2 ^ Zpos n * 2).
  { rewrite Pos2Z.inj_succ, Z.pow_succ_r by lia. lia. }
  assert (Hpow' : 2 ^ Zpos n = 2 ^ (Zpos n - 1) * 2).
  { replace (Zpos n) with (Z.succ (Zpos n - 1)) at 1 by lia.
    rewrite Z.pow_succ_r by lia. lia. }
  assert (Hp0 : 0 < 2 ^ (Zpos n - 1)) by (apply Z.pow_pos_nonneg; lia).
  pose proof (Z.mod_pos_bound m (2 ^ Zpos n) ltac:(lia)) as Hrem.
  assert (Hmod : m mod 2 ^ Zpos (Pos.succ n)
                 = m mod 2 ^ Zpos n
                   + 2 ^ Zpos n * (if Z.odd (m / 2 ^ Zpos n) then 1 else 0)).
  { rewrite Hpow, (Z.rem_mul_r m (2 ^ Zpos n) 2) by lia.
    now rewrite (Zmod_odd (m / 2 ^ Zpos n)). }
  eexists _, _. split; [|split; reflexivity].
  replace (Zpos (Pos.succ n) - 1) with (Zpos n) by lia.
  rewrite Hmod, Z.div_div, <- Hpow by lia.
  f_equal.
  + destruct (Z.odd (m / 2 ^ Zpos n)); symmetry;
      [apply Z.leb_le | apply Z.leb_gt]; lia.
  + subst s r.
    destruct (Z.odd (m / 2 ^ Zpos n));
      [replace (2 ^ Zpos n <=? m mod 2 ^ Zpos n + 2 ^ Zpos n * 1) with true
         by (symmetry; apply Z.leb_le; lia)
      |replace (2 ^ Zpos n <=? m mod 2 ^ Zpos n + 2 ^ Zpos n * 0) with false
         by (symmetry; apply Z.leb_gt; lia)];
      destruct (Z.leb_spec (2 ^ (Zpos n - 1)) (m mod 2 ^ Zpos n));
      simpl; repeat case_cmp; try reflexivity; lia.
Qed.

Lemma shr_iter_m (n : positive) : forall rec,
0 <= shr_m rec ->
shr_m (Pos.iter shr_1 rec n) = shr_m rec / 2 ^ Zpos n.
Proof.
induction n as [|n IH] using Pos.peano_ind; intros [m r s] Hm;
  simpl in Hm.
- cbn [Pos.iter]. now rewrite shr_1_spec.
- rewrite Pos.iter_succ.
  specialize (IH (Build_shr_record m r s) Hm). simpl in IH.
  destruct (Pos.iter shr_1 _ n) as [m' r' s']. simpl in IH. subst m'.
  rewrite shr_1_spec by (apply Z.div_pos; lia). simpl.
  rewrite Z.div_div by lia.
  now rewrite Pos2Z.inj_succ, Z.pow_succ_r, (Z.mul_comm 2) by lia.
Qed.

Lemma shr_iter_loc (n : positive) (m : Z) :
0 <= m ->
loc_of_shr_record (Pos.iter shr_1 (Build_shr_record m false false) n)
= locOf (m mod 2 ^ Zpos n) (2 ^ Zpos n).
Proof.
intros Hm. destruct (shr_iter_exact n m Hm) as (r & s & -> & Hr & Hs).
assert (Hpow : 2 ^ Zpos n = 2 ^ (Zpos n - 1) * 2).
{ replace (Zpos n) with (Z.succ (Zpos n - 1)) at 1 by lia.
  rewrite Z.pow_succ_r by lia. lia. }
assert (Hp0 : 0 < 2 ^ (Zpos n - 1)) by (apply Z.pow_pos_nonneg; lia).
pose proof (Z.mod_pos_bound m (2 ^ Zpos n) ltac:(lia)) as Hrem.
subst s r. unfold locOf, loc_of_shr_record.
destruct (Z.leb_spec (2 ^ (Zpos n - 1)) (m mod 2 ^ Zpos n));
  repeat case_cmp; simpl; try lia; try reflexivity; f_equal; symmetry.
- apply Z.compare_eq_iff. lia.
- apply Z.compare_gt_iff. lia.
- apply Z.compare_lt_iff. lia.
Qed.

(** *** Digits *)

Lemma digits2_size p : digits2_pos p = Pos.size p.
Proof. induction p; simpl; congruence. Qed.

Lemma digits_bounds p :
2 ^ (Zpos (digits2_pos p) - 1) <= Zpos p < 2 ^ Zpos (digits2_pos p).
Proof.
rewrite digits2_size.
pose proof (Pos.size_gt p) as Hgt. pose proof (Pos.size_le p) as Hle.
apply Pos2Z.pos_lt_pos in Hgt. apply Pos2Z.pos_le_pos in Hle.
rewrite Pos2Z.inj_pow in Hgt, Hle.
replace (Zpos (Pos.size p)) with (Z.succ (Zpos (Pos.size p) - 1)) in Hle
  by lia.
rewrite Z.pow_succ_r in Hle by lia. lia.
Qed.

Lemma digits_unique m k :
2 ^ (k - 1) <= m < 2 ^ k -> 0 < m -> Zdigits2 m = k.
Proof.
intros Hm Hpos. destruct m as [|p|p]; try lia. simpl.
pose proof (digits_bounds p) as Hp.
set (d := Zpos (digits2_pos p)) in *.
assert (Hd : 0 < d) by (unfold d; lia).
destruct (Z.lt_trichotomy d k) as [Hlt|[Heq|Hgt]]; [|exact Heq|].
- assert (2 ^ d <= 2 ^ (k - 1)) by (apply Z.pow_le_mono_r; lia). lia.
- destruct (Z.le_gt_cases 0 k) as [Hk|Hk].
  + assert (2 ^ k <= 2 ^ (d - 1)) by (apply Z.pow_le_mono_r; lia). lia.
  + rewrite (Z.pow_neg_r 2 k) in Hm by lia. lia.
Qed.

Lemma digits_ge m k : 0 <= k -> 2 ^ k <= m -> k + 1 <= Zdigits2 m.
Proof.
intros Hk Hm.
assert (Hpos : 0 < m) by (pose proof (Z.pow_pos_nonneg 2 k); lia).
destruct m as [|p|p]; try lia. simpl.
pose proof (digits_bounds p) as Hp.
destruct (Z.le_gt_cases (k + 1) (Zpos (digits2_pos p))) as [H|H]; [easy|].
assert (2 ^ Zpos (digits2_pos p) <= 2 ^ k)
  by (apply Z.pow_le_mono_r; lia).
lia.
Qed.

Lemma digits_spec m :
0 < m -> 2 ^ (Zdigits2 m - 1) <= m < 2 ^ Zdigits2 m.
Proof. destruct m as [|p|p]; try lia. intros _. apply digits_bounds. Qed.

(** *** The two steps of [binary_round_aux] *)

Lemma emin_value : emin prec emax = -1074.
Proof. reflexivity. Qed.

Lemma fexp_norm d ex :
53 <= d -> -1074 <= ex -> fexp prec emax (d + ex) = d + ex - 53.
Proof. unfold fexp, emin, prec, emax. lia. Qed.

Lemma shr_m_of_loc m l : shr_m (shr_record_of_loc m l) = m.
Proof. now destruct l as [|[]]. Qed.

Lemma loc_of_exact m : loc_of_shr_record (shr_record_of_loc m loc_Exact)
                     = loc_Exact.
Proof. reflexivity. Qed.

(** A mantissa of 53 bits or more loses its bits beyond the 53rd. *)
Lemma shr_fexp_spec mx ex lx :
2 ^ 52 <= mx -> -1074 <= ex ->
let n := Zdigits2 mx - 53 in
exists rec,
  shr_fexp prec emax mx ex lx = (rec, ex + n)
  /\ 0 <= n
  /\ shr_m rec = mx / 2 ^ n
  /\ (lx = loc_Exact ->
      loc_of_shr_record rec = locOf (mx mod 2 ^ n) (2 ^ n)).
Proof.
intros Hmx Hex n.
assert (Hd : 53 <= Zdigits2 mx) by (apply (digits_ge mx 52); lia).
unfold shr_fexp. rewrite fexp_norm by assumption.
replace (Zdigits2 mx + ex - 53 - ex) with n by (unfold n; lia).
assert (Hn : 0 <= n) by (unfold n; lia).
unfold shr. destruct n as [|p|p] eqn:Hp; [| |lia].
- eexists. split; [f_equal; lia|]. split; [lia|].
  rewrite shr_m_of_loc, Z.div_1_r, Z.mod_1_r.
  split; [reflexivity|]. now intros ->.
- eexists. split; [reflexivity|]. split; [lia|].
  rewrite iter_pos_iter.
  split.
  + rewrite shr_iter_m; rewrite shr_m_of_loc; [reflexivity|lia].
  + intros ->. apply shr_iter_loc. lia.
Qed.

Lemma round_nearest_even_bounds m l :
m <= round_nearest_even m l <= m + 1.
Proof.
destruct l as [|[]]; simpl; try lia. destruct (Z.even m); lia.
Qed.

Lemma quotient_53_bits mx :
2 ^ 52 <= mx ->
2 ^ 52 <= mx / 2 ^ (Zdigits2 mx - 53) < 2 ^ 53.
Proof.
intros Hmx.
assert (Hd : 53 <= Zdigits2 mx) by (apply (digits_ge mx 52); lia).
pose proof (digits_spec mx ltac:(lia)) as Hb.
set (n := Zdigits2 mx - 53) in *.
assert (Hn : 0 < 2 ^ n) by (apply Z.pow_pos_nonneg; lia).
assert (H1 : 2 ^ (Zdigits2 mx - 1) = 2 ^ 52 * 2 ^ n).
{ rewrite <- Z.pow_add_r by lia. f_equal. lia. }
assert (H2 : 2 ^ Zdigits2 mx = 2 ^ 53 * 2 ^ n).
{ rewrite <- Z.pow_add_r by lia. f_equal. lia. }
split.
- apply Z.div_le_lower_bound; lia.
- apply Z.div_lt_upper_bound; lia.
Qed.


(** [binary_round_aux] on a mantissa of 53 bits or more: the bits beyond
  the 53rd are dropped and the rest is kept or increased by one. *)
Lemma binary_round_aux_norm mx ex lx :
2 ^ 52 <= mx -> -1074 <= ex ->
let n := Zdigits2 mx - 53 in
let m1 := mx / 2 ^ n in
ex + n + 1 <= 971 ->
exists m2,
  m1 <= m2 <= m1 + 1
  /\ (lx = loc_Exact ->
      m2 = round_nearest_even m1 (locOf (mx mod 2 ^ n) (2 ^ n)))
  /\ binary_round_aux prec emax false mx ex lx = pack m2 (ex + n).
Proof.
intros Hmx Hex n m1 Hfit.
destruct (shr_fexp_spec mx ex lx Hmx Hex) as (rec & Hshr & Hn & Hm & Hloc).
fold n in Hshr, Hn, Hm, Hloc. fold m1 in Hm.
pose proof (quotient_53_bits mx Hmx) as Hm1. fold n m1 in Hm1.
set (m2 := round_nearest_even (shr_m rec) (loc_of_shr_record rec)).
pose proof (round_nearest_even_bounds (shr_m rec) (loc_of_shr_record rec))
  as Hm2. fold m2 in Hm2. rewrite Hm in Hm2.
exists m2. split; [exact Hm2|].
split; [intros Hx; unfold m2; now rewrite Hm, (Hloc Hx)|].
unfold binary_round_aux. rewrite Hshr. fold m2.
destruct (shr_fexp_spec m2 (ex + n) loc_Exact ltac:(lia) ltac:(lia))
  as (rec2 & Hshr2 & Hn2 & Hm2' & _).
rewrite Hshr2. unfold pack.
destruct (Z.eqb_spec m2 (2 ^ 53)) as [Heq|Hne].
- assert (Hd2 : Zdigits2 m2 = 54)
    by (apply digits_unique; rewrite Heq; simpl; lia).
  rewrite Hd2 in *. rewrite Heq in Hm2'.
  change (2 ^ 53 / 2 ^ (54 - 53)) with (2 ^ 52) in Hm2'.
  rewrite Hm2'. change (2 ^ 52) with (Zpos (Z.to_pos (2 ^ 52))).
  cbv iota beta.
  replace (ex + n + (54 - 53) <=? emax - prec) with true
    by (symmetry; apply Z.leb_le; unfold emax, prec; lia).
  f_equal; lia.
- assert (Hd2 : Zdigits2 m2 = 53)
    by (apply digits_unique; simpl; lia).
  rewrite Hd2 in *. rewrite Z.sub_diag, Z.pow_0_r, Z.div_1_r in Hm2'.
  rewrite Hm2'.
  destruct m2 as [|p|p]; try lia.
  replace (ex + n + (53 - 53) <=? emax - prec) with true
    by (symmetry; apply Z.leb_le; unfold emax, prec; lia).
  simpl Z.to_pos. f_equal; lia.
Qed.

(** *** Order on normal floats *)


Lemma pack_cases m2 e :
2 ^ 52 <= m2 <= 2 ^ 53 ->
exists m' e',
  pack m2 e = S754_finite false (Z.to_pos m') e'
  /\ normal m'
  /\ ((m2 < 2 ^ 53 /\ m' = m2 /\ e' = e)
      \/ (m2 = 2 ^ 53 /\ m' = 2 ^ 52 /\ e' = e + 1)).
Proof.
intros Hm. unfold pack, normal.
destruct (Z.eqb_spec m2 (2 ^ 53)) as [Heq|Hne].
- exists (2 ^ 52), (e + 1). split; [reflexivity|]. split; [lia|].
  right. now repeat split.
- exists m2, e. split; [reflexivity|]. split; [lia|].
  left. repeat split; lia.
Qed.

(** Rounding does not step over a normal float at or above the value. *)
Lemma binary_round_aux_upper mx ex lx M E :
2 ^ 52 <= mx -> -1074 <= ex <= E -> E <= 970 -> normal M ->
(mx < M * 2 ^ (E - ex) \/ (mx = M * 2 ^ (E - ex) /\ lx = loc_Exact)) ->
exists m e,
  binary_round_aux prec emax false mx ex lx
  = S754_finite false (Z.to_pos m) e
  /\ normal m /\ ex <= e /\ nf_le m e M E.
Proof.
intros Hmx Hex HE HM Hle. unfold normal in HM.
set (D := E - ex) in *.
assert (HD : 0 <= D) by (unfold D; lia).
assert (Hd : 53 <= Zdigits2 mx) by (apply (digits_ge mx 52); lia).
pose proof (digits_spec mx ltac:(lia)) as Hb.
set (d := Zdigits2 mx) in *. set (n := d - 53).
assert (HpD : 0 < 2 ^ D) by (apply Z.pow_pos_nonneg; lia).
assert (HnD : n <= D).
{ assert (Hlt : 2 ^ (d - 1) < 2 ^ (53 + D)).
  { rewrite (Z.pow_add_r 2 53 D) by lia. nia. }
  apply Z.pow_lt_mono_r_iff in Hlt; unfold n; lia. }
destruct (binary_round_aux_norm mx ex lx Hmx ltac:(lia))
  as (m2 & Hm2 & Hexact & ->); [fold d n; lia|].
fold d n in Hm2, Hexact |- *.
pose proof (quotient_53_bits mx Hmx) as Hm1. fold d n in Hm1.
set (m1 := mx / 2 ^ n) in *.
assert (Hpn : 0 < 2 ^ n) by (apply Z.pow_pos_nonneg; unfold n; lia).
assert (HC : M * 2 ^ D = M * 2 ^ (D - n) * 2 ^ n).
{ rewrite <- Z.mul_assoc, <- Z.pow_add_r by (unfold n; lia).
  do 2 f_equal. lia. }
assert (Hm1C : m1 <= M * 2 ^ (D - n)).
{ apply Z.div_le_upper_bound; [exact Hpn|]. rewrite Z.mul_comm. lia. }
destruct (pack_cases m2 (ex + n) ltac:(lia))
  as (m' & e' & -> & Hnorm & Hcase).
exists m', e'. split; [reflexivity|]. split; [exact Hnorm|].
assert (Hn0 : 0 <= n) by (unfold n; lia).
split; [lia|]. unfold nf_le.
destruct (Z.eq_dec n D) as [HeqD|HneD].
- (* the result lies in the binade of the bound *)
  rewrite HeqD, Z.sub_diag, Z.pow_0_r, Z.mul_1_r in Hm1C.
  assert (Hm2M : m2 <= M).
  { destruct (Z.eq_dec m1 M) as [HmM|HmM]; [|lia].
    assert (Hge : m1 * 2 ^ n <= mx).
    { unfold m1. rewrite Z.mul_comm. apply Z.mul_div_le. exact Hpn. }
    rewrite HmM, HeqD in Hge.
    destruct Hle as [Hlt|[Heq Hx]]; [lia|].
    rewrite (Hexact Hx), Heq, <- HeqD, Z.mod_mul by lia.
    unfold locOf. simpl. lia. }
  right. destruct Hcase as [(_ & -> & ->)|(Hc & _ & _)]; lia.
- destruct Hcase as [(_ & -> & ->)|(Hc & -> & ->)]; [left; lia|].
  destruct (Z.eq_dec (ex + n + 1) E); [right|left]; lia.
Qed.

(** *** The conversion of an integer *)

Lemma iter_xO p k : Zpos (Pos.iter xO p k) = Zpos p * 2 ^ Zpos k.
Proof.
induction k as [|k IH] using Pos.peano_ind.
- simpl. lia.
- rewrite Pos.iter_succ, Pos2Z.inj_xO, IH, Pos2Z.inj_succ.
  rewrite Z.pow_succ_r by lia. lia.
Qed.

(** A normal mantissa given exactly is left as it is. *)
Lemma binary_round_aux_exact mx ex :
normal mx -> -1074 <= ex <= 970 ->
binary_round_aux prec emax false mx ex loc_Exact
= S754_finite false (Z.to_pos mx) ex.
Proof.
intros Hmx Hex. unfold normal in Hmx.
destruct (binary_round_aux_norm mx ex loc_Exact ltac:(lia) ltac:(lia))
  as (m2 & _ & Hexact & ->).
- replace (Zdigits2 mx) with 53 by (symmetry; apply digits_unique; lia).
  lia.
- rewrite (Hexact eq_refl).
  replace (Zdigits2 mx) with 53 by (symmetry; apply digits_unique; lia).
  rewrite Z.sub_diag, Z.pow_0_r, Z.div_1_r, Z.mod_1_r, Z.add_0_r.
  unfold locOf, pack. simpl round_nearest_even.
  destruct (Z.eqb_spec mx (2 ^ 53)); [lia|reflexivity].
Qed.


Lemma digits_le_63 a : 0 < a < 2 ^ 63 -> 1 <= Zdigits2 a <= 63.
Proof.
intros Ha. pose proof (digits_spec a ltac:(lia)) as Hb.
destruct a as [|p|p]; try lia. simpl in *. split; [lia|].
destruct (Z.le_gt_cases (Zpos (digits2_pos p)) 63) as [H|H]; [exact H|].
assert (2 ^ 63 <= 2 ^ (Zpos (digits2_pos p) - 1))
  by (apply Z.pow_le_mono_r; lia).
lia.
Qed.

Lemma of_int_rnd a :
0 < a < 2 ^ 63 ->
of_int a = S754_finite false (Z.to_pos (fst (rnd a))) (snd (rnd a))
/\ normal (fst (rnd a)) /\ -52 <= snd (rnd a) <= 11.
Proof.
intros Ha. pose proof (digits_le_63 a Ha) as Hd.
pose proof (digits_spec a ltac:(lia)) as Hb.
unfold rnd. destruct a as [|p|p]; try lia.
unfold of_int, binary_normalize, binary_round.
change (Zdigits2 (Zpos p)) with (Zpos (digits2_pos p)) in *.
set (d := Zpos (digits2_pos p)) in *.
replace (fexp prec emax (d + 0)) with (d - 53)
  by (unfold fexp, emin, prec, emax; lia).
unfold shl_align.
destruct (Z.leb_spec d 53) as [Hsmall|Hlarge]; cbn [fst snd].
- assert (Hn : normal (Zpos p * 2 ^ (53 - d))).
  { unfold normal.
    assert (H1 : 2 ^ 52 = 2 ^ (d - 1) * 2 ^ (53 - d)).
    { rewrite <- Z.pow_add_r by lia. f_equal. lia. }
    assert (H2 : 2 ^ 53 = 2 ^ d * 2 ^ (53 - d)).
    { rewrite <- Z.pow_add_r by lia. f_equal. lia. }
    assert (0 < 2 ^ (53 - d)) by (apply Z.pow_pos_nonneg; lia).
    rewrite H1, H2. nia. }
  split; [|split; [exact Hn|lia]].
  destruct (d - 53 - 0) as [|k|k] eqn:Hk; try lia.
  + replace (53 - d) with 0 in * by lia.
    rewrite Z.pow_0_r, Z.mul_1_r in *.
    rewrite binary_round_aux_exact by (auto; lia).
    f_equal. lia.
  + rewrite iter_xO.
    replace (Zpos k) with (53 - d) by lia.
    now rewrite binary_round_aux_exact by (auto; lia).
- destruct (d - 53 - 0) as [|k|k] eqn:Hk; try lia.
  assert (Hp : 2 ^ 52 <= Zpos p).
  { assert (2 ^ 52 <= 2 ^ (d - 1)) by (apply Z.pow_le_mono_r; lia). lia. }
  destruct (binary_round_aux_norm (Zpos p) 0 loc_Exact Hp ltac:(lia))
    as (m2 & Hm2 & Hexact & ->).
  { change (Zdigits2 (Zpos p)) with d. lia. }
  change (Zdigits2 (Zpos p)) with d in *.
  pose proof (quotient_53_bits (Zpos p) Hp) as Hm1.
  change (Zdigits2 (Zpos p)) with d in Hm1.
  rewrite <- (Hexact eq_refl). unfold pack, normal. simpl (0 + _).
  destruct (Z.eqb_spec m2 (2 ^ 53)); cbn [fst snd];
    (split; [reflexivity|]); lia.
Qed.

Lemma digits_mono a b : 0 < a -> a <= b -> Zdigits2 a <= Zdigits2 b.
Proof.
intros Ha Hab.
pose proof (digits_spec a Ha) as Hda.
pose proof (digits_spec b ltac:(lia)) as Hdb.
assert (Hb1 : 1 <= Zdigits2 b) by (destruct b; simpl; lia).
assert (Hlt : 2 ^ (Zdigits2 a - 1) < 2 ^ Zdigits2 b) by lia.
apply Z.pow_lt_mono_r_iff in Hlt; lia.
Qed.

Lemma round_nearest_even_mono m m' rem rem' unit :
0 <= rem < unit -> 0 <= rem' < unit ->
m < m' \/ (m = m' /\ rem <= rem') ->
round_nearest_even m (locOf rem unit)
<= round_nearest_even m' (locOf rem' unit).
Proof.
intros Hr Hr' [Hlt|[<- Hle]].
- pose proof (round_nearest_even_bounds m (locOf rem unit)).
  pose proof (round_nearest_even_bounds m' (locOf rem' unit)). lia.
- unfold locOf.
  destruct (Z.eqb_spec rem 0), (Z.eqb_spec rem' 0);
    destruct (Z.compare_spec (2 * rem) unit);
    destruct (Z.compare_spec (2 * rem') unit);
    simpl; destruct (Z.even m); lia.
Qed.

(** The conversion is monotone. *)
Lemma rnd_mono a b :
0 < a -> a <= b -> b < 2 ^ 63 ->
nf_le (fst (rnd a)) (snd (rnd a)) (fst (rnd b)) (snd (rnd b)).
Proof.
intros Ha Hab Hb.
pose proof (digits_mono a b Ha Hab) as Hd.
pose proof (digits_le_63 a ltac:(lia)) as Hda.
pose proof (digits_le_63 b ltac:(lia)) as Hdb.
pose proof (digits_spec a Ha) as Hsa.
pose proof (digits_spec b ltac:(lia)) as Hsb.
unfold rnd, nf_le.
set (da := Zdigits2 a) in *. set (db := Zdigits2 b) in *.
destruct (Z.leb_spec db 53) as [Hbs|Hbl].
- (* both are represented exactly *)
  replace (da <=? 53) with true by (symmetry; apply Z.leb_le; lia).
  cbn [fst snd].
  destruct (Z.eq_dec da db) as [Heq|Hne]; [right|left; lia].
  rewrite Heq. split; [reflexivity|].
  apply Z.mul_le_mono_nonneg_r; [|exact Hab].
  apply Z.pow_nonneg. lia.
- destruct (Z.leb_spec da 53) as [Has|Hal].
  + left. cbn [fst snd].
    destruct (_ =? _); cbn [fst snd]; lia.
  + assert (Hqa : 2 ^ 52 <= a / 2 ^ (da - 53) < 2 ^ 53).
    { apply quotient_53_bits.
      assert (2 ^ 52 <= 2 ^ (da - 1)) by (apply Z.pow_le_mono_r; lia).
      lia. }
    assert (Hqb : 2 ^ 52 <= b / 2 ^ (db - 53) < 2 ^ 53).
    { apply quotient_53_bits.
      assert (2 ^ 52 <= 2 ^ (db - 1)) by (apply Z.pow_le_mono_r; lia).
      lia. }
    pose proof (round_nearest_even_bounds (a / 2 ^ (da - 53))
                  (locOf (a mod 2 ^ (da - 53)) (2 ^ (da - 53)))) as Hra.
    pose proof (round_nearest_even_bounds (b / 2 ^ (db - 53))
                  (locOf (b mod 2 ^ (db - 53)) (2 ^ (db - 53)))) as Hrb.
    destruct (Z.eq_dec da db) as [Heq|Hne].
    * (* same binade: compare quotients, then remainders *)
      rewrite Heq in *.
      assert (Hu : 0 < 2 ^ (db - 53)) by (apply Z.pow_pos_nonneg; lia).
      assert (Hmono :
                round_nearest_even (a / 2 ^ (db - 53))
                  (locOf (a mod 2 ^ (db - 53)) (2 ^ (db - 53)))
                <= round_nearest_even (b / 2 ^ (db - 53))
                     (locOf (b mod 2 ^ (db - 53)) (2 ^ (db - 53)))).
      { apply round_nearest_even_mono;
          try (apply Z.mod_pos_bound; exact Hu).
        pose proof (Z.div_mod a (2 ^ (db - 53)) ltac:(lia)).
        pose proof (Z.div_mod b (2 ^ (db - 53)) ltac:(lia)).
        pose proof (Z.mod_pos_bound a (2 ^ (db - 53)) Hu).
        pose proof (Z.mod_pos_bound b (2 ^ (db - 53)) Hu).
        pose proof (Z.div_le_mono a b (2 ^ (db - 53)) Hu Hab).
        destruct (Z.eq_dec (a / 2 ^ (db - 53)) (b / 2 ^ (db - 53)))
          as [Hq|Hq]; [right|left; lia].
        split; [exact Hq|]. rewrite Hq in *. lia. }
      repeat case_cmp; cbn [fst snd]; lia.
    * repeat case_cmp; cbn [fst snd]; lia.
Qed.

(** *** Quotient and product *)

Lemma div_eucl_div_mod a b : Z.div_eucl a b = (a / b, a mod b).
Proof. unfold Z.div, Z.modulo. now destruct (Z.div_eucl a b). Qed.

Lemma new_location_zero nb : new_location nb 0 = loc_Exact.
Proof. unfold new_location. now destruct (Z.even nb). Qed.

(** The quotient of two converted integers, the first not above the
  second, is a normal float not above one. *)
Lemma div_le_one m1 e1 m2 e2 :
normal m1 -> normal m2 -> -52 <= e1 <= 11 -> -52 <= e2 <= 11 ->
nf_le m1 e1 m2 e2 ->
exists m e,
  div (S754_finite false (Z.to_pos m1) e1)
      (S754_finite false (Z.to_pos m2) e2)
  = S754_finite false (Z.to_pos m) e
  /\ normal m /\ -116 <= e /\ nf_le m e (2 ^ 52) (-52).
Proof.
intros Hm1 Hm2 He1 He2 Hle. unfold normal in Hm1, Hm2.
unfold div, SFdiv, SFdiv_core_binary.
rewrite !Z2Pos.id by lia.
replace (Zdigits2 m1) with 53 by (symmetry; apply digits_unique; lia).
replace (Zdigits2 m2) with 53 by (symmetry; apply digits_unique; lia).
assert (He : e1 <= e2) by (destruct Hle; lia).
replace (Z.min (fexp prec emax (53 + e1 - (53 + e2))) (e1 - e2))
  with (e1 - e2 - 53) by (unfold fexp, emin, prec, emax; lia).
replace (e1 - e2 - (e1 - e2 - 53)) with 53 by lia.
rewrite Z.shiftl_mul_pow2 by lia.
rewrite div_eucl_div_mod. cbn [xorb].
set (q := m1 * 2 ^ 53 / m2).
assert (Hq : 2 ^ 52 <= q).
{ apply Z.div_le_lower_bound; lia. }
set (D := e2 - e1).
assert (HpD : 1 <= 2 ^ D).
{ apply (Z.pow_le_mono_r 2 0 D); unfold D; lia. }
destruct (binary_round_aux_upper q (e1 - e2 - 53)
            (new_location m2 ((m1 * 2 ^ 53) mod m2)) (2 ^ 52) (-52))
  as (m & e & Hres & Hn & Hex & Hnf); try (unfold normal; lia).
- replace (-52 - (e1 - e2 - 53)) with (Z.succ D) by (unfold D; lia).
  rewrite Z.pow_succ_r by (unfold D; lia).
  destruct Hle as [Hlt|[Heq Hm]].
  + left.
    assert (2 <= 2 ^ D) by (apply (Z.pow_le_mono_r 2 1 D); unfold D; lia).
    assert (q < 2 ^ 54) by (apply Z.div_lt_upper_bound; lia).
    lia.
  + replace D with 0 by (unfold D; lia). simpl (2 ^ 0).
    destruct (Z.eq_dec m1 m2) as [Hmm|Hmm].
    * right. subst m2. unfold q.
      rewrite (Z.mul_comm m1), Z.div_mul, Z.mod_mul by lia.
      split; [lia|apply new_location_zero].
    * left.
      assert (q < 2 ^ 53) by (apply Z.div_lt_upper_bound; lia).
      lia.
- exists m, e. split; [exact Hres|]. repeat split; try apply Hn; try lia.
  exact Hnf.
Qed.


Lemma hundred_eq : hundred = S754_finite false (Z.to_pos mhundred) (-46).
Proof. reflexivity. Qed.

(** A normal float not above one, times [100.0], is not above [100.0]. *)
Lemma mul_hundred_le m e :
normal m -> -116 <= e -> nf_le m e (2 ^ 52) (-52) ->
exists m' e',
  mul (S754_finite false (Z.to_pos m) e) hundred
  = S754_finite false (Z.to_pos m') e'
  /\ normal m' /\ nf_le m' e' mhundred (-46).
Proof.
intros Hm He Hle. unfold normal in Hm.
rewrite hundred_eq. unfold mul, SFmul. cbn [xorb].
rewrite Pos2Z.inj_mul, !Z2Pos.id by (unfold mhundred; lia).
assert (He0 : e <= -52) by (destruct Hle; lia).
destruct (binary_round_aux_upper (m * mhundred) (e + -46) loc_Exact
            mhundred (-46))
  as (m' & e' & Hres & Hn & _ & Hnf);
  try (unfold normal, mhundred; lia).
- replace (-46 - (e + -46)) with (- e) by lia.
  destruct Hle as [Hlt|[Heq Hmle]].
  + left.
    assert (2 ^ 53 <= 2 ^ (- e)) by (apply Z.pow_le_mono_r; lia).
    unfold mhundred. nia.
  + right. split; [|reflexivity].
    rewrite Heq. change (- -52) with 52.
    assert (m = 2 ^ 52) by lia. subst m. lia.
- exists m', e'. split; [exact Hres|]. split; assumption.
Qed.

(** *** Comparison *)

Lemma leb_of_nf_le m e M E :
0 < m -> 0 < M -> nf_le m e M E ->
leb (S754_finite false (Z.to_pos m) e) (S754_finite false (Z.to_pos M) E)
= true.
Proof.
intros Hm HM Hle. unfold leb, SFleb, SFcompare.
destruct Hle as [Hlt|[-> Hmle]].
- apply Z.compare_lt_iff in Hlt. now rewrite Hlt.
- rewrite Z.compare_refl.
  change (Pos.compare_cont Eq (Z.to_pos m) (Z.to_pos M))
    with (Pos.compare (Z.to_pos m) (Z.to_pos M)).
  destruct (Pos.compare_spec (Z.to_pos m) (Z.to_pos M)) as [H|H|H];
    try reflexivity.
  apply Pos2Z.pos_lt_pos in H. rewrite !Z2Pos.id in H by lia. lia.
Qed.

(** The percentage of a part of a positive total lies between [0.0] and
  [100.0]. *)
Lemma percent_bounds (size total : Z) :
0 <= size <= total -> 0 < total -> total < 2 ^ 63 ->
leb zero (mul (div (of_int size) (of_int total)) hundred) = true
/\ leb (mul (div (of_int size) (of_int total)) hundred) hundred = true.
Proof.
intros Hs Ht Hfit.
destruct (of_int_rnd total ltac:(lia)) as (Hot & Hnt & Het).
rewrite Hot.
destruct (Z.eq_dec size 0) as [->|Hpos].
- split; reflexivity.
- destruct (of_int_rnd size ltac:(lia)) as (Hos & Hns & Hes).
  rewrite Hos.
  destruct (div_le_one _ _ _ _ Hns Hnt Hes Het
              (rnd_mono size total ltac:(lia) ltac:(lia) Hfit))
    as (m & e & -> & Hn & He & Hle).
  destruct (mul_hundred_le m e Hn He Hle) as (m' & e' & -> & Hn' & Hle').
  split; [reflexivity|].
  rewrite hundred_eq. apply leb_of_nf_le; auto.
  + unfold normal in Hn'. lia.
  + unfold mhundred. lia.
Qed.

End Float64Facts.

(* ===================================================================== *)
(** ** Percentages *)
(* ===================================================================== *)

Section PercentFacts.

Context {lib : GoLib} {laws : GoLibLaws lib}.

Lemma size_le_sumSizes c l :
  Forall (fun c => 0 <= Size c) l -> In c l -> Size c <= sumSizes l.
Proof.
  induction 1 as [|d l Hd Hl IH]; intros Hin; [easy|].
  assert (0 <= sumSizes l).
  { clear -Hl. induction Hl; simpl; lia. }
  simpl. destruct Hin as [->|Hin]; [lia|]. specialize (IH Hin). lia.
Qed.

(** C4, as the code has it: when the total of a scanned directory is
    zero, or negative after a wrap-around, no child gets a percentage,
    each keeps [0.0]; when the total is positive each child gets the
    binary64 value of [float64(size) / float64(total) * 100], the
    conversion, the quotient and the product each rounded to nearest
    even; and when the sizes are byte counts (non-negative, their sum
    within [int64]) a total that is not zero is positive and each
    percentage lies between [0.0] and [100.0]. *)
Theorem scan_percent path entries parentDir level showFiles st :
  exists r st',
    scanDirectoryWithCache path (Some (FsDir (Some entries))) parentDir
                           level showFiles st = (inr r, st')
    /\ (Size r <= 0 ->
        Forall (fun c => Percent c = S754_zero false) (Children r))
    /\ (0 < Size r ->
        Forall (fun c =>
                  Percent c
                  = SFmul 53 1024
                      (SFdiv 53 1024
                         (binary_normalize 53 1024 (Size c) 0 false)
                         (binary_normalize 53 1024 (Size r) 0 false))
                      (S754_finite false 7036874417766400 (-46)))
               (Children r))
    /\ (Forall (fun c => 0 <= Size c) (Children r) ->
        0 <= undisplayed showFiles entries ->
        Int64.in_range (sumSizes (Children r)
                        + undisplayed showFiles entries) ->
        Size r <> 0 ->
        0 < Size r
        /\ Forall (fun c =>
                     SFleb (S754_zero false) (Percent c) = true
                     /\ SFleb (Percent c)
                              (S754_finite false 7036874417766400 (-46))
                        = true)
                  (Children r)).
Proof.
  pose proof (scan_total path level showFiles entries st) as Htot.
  cbv zeta in Htot.
  rewrite scan_dir. cbv zeta. eexists _, _. split; [reflexivity|].
  destruct (scanLoop_spec path level showFiles entries
              (mkScanAcc 0 [] [] st) zero_in_range)
    as (ds & fs & Hd & Hf & _ & Hfd & Hff & _).
  simpl in Hd, Hf.
  set (acc := scanLoop path level showFiles entries (mkScanAcc 0 [] [] st))
    in *.
  cbn [Size Children].
  set (sorted := sort_Slice bySizeDesc (directories acc)
                 ++ sort_Slice bySizeDesc (files acc)) in *.
  assert (Hformula : 0 < totalSize acc ->
            forall c, In c (assignPercentages (totalSize acc) sorted) ->
                      Percent c = percentOf (Size c) (totalSize acc)).
  { intros Hpos c. unfold assignPercentages.
    replace (totalSize acc >? 0) with true by (symmetry; lia).
    intros Hc. apply in_map_iff in Hc as (d & <- & _). reflexivity. }
  split; [|split].
  - intros Hzero. unfold assignPercentages.
    replace (totalSize acc >? 0) with false by (symmetry; lia).
    rewrite List.Forall_forall. intros c Hc. unfold sorted in Hc.
    apply in_app_iff in Hc as [Hc|Hc];
      apply (Permutation_in _ (sort_Slice_perm _ bySizeDesc _)) in Hc.
    + rewrite Hd in Hc. rewrite List.Forall_forall in Hfd.
      apply (Hfd c Hc).
    + rewrite Hf in Hc. rewrite List.Forall_forall in Hff.
      apply (Hff c Hc).
  - intros Hpos. rewrite List.Forall_forall. intros c Hc.
    now rewrite (Hformula Hpos c Hc).
  - intros Hnn Hund Hfit Hne.
    assert (Hexact := Htot).
    rewrite Int64Facts.wrap_small in Hexact by exact Hfit.
    assert (Hsum : 0 <= sumSizes (assignPercentages (totalSize acc) sorted)).
    { clear -Hnn. induction Hnn; simpl; lia. }
    assert (Hpos : 0 < totalSize acc) by lia.
    split; [exact Hpos|].
    rewrite List.Forall_forall. intros c Hc.
    pose proof (size_le_sumSizes c _ Hnn Hc) as Hle.
    rewrite List.Forall_forall in Hnn. specialize (Hnn c Hc).
    rewrite (Hformula Hpos c Hc). unfold percentOf.
    apply Float64Facts.percent_bounds; try lia.
    unfold Int64.in_range, Int64.max_int in Hfit. lia.
Qed.

End PercentFacts.

(** The percentages of the sample directory of 600 bytes: 50 percent for
    [a] (300 bytes), 16.67 for [b] (100), 23.33 for [z.bin] (140) and 10
    for [notes.txt] (60), as binary64 values. *)
Lemma scan_percent_witness :
  exists r st',
    scanDirectoryWithCache (lib := Unix.lib) "/tmp/x"
      (Some (FsDir (Some Sample.listing))) None 0 true emptyCache
    = (inr r, st')
    /\ Size r = 600
    /\ map (fun c => (Name c, Size c, Percent c)) (Children r)
       = [("a", 300, S754_finite false 7036874417766400 (-47));
          ("b", 100, S754_finite false 4691249611844266 (-48));
          ("z.bin", 140, S754_finite false 6567749456581973 (-48));
          ("notes.txt", 60, S754_finite false 5629499534213120 (-49))]
    /\ Forall (fun c =>
                 Percent c
                 = SFmul 53 1024
                     (SFdiv 53 1024
                        (binary_normalize 53 1024 (Size c) 0 false)
                        (binary_normalize 53 1024 600 0 false))
                     (S754_finite false 7036874417766400 (-46))
                 /\ SFleb (S754_zero false) (Percent c) = true
                 /\ SFleb (Percent c)
                          (S754_finite false 7036874417766400 (-46))
                    = true)
              (Children r).
Proof.
  destruct (scan_percent (laws := UnixFacts.laws) "/tmp/x" Sample.listing
                         None 0 true emptyCache)
    as (r & st' & Hscan & _ & Hformula & Hpct).
  exists r, st'. split; [exact Hscan|].
  vm_compute in Hscan. injection Hscan as <- <-.
  split; [reflexivity|]. split; [reflexivity|].
  destruct Hpct as [Hpos Hbounds].
  - repeat constructor; cbn; discriminate.
  - cbn. discriminate.
  - vm_compute. split; discriminate.
  - cbn. discriminate.
  - specialize (Hformula Hpos).
    rewrite List.Forall_forall in *. intros c Hc.
    split; [exact (Hformula c Hc)|exact (Hbounds c Hc)].
Defined.

(** C4, as stated, on the code.  A directory with two files of
    [2^63 - 1] bytes and one of 7 bytes: the 64-bit total wraps around to
    5, which is not zero, and the percentages are [float64(size) /
    float64(5) * 100], far above [100.0].  A directory with two files of
    [2^62] bytes: the total wraps around to [-2^63], which is not zero,
    and no percentage is computed: each child keeps [0.0], where the
    formula gives [-50.0]. *)
Lemma percent_off_scale_after_wrap :
  (exists r st' c,
      scanDirectoryWithCache (lib := Unix.lib) "/big"
        (Some (FsDir (Some [("a", Some (FsFile 9223372036854775807));
                            ("b", Some (FsFile 9223372036854775807));
                            ("c", Some (FsFile 7))])))
        None 0 true emptyCache = (inr r, st')
      /\ Size r = 5 /\ Size r <> 0
      /\ In c (Children r)
      /\ Size c = 9223372036854775807
      /\ Percent c
         = SFmul 53 1024
             (SFdiv 53 1024 (binary_normalize 53 1024 (Size c) 0 false)
                            (binary_normalize 53 1024 (Size r) 0 false))
             (S754_finite false 7036874417766400 (-46))
      /\ Percent c = S754_finite false 5629499534213120 15
      /\ SFleb (Percent c) (S754_finite false 7036874417766400 (-46))
         = false)
  /\ (exists r st' c,
         scanDirectoryWithCache (lib := Unix.lib) "/big"
           (Some (FsDir (Some [("a", Some (FsFile 4611686018427387904));
                               ("b", Some (FsFile 4611686018427387904))])))
           None 0 true emptyCache = (inr r, st')
         /\ Size r = -9223372036854775808 /\ Size r <> 0
         /\ In c (Children r)
         /\ Percent c = S754_zero false
         /\ SFmul 53 1024
              (SFdiv 53 1024 (binary_normalize 53 1024 (Size c) 0 false)
                             (binary_normalize 53 1024 (Size r) 0 false))
              (S754_finite false 7036874417766400 (-46))
            = S754_finite true 7036874417766400 (-47)
         /\ Percent c
            <> SFmul 53 1024
                 (SFdiv 53 1024 (binary_normalize 53 1024 (Size c) 0 false)
                                (binary_normalize 53 1024 (Size r) 0 false))
                 (S754_finite false 7036874417766400 (-46))).
Proof.
  split.
  - eexists _, _, _. split; [vm_compute; reflexivity|].
    split; [reflexivity|]. split; [discriminate|].
    split; [left; reflexivity|].
    repeat split; vm_compute; reflexivity.
  - eexists _, _, _. split; [vm_compute; reflexivity|].
    split; [reflexivity|]. split; [discriminate|].
    split; [left; reflexivity|].
    split; [reflexivity|]. split; [vm_compute; reflexivity|].
    vm_compute. discriminate.
Qed.

(** A directory holding [a] (300 bytes) and [b] (100 bytes), files not
    displayed: [a] at 75 percent, then [b] at 25 percent. *)
Example scan_300_100 :
  exists r st',
    scanDirectoryWithCache (lib := Unix.lib) "/tmp/x"
      (Some (FsDir (Some [("b", Some Sample.dirB); ("a", Some Sample.dirA)])))
      None 0 false emptyCache = (inr r, st')
    /\ Size r = 400
    /\ map (fun c => (Name c, Size c, Percent c)) (Children r)
       = [("a", 300, Float64.of_int 75); ("b", 100, Float64.of_int 25)].
Proof. eexists _, _. split; [reflexivity|]. split; reflexivity. Qed.

(* ===================================================================== *)
(** ** The full traversal *)
(* ===================================================================== *)

Section TraversalFacts.

Context {lib : GoLib}.

Lemma wrap_add_r a b : Int64.wrap (a + Int64.wrap b) = Int64.wrap (a + b).
Proof. rewrite Z.add_comm, Int64Facts.wrap_add_l. f_equal. lia. Qed.

Lemma sumZ_cons x l : sumZ (x :: l) = x + sumZ l.
Proof. reflexivity. Qed.

Lemma sumZ_app l1 l2 : sumZ (l1 ++ l2) = sumZ l1 + sumZ l2.
Proof. induction l1; simpl; lia. Qed.

(** Induction on a tree, with the hypothesis for every node of a
    listing. *)
Lemma FsNode_tree_ind (P : FsNode -> Prop) :
  (forall sz, P (FsFile sz)) ->
  P (FsDir None) ->
  (forall entries,
      Forall (fun e => match snd e with Some c => P c | None => True end)
             entries ->
      P (FsDir (Some entries))) ->
  forall n, P n.
Proof.
  intros Hfile Hnone Hdir. fix IH 1. intros [sz|[entries|]].
  - apply Hfile.
  - apply Hdir. revert entries. fix IHl 1. intros [|[name [c|]] rest].
    + constructor.
    + constructor; [apply IH|apply IHl].
    + constructor; [exact I|apply IHl].
  - apply Hnone.
Qed.

(** The traversal adds up the counted files in 64 bits. *)
Lemma calculateFullDirSize_wrap : forall (n : FsNode) (path : string),
  calculateFullDirSize path n = Int64.wrap (sumZ (filesBelow n)).
Proof.
  induction n as [sz| |entries IH] using FsNode_tree_ind;
    intros path; try reflexivity.
  cbn [calculateFullDirSize filesBelow].
  assert (Hacc : Int64.in_range 0) by apply zero_in_range.
  replace (Int64.wrap (sumZ _)) with (Int64.wrap (0 + sumZ
    ((fix below (entries : list (string * option FsNode)) : list Z :=
        match entries with
        | [] => []
        | (name, info) :: rest =>
            if isHidden name then below rest
            else
              match info with
              | None => below rest
              | Some (FsFile sz) => sz :: below rest
              | Some (FsDir _ as child) => filesBelow child ++ below rest
              end
        end) entries))) by reflexivity.
  revert Hacc. generalize 0 as size.
  induction IH as [|[name info] rest Hc Hrest IHrest]; intros size Hacc.
  - simpl. rewrite Z.add_0_r. symmetry.
    now apply Int64Facts.wrap_small.
  - cbn [snd] in Hc. simpl.
    destruct (isHidden name) eqn:Hhid; [now apply IHrest|].
    destruct info as [[sz|es]|].
    + rewrite IHrest by apply Int64Facts.wrap_range.
      unfold Int64.add. rewrite Int64Facts.wrap_add_l.
      apply (f_equal Int64.wrap). rewrite sumZ_cons. lia.
    + rewrite IHrest by apply Int64Facts.wrap_range.
      rewrite Hc. unfold Int64.add.
      rewrite wrap_add_r, Int64Facts.wrap_add_l, sumZ_app.
      apply (f_equal Int64.wrap). lia.
    + now apply IHrest.
Qed.

(** X1: the full traversal returns the 64-bit sum of the sizes of all
    files below the directory that are not hidden, nor below a hidden or
    unreadable directory, whatever the path it is called with; it is the
    exact sum whenever that fits. *)
Theorem calculateFullDirSize_sum (n : FsNode) (path : string) :
  calculateFullDirSize path n = Int64.wrap (sumZ (filesBelow n))
  /\ (Int64.in_range (sumZ (filesBelow n)) ->
      calculateFullDirSize path n = sumZ (filesBelow n)).
Proof.
  split; [apply calculateFullDirSize_wrap|].
  intros Hfit. rewrite calculateFullDirSize_wrap.
  now apply Int64Facts.wrap_small.
Qed.

End TraversalFacts.

(** The traversal of the sample directory: 120 + 180 bytes in [a], 100
    in [b], 60 + 140 in its own files; the hidden entries and the entry
    whose [Info()] fails are left out. *)
Lemma calculateFullDirSize_sum_witness :
  calculateFullDirSize (lib := Unix.lib) "/tmp/x" Sample.root
  = Int64.wrap (sumZ (filesBelow Sample.root))
  /\ calculateFullDirSize (lib := Unix.lib) "/tmp/x" Sample.root = 600.
Proof.
  destruct (calculateFullDirSize_sum (lib := Unix.lib) Sample.root "/tmp/x")
    as [Hwrap Hexact].
  split; [exact Hwrap|].
  rewrite Hexact; [reflexivity|]. vm_compute. split; discriminate.
Defined.

(* ===================================================================== *)
(** ** Scans and the cache together *)
(* ===================================================================== *)

Section ScanCacheFacts.

Context {lib : GoLib}.

Lemma filesOfListing_cons name info rest :
  filesOfListing ((name, info) :: rest)
  = if isHidden name then filesOfListing rest
    else match info with
         | None => filesOfListing rest
         | Some (FsFile sz) => sz :: filesOfListing rest
         | Some (FsDir es) => filesBelow (FsDir es) ++ filesOfListing rest
         end.
Proof.
  destruct (isHidden name) eqn:Hh; destruct info as [[sz|es]|];
    unfold filesOfListing; cbn [filesBelow]; now rewrite Hh.
Qed.

Lemma countedDirNames_in name es entries :
  In (name, Some (FsDir es)) entries -> isHidden name = false ->
  In name (countedDirNames entries).
Proof.
  induction entries as [|[n [[sz|es']|]] rest IH]; simpl; [easy| | |].
  - intros [[=]|H] Hh. now apply IH.
  - intros [[= -> ->]|H] Hh.
    + rewrite Hh. now left.
    + destruct (isHidden n); [|right]; now apply IH.
  - intros [[=]|H] Hh. now apply IH.
Qed.

(** With a coherent cache the loop adds up the bytes below the listing. *)
Lemma scanLoop_coherent path level showFiles entries : forall acc,
  Int64.in_range (totalSize acc) ->
  List.NoDup (countedDirPaths path entries) ->
  coherent path entries (cache acc) ->
  totalSize (scanLoop path level showFiles entries acc)
  = Int64.wrap (totalSize acc + sumZ (filesOfListing entries)).
Proof.
  induction entries as [|[name info] rest IH]; intros acc Hacc Hnd Hco.
  - simpl. rewrite Z.add_0_r. symmetry. now apply Int64Facts.wrap_small.
  - rewrite scanLoop_cons, filesOfListing_cons.
    assert (Hco' : coherent path rest (cache acc)).
    { intros n es v Hin. apply Hco. now right. }
    unfold scanStep. unfold countedDirPaths in *. simpl in Hnd.
    destruct (isHidden name) eqn:Hhid.
    { destruct info as [[sz|es]|]; now apply IH. }
    destruct info as [[sz|es]|].
    + destruct showFiles;
        (rewrite IH; [|apply Int64Facts.wrap_range|exact Hnd|exact Hco']);
        cbn [totalSize]; unfold Int64.add;
        rewrite Int64Facts.wrap_add_l, sumZ_cons;
        apply (f_equal Int64.wrap); lia.
    + simpl in Hnd. apply NoDup_cons_iff in Hnd as [Hnotin Hnd].
      assert (Hv : fst (getCachedSize (filepath_Join path name) (FsDir es)
                                      (cache acc))
                   = calculateFullDirSize (filepath_Join path name)
                                          (FsDir es)).
      { unfold getCachedSize.
        destruct (sizeCache (cache acc) !! filepath_Join path name)
          as [v|] eqn:Hl; [|reflexivity].
        cbn [fst]. apply (Hco name es v); auto. now left. }
      assert (Hst : coherent path rest
                      (snd (getCachedSize (filepath_Join path name)
                                          (FsDir es) (cache acc)))).
      { intros n es' v Hin Hh.
        unfold getCachedSize.
        destruct (sizeCache (cache acc) !! filepath_Join path name)
          as [v0|] eqn:Hl; cbn [snd sizeCache]; [now apply Hco'|].
        rewrite lookup_insert_ne; [now apply Hco'|].
        intros Heq. apply Hnotin. rewrite Heq. apply in_map.
        now apply (countedDirNames_in n es'). }
      destruct (getCachedSize _ _ _) as [childSize st1].
      cbn [fst snd] in Hv, Hst.
      rewrite IH; [|apply Int64Facts.wrap_range|exact Hnd|exact Hst].
      cbn [totalSize]. unfold Int64.add. rewrite Hv.
      rewrite (calculateFullDirSize_wrap (FsDir es)).
      rewrite wrap_add_r, Int64Facts.wrap_add_l, sumZ_app.
      apply (f_equal Int64.wrap). lia.
    + now apply IH.
Qed.

(** X2: when the cache agrees with the file system on the
    sub-directories of a directory, the total of a scan of the directory
    is what a full traversal of it returns, the size a scan of its parent
    shows for it. *)
Theorem scan_total_is_traversal path entries parentDir level showFiles st :
  List.NoDup (countedDirPaths path entries) ->
  coherent path entries st ->
  exists r st',
    scanDirectoryWithCache path (Some (FsDir (Some entries))) parentDir
                           level showFiles st = (inr r, st')
    /\ Size r = calculateFullDirSize path (FsDir (Some entries))
    /\ Size r = Int64.wrap (sumZ (filesOfListing entries)).
Proof.
  intros Hnd Hco. rewrite scan_dir. cbv zeta.
  eexists _, _. split; [reflexivity|]. cbn [Size].
  rewrite (calculateFullDirSize_wrap (FsDir (Some entries)) path).
  rewrite (scanLoop_coherent path level showFiles entries
             (mkScanAcc 0 [] [] st) zero_in_range Hnd Hco).
  split; reflexivity.
Qed.

Lemma scanLoop_cache_grows path level showFiles entries acc :
  sizeCache (cache acc)
  ⊆ sizeCache (cache (scanLoop path level showFiles entries acc)).
Proof.
  apply (scanLoop_keeps (fun st' => sizeCache (cache acc) ⊆ sizeCache st'));
    [|reflexivity].
  intros p n st' Hst'. etransitivity; [exact Hst'|].
  apply getCachedSize_grows.
Qed.

Lemma withCache_same acc : withCache acc (cache acc) = acc.
Proof. now destruct acc. Qed.

Lemma scanStep_dir_again path level showFiles name es es' acc st :
  isHidden name = false ->
  sizeCache (cache (scanStep path level showFiles acc
                             (name, Some (FsDir es))))
  ⊆ sizeCache st ->
  scanStep path level showFiles (withCache acc st) (name, Some (FsDir es'))
  = withCache (scanStep path level showFiles acc (name, Some (FsDir es))) st.
Proof.
  intros Hh Hsub. unfold scanStep in *. rewrite Hh in *.
  pose proof (getCachedSize_cached (filepath_Join path name) (FsDir es)
                                   (cache acc)) as Hc.
  destruct (getCachedSize _ (FsDir es) (cache acc)) as [v st1].
  cbn [fst snd cache] in Hc, Hsub.
  unfold withCache. cbn [cache totalSize directories files].
  rewrite (getCachedSize_hit _ _ _ v); [reflexivity|].
  now apply (lookup_weaken _ _ _ _ Hc).
Qed.

(** A loop over a cache that already holds what the loop stored finds
    every sub-directory there, whatever lies inside it now. *)
Lemma scanLoop_again path level showFiles entries entries' :
  Forall2 sameEntry entries entries' ->
  forall acc st,
    sizeCache (cache (scanLoop path level showFiles entries acc))
    ⊆ sizeCache st ->
    scanLoop path level showFiles entries' (withCache acc st)
    = withCache (scanLoop path level showFiles entries acc) st.
Proof.
  induction 1 as [|[name info] [name' info'] rest rest' [Hn Hi] Hrest IH];
    intros acc st Hsub; [reflexivity|].
  simpl in Hn, Hi. subst name'.
  rewrite !scanLoop_cons in *.
  assert (Hsub' : sizeCache (cache (scanStep path level showFiles acc
                                             (name, info)))
                  ⊆ sizeCache st).
  { etransitivity; [apply scanLoop_cache_grows|exact Hsub]. }
  assert (Hstep : scanStep path level showFiles (withCache acc st)
                           (name, info')
                  = withCache (scanStep path level showFiles acc
                                        (name, info)) st).
  { destruct (isHidden name) eqn:Hh.
    { unfold scanStep. now rewrite Hh. }
    destruct Hi as [<-|(es & es' & -> & ->)];
      [|now apply scanStep_dir_again].
    destruct info as [[sz|es]|]; [| now apply scanStep_dir_again|];
      unfold scanStep; rewrite Hh; [now destruct showFiles|reflexivity]. }
  rewrite Hstep. now apply IH.
Qed.

(** X3: a second scan of a directory over the cache the first left
    returns the same entry and stores nothing, also when the contents of
    its sub-directories have changed in between: their sizes are the
    cached ones. *)
Theorem rescan_is_served_from_cache path entries entries' parentDir level
        showFiles st :
  Forall2 sameEntry entries entries' ->
  scanDirectoryWithCache path (Some (FsDir (Some entries'))) parentDir level
    showFiles
    (snd (scanDirectoryWithCache path (Some (FsDir (Some entries)))
                                 parentDir level showFiles st))
  = scanDirectoryWithCache path (Some (FsDir (Some entries))) parentDir level
                           showFiles st.
Proof.
  intros Hsame. rewrite !scan_dir. cbv zeta. cbn [snd].
  set (acc := scanLoop path level showFiles entries (mkScanAcc 0 [] [] st)).
  pose proof (scanLoop_again path level showFiles entries entries' Hsame
                (mkScanAcc 0 [] [] st) (cache acc)) as Hagain.
  unfold withCache at 1 in Hagain. cbn [totalSize directories files] in Hagain.
  fold acc in Hagain. rewrite Hagain by reflexivity.
  now rewrite withCache_same.
Qed.

(** The loop counts files whether or not it lists them. *)
Lemma scanLoop_showFiles path level entries : forall acc acc',
  totalSize acc = totalSize acc' ->
  directories acc = directories acc' ->
  cache acc = cache acc' ->
  files acc' = [] ->
  let a := scanLoop path level true entries acc in
  let a' := scanLoop path level false entries acc' in
  totalSize a = totalSize a' /\ directories a = directories a'
  /\ cache a = cache a' /\ files a' = [].
Proof.
  induction entries as [|[name info] rest IH]; intros acc acc' Ht Hd Hc Hf;
    [easy|].
  cbv zeta. rewrite !scanLoop_cons. apply IH; unfold scanStep;
    destruct (isHidden name); try assumption;
    destruct info as [[sz|es]|]; try assumption;
    rewrite ?Hc; try destruct (getCachedSize _ _ _);
    cbn [totalSize directories files cache]; congruence.
Qed.

End ScanCacheFacts.

Section ShowFilesFacts.

Context {lib : GoLib} {laws : GoLibLaws lib}.

Lemma sort_Slice_nil {A} (less : A -> A -> bool) : sort_Slice less [] = [].
Proof. apply Permutation_nil. symmetry. apply sort_Slice_perm. Qed.

(** X4: displaying the files changes neither the total of a scan nor
    its directory children, their percentages included, nor the cache: it
    appends the file children. *)
Theorem showFiles_only_adds_files path entries parentDir level st :
  exists r r' st' fs,
    scanDirectoryWithCache path (Some (FsDir (Some entries))) parentDir
                           level true st = (inr r, st')
    /\ scanDirectoryWithCache path (Some (FsDir (Some entries))) parentDir
                              level false st = (inr r', st')
    /\ Size r = Size r'
    /\ Children r = Children r' ++ fs
    /\ Forall (fun c => IsDir c = true) (Children r')
    /\ Forall (fun c => IsDir c = false) fs.
Proof.
  rewrite !scan_dir. cbv zeta.
  destruct (scanLoop_showFiles path level entries (mkScanAcc 0 [] [] st)
              (mkScanAcc 0 [] [] st) eq_refl eq_refl eq_refl eq_refl)
    as (Ht & Hd & Hc & Hf).
  destruct (scanLoop_spec path level true entries
              (mkScanAcc 0 [] [] st) zero_in_range)
    as (ds & fs & Hds & Hfs & _ & Hfd & Hff & _).
  simpl in Hds, Hfs.
  rewrite <- Hd, Hf, sort_Slice_nil, app_nil_r, <- Ht, <- Hc.
  rewrite assignPercentages_app.
  eexists _, _, _, _. split; [reflexivity|]. split; [reflexivity|].
  cbn [Size Children]. split; [reflexivity|]. split; [reflexivity|].
  split; apply forall_isDir_assign.
  - rewrite Hds.
    eapply List.Forall_impl;
      [|apply (forall_fresh_perm path level true ds _
                 (sort_Slice_perm _ bySizeDesc _) Hfd)].
    intros c Hc'. apply Hc'.
  - rewrite Hfs.
    eapply List.Forall_impl;
      [|apply (forall_fresh_perm path level false fs _
                 (sort_Slice_perm _ bySizeDesc _) Hff)].
    intros c Hc'. apply Hc'.
Qed.

End ShowFilesFacts.

Section CacheDomainFacts.

Context {lib : GoLib}.

Lemma scanLoop_cache_frame path level showFiles p entries : forall acc,
  ~ In p (countedDirPaths path entries) ->
  sizeCache (cache (scanLoop path level showFiles entries acc)) !! p
  = sizeCache (cache acc) !! p.
Proof.
  induction entries as [|[name info] rest IH]; intros acc Hp; [reflexivity|].
  rewrite scanLoop_cons. unfold countedDirPaths in *.
  rewrite countedDirNames_cons, map_app in Hp.
  rewrite IH by (intros H; apply Hp, in_app_iff; now right).
  unfold scanStep. destruct (isHidden name) eqn:Hh; [reflexivity|].
  destruct info as [[sz|es]|]; [now destruct showFiles| |reflexivity].
  unfold getCachedSize.
  destruct (sizeCache (cache acc) !! filepath_Join path name) eqn:Hl;
    [reflexivity|].
  cbn [cache sizeCache]. apply lookup_insert_ne.
  intros <-. apply Hp, in_app_iff. left. simpl. rewrite Hh. now left.
Qed.

Lemma scanLoop_cache_dirs path level showFiles p entries : forall acc,
  In p (countedDirPaths path entries) ->
  is_Some (sizeCache (cache (scanLoop path level showFiles entries acc))
             !! p).
Proof.
  induction entries as [|[name info] rest IH]; intros acc Hp; [easy|].
  rewrite scanLoop_cons. unfold countedDirPaths in *.
  rewrite countedDirNames_cons, map_app in Hp.
  apply in_app_iff in Hp as [Hp|Hp]; [|now apply IH].
  simpl in Hp. destruct info as [[sz|es]|]; try easy.
  destruct (isHidden name) eqn:Hh; [easy|].
  destruct Hp as [<-|[]].
  pose proof (getCachedSize_cached (filepath_Join path name) (FsDir es)
                                   (cache acc)) as Hc.
  exists (fst (getCachedSize (filepath_Join path name) (FsDir es)
                             (cache acc))).
  eapply lookup_weaken; [|apply scanLoop_cache_grows].
  unfold scanStep. rewrite Hh.
  destruct (getCachedSize _ _ _) as [v st1]. exact Hc.
Qed.

(** X5: a scan leaves in the cache an entry for each of the
    sub-directories it lists, and touches no other key: neither the
    scanned directory itself, nor a file, nor a hidden sub-directory, nor
    anything deeper is stored. *)
Theorem scan_cache_domain path entries parentDir level showFiles st :
  let st' := snd (scanDirectoryWithCache path (Some (FsDir (Some entries)))
                                         parentDir level showFiles st) in
  (forall p, In p (countedDirPaths path entries) ->
             is_Some (sizeCache st' !! p))
  /\ (forall p, ~ In p (countedDirPaths path entries) ->
                sizeCache st' !! p = sizeCache st !! p).
Proof.
  rewrite scan_dir. cbv zeta. cbn [snd]. split; intros p Hp.
  - now apply scanLoop_cache_dirs.
  - now rewrite scanLoop_cache_frame.
Qed.

End CacheDomainFacts.

(** The scan of the sample directory over the empty cache: its total is
    the traversal of the directory. *)
Lemma scan_total_is_traversal_witness :
  exists r st',
    scanDirectoryWithCache (lib := Unix.lib) "/tmp/x"
      (Some (FsDir (Some Sample.listing))) None 0 true emptyCache
    = (inr r, st')
    /\ Size r = calculateFullDirSize (lib := Unix.lib) "/tmp/x"
                                     (FsDir (Some Sample.listing))
    /\ Size r = Int64.wrap (sumZ (filesOfListing Sample.listing)).
Proof.
  apply (scan_total_is_traversal (lib := Unix.lib)).
  - vm_compute. repeat constructor; simpl; intuition discriminate.
  - intros name es v _ _ Hv. vm_compute in Hv. discriminate.
Defined.

(** Directory [a] of the sample is scanned, emptied, and scanned again:
    the second scan still shows its 300 bytes. *)
Lemma rescan_is_served_from_cache_witness :
  let before := [("a", Some Sample.dirA); ("notes.txt", Some (FsFile 60))] in
  let after := [("a", Some (FsDir (Some [])));
                ("notes.txt", Some (FsFile 60))] in
  let first := scanDirectoryWithCache (lib := Unix.lib) "/tmp/x"
                 (Some (FsDir (Some before))) None 0 true emptyCache in
  scanDirectoryWithCache (lib := Unix.lib) "/tmp/x"
    (Some (FsDir (Some after))) None 0 true (snd first) = first.
Proof.
  apply (rescan_is_served_from_cache (lib := Unix.lib)).
  constructor; [split; [reflexivity|right; eexists _, _; split; reflexivity]|].
  constructor; [split; [reflexivity|left; reflexivity]|].
  constructor.
Defined.

(** The scan of the sample directory stores [/tmp/x/a] and [/tmp/x/b],
    and neither the hidden [/tmp/x/.git] nor [/tmp/x] itself. *)
Lemma scan_cache_domain_witness :
  let st' := snd (Sample.scanned true) in
  is_Some (sizeCache st' !! "/tmp/x/a")
  /\ is_Some (sizeCache st' !! "/tmp/x/b")
  /\ sizeCache st' !! "/tmp/x/.git" = None
  /\ sizeCache st' !! "/tmp/x" = None.
Proof.
  destruct (scan_cache_domain (lib := Unix.lib) "/tmp/x" Sample.listing None
                              0 true emptyCache) as [Hin Hout].
  split; [|split; [|split]].
  - apply Hin. vm_compute. now left.
  - apply Hin. vm_compute. right. now left.
  - unfold Sample.scanned, Sample.root. rewrite Hout; [reflexivity|].
    vm_compute. intuition discriminate.
  - unfold Sample.scanned, Sample.root. rewrite Hout; [reflexivity|].
    vm_compute. intuition discriminate.
Defined.

(** The two scans of the sample directory, with and without its files. *)
Lemma showFiles_only_adds_files_witness :
  exists r r' st' fs,
    scanDirectoryWithCache (lib := Unix.lib) "/tmp/x"
      (Some (FsDir (Some Sample.listing))) None 0 true emptyCache
    = (inr r, st')
    /\ scanDirectoryWithCache (lib := Unix.lib) "/tmp/x"
         (Some (FsDir (Some Sample.listing))) None 0 false emptyCache
       = (inr r', st')
    /\ Size r = Size r'
    /\ Children r = Children r' ++ fs
    /\ Forall (fun c => IsDir c = true) (Children r')
    /\ Forall (fun c => IsDir c = false) fs.
Proof.
  exact (showFiles_only_adds_files (laws := UnixFacts.laws) "/tmp/x"
           Sample.listing None 0 emptyCache).
Defined.

(* ===================================================================== *)
(** ** What a message changes *)
(* ===================================================================== *)

Section ModelFacts.

Context {lib : GoLib}.

Lemma ensure_withScrollPos m :
  ensureCursorVisible m
  = withScrollPos m (ScrollPos (ensureCursorVisible m)).
Proof.
  unfold ensureCursorVisible.
  destruct (len (VisibleDirs m) =? 0); [now destruct m|reflexivity].
Qed.

(** A key moves the cursor and the window, nothing else. *)
Lemma updateKey_moves m key m' cmd :
  updateKey m key = Some (m', cmd) ->
  m' = withScrollPos (withCursorPos m (CursorPos m')) (ScrollPos m').
Proof.
  assert (Hsame : m = withScrollPos (withCursorPos m (CursorPos m))
                                    (ScrollPos m)) by (now destruct m).
  assert (Hens : forall c,
             ensureCursorVisible (withCursorPos m c)
             = withScrollPos
                 (withCursorPos m
                    (CursorPos (ensureCursorVisible (withCursorPos m c))))
                 (ScrollPos (ensureCursorVisible (withCursorPos m c)))).
  { intros c. rewrite ensure_CursorPos.
    rewrite ensure_withScrollPos at 1. now destruct m. }
  unfold updateKey. intros Hu.
  repeat match type of Hu with
         | (if ?c then _ else _) = _ => destruct c
         | match ?o with Some _ => _ | None => _ end = _ =>
             destruct o; try discriminate
         end;
    injection Hu as <- <-; first [exact Hsame|apply Hens].
Qed.

(** X6: what [Update] never does.  No message changes [ShowFiles]; only
    a window-size message changes [Height]; only a load that completed
    without error replaces the root and the list; a key, while no load is
    running too, changes at most the cursor and the scroll offset, and
    never starts a load by itself: it hands back a message or nothing. *)
Theorem update_frame (m : Model) (msg : Msg) (m' : Model) (cmd : Cmd) :
  Update m msg = Some (m', cmd) ->
  ShowFiles m' = ShowFiles m
  /\ ((forall w h, msg <> WindowSizeMsg w h) -> Height m' = Height m)
  /\ ((forall dir, msg <> LoadingCompleteMsg dir None) ->
      RootDir m' = RootDir m /\ VisibleDirs m' = VisibleDirs m)
  /\ (forall key, msg = KeyMsg key ->
        m' = withScrollPos (withCursorPos m (CursorPos m')) (ScrollPos m')
        /\ forall p sf, cmd <> CmdLoadDirectory p sf)
  /\ (forall p sf, cmd = CmdLoadDirectory p sf ->
        msg = LoadingMsg p /\ sf = ShowFiles m /\ Loading m' = true)
  /\ (cmd = CmdDoSpinner -> msg = SpinnerMsg /\ Loading m = true).
Proof.
  intros Hu.
  assert (Hkey : forall key, msg = KeyMsg key ->
            m' = withScrollPos (withCursorPos m (CursorPos m'))
                               (ScrollPos m')
            /\ cmd <> CmdDoSpinner
            /\ forall p sf, cmd <> CmdLoadDirectory p sf).
  { intros key ->. simpl in Hu. destruct (Loading m).
    - destruct (_ || _); injection Hu as <- <-;
        (split; [now destruct m|split; [discriminate|]]); intros p sf;
        discriminate.
    - split; [now apply (updateKey_moves m key m' cmd)|].
      unfold updateKey in Hu.
      repeat match type of Hu with
             | (if ?c then _ else _) = _ => destruct c
             | match ?o with Some _ => _ | None => _ end = _ =>
                 destruct o; try discriminate
             end;
        injection Hu as <- <-; (split; [discriminate|]); intros p sf;
        discriminate. }
  destruct msg as [w h|path|dir err| |key|f s err].
  - simpl in Hu. injection Hu as <- <-.
    rewrite ensure_RootDir, ensure_VisibleDirs, ensure_withScrollPos.
    simpl. repeat split; try discriminate; try easy.
    intros Hw. now destruct (Hw w h).
  - simpl in Hu. injection Hu as <- <-. simpl.
    repeat split; try discriminate; try easy; congruence.
  - simpl in Hu. destruct err as [e|].
    + injection Hu as <- <-. simpl.
      repeat split; try discriminate; try easy.
    + destruct dir as [root|]; [|discriminate].
      unfold updateVisibleDirs in Hu. simpl in Hu.
      injection Hu as <- <-.
      rewrite ensure_Height, ensure_withScrollPos. simpl.
      repeat split; try discriminate; try easy;
        intros;
        match goal with
        | H : forall dir, _ <> _ |- _ => now destruct (H (Some root))
        end.
  - simpl in Hu. destruct (Loading m) eqn:Hl; injection Hu as <- <-; simpl;
      repeat split; try discriminate; try easy.
  - destruct (Hkey key eq_refl) as (Hm & Hsp & Hld).
    split; [now rewrite Hm|]. split; [intros _; now rewrite Hm|].
    split; [intros _; rewrite Hm; now split|].
    split; [intros k _; now split|].
    split; [intros p sf Hc; now destruct (Hld p sf)|].
    intros Hc. now destruct Hsp.
  - simpl in Hu. injection Hu as <- <-.
    repeat split; try discriminate; try easy.
Qed.

End ModelFacts.

(** The sample model, cursor on the first row: [j] moves the cursor and
    nothing else. *)
Lemma update_frame_witness :
  exists m',
    Update (lib := Unix.lib) (Sample.model 2 20) (KeyMsg "j")
    = Some (m', CmdNil)
    /\ CursorPos m' = 1
    /\ ShowFiles m' = ShowFiles (Sample.model 2 20)
    /\ Height m' = Height (Sample.model 2 20)
    /\ RootDir m' = RootDir (Sample.model 2 20)
    /\ VisibleDirs m' = VisibleDirs (Sample.model 2 20).
Proof.
  eexists. split; [reflexivity|]. split; [reflexivity|].
  destruct (update_frame (lib := Unix.lib) (Sample.model 2 20) (KeyMsg "j")
                         _ _ eq_refl) as (Hs & Hh & Hr & _).
  split; [exact Hs|]. split; [apply Hh; discriminate|].
  apply Hr. discriminate.
Defined.

(* ===================================================================== *)
(** ** The screen *)
(* ===================================================================== *)

Section ViewFacts.

Context {lib : GoLib}.

Lemma skipn_nth_error {A} (l : list A) : forall k d,
  nth_error l k = Some d -> skipn k l = d :: skipn (S k) l.
Proof.
  induction l as [|a l IH]; intros [|k] d H; try discriminate.
  - now injection H as ->.
  - simpl in H. apply IH in H. exact H.
Qed.

Lemma index_nth_error {A} (l : list A) i :
  0 <= i -> index l i = nth_error l (Z.to_nat i).
Proof.
  intros Hi. unfold index.
  destruct (Z.ltb_spec i 0); [lia|reflexivity].
Qed.

Lemma index_in_range {A} (l : list A) i :
  0 <= i < len l -> exists d, index l i = Some d.
Proof.
  intros Hi. rewrite index_nth_error by lia.
  destruct (nth_error l (Z.to_nat i)) as [d|] eqn:Hn; [now exists d|].
  apply nth_error_None in Hn. unfold len in Hi. lia.
Qed.

Lemma strings_Repeat_indent (c : DirEntry) :
  indentOK c ->
  strings_Repeat "  " (Level c)
  = Some (repeatString "  " (Z.to_nat (Level c))).
Proof.
  unfold indentOK, maxDepth, strings_Repeat. intros Hc.
  change (Z.of_nat (String.length "  ")) with 2.
  unfold Int64.max_int. repeat case_cmp; try lia. reflexivity.
Qed.

Lemma strings_Repeat_negative (s : string) (count : Z) :
  count < 0 -> strings_Repeat s count = None.
Proof.
  intros Hc. unfold strings_Repeat. now case_cmp; [|lia].
Qed.

(** The loop of [View] renders the rows it is asked for, in order, each
    with its indentation, and marks the row of the cursor. *)
Lemma viewRows_window m : forall n i,
  0 <= i -> i + Z.of_nat n <= len (VisibleDirs m) ->
  len (VisibleDirs m) < 2 ^ 62 ->
  Forall indentOK (firstn n (skipn (Z.to_nat i) (VisibleDirs m))) ->
  exists rows,
    viewRows m i n = Some rows
    /\ map row_entry rows = firstn n (skipn (Z.to_nat i) (VisibleDirs m))
    /\ forall k r, nth_error rows k = Some r ->
                   row_selected r = (i + Z.of_nat k =? CursorPos m)
                   /\ row_indent r
                      = repeatString "  " (Z.to_nat (Level (row_entry r))).
Proof.
  induction n as [|n IH]; intros i Hi Hle Hlen Hind.
  - exists []. repeat split; destruct k; discriminate.
  - cbn [viewRows].
    destruct (index_in_range (VisibleDirs m) i ltac:(lia)) as [d Hd].
    rewrite Hd. rewrite index_nth_error in Hd by lia.
    rewrite (skipn_nth_error _ _ _ Hd) in Hind |- *.
    cbn [firstn] in Hind. inversion Hind as [|? ? Hd0 Hrest]; subst.
    rewrite (strings_Repeat_indent d Hd0).
    assert (Hadd : Int64.add i 1 = i + 1) by (int64_simpl; reflexivity).
    rewrite Hadd.
    replace (S (Z.to_nat i)) with (Z.to_nat (i + 1)) in Hrest by lia.
    destruct (IH (i + 1) ltac:(lia) ltac:(lia) Hlen Hrest)
      as (rows & -> & Hmap & Hsel).
    eexists. split; [reflexivity|].
    cbn [map row_entry firstn].
    replace (Z.to_nat (i + 1)) with (S (Z.to_nat i)) in Hmap by lia.
    split; [now rewrite Hmap|].
    intros [|k] r Hr; simpl in Hr.
    + injection Hr as <-. cbn [row_selected row_indent row_entry].
      split; [f_equal; lia|reflexivity].
    + destruct (Hsel k r Hr) as [Hs Hi']. rewrite Hs.
      split; [f_equal; lia|exact Hi'].
Qed.

(** The loop of [View] panics on a row of negative [Level]. *)
Lemma viewRows_panics m : forall n i,
  0 <= i -> len (VisibleDirs m) < 2 ^ 62 ->
  Exists (fun c => Level c < 0)
         (firstn n (skipn (Z.to_nat i) (VisibleDirs m))) ->
  viewRows m i n = None.
Proof.
  induction n as [|n IH]; intros i Hi Hlen Hbad.
  - cbn [firstn] in Hbad. inversion Hbad.
  - cbn [viewRows]. rewrite index_nth_error by lia.
    destruct (nth_error (VisibleDirs m) (Z.to_nat i)) as [d|] eqn:Hd;
      [|reflexivity].
    rewrite (skipn_nth_error _ _ _ Hd) in Hbad. cbn [firstn] in Hbad.
    assert (Hin : Z.of_nat (Z.to_nat i) < len (VisibleDirs m)).
    { unfold len. apply inj_lt. apply nth_error_Some. now rewrite Hd. }
    inversion Hbad as [? ? Hd0|? ? Hrest]; subst.
    + now rewrite strings_Repeat_negative.
    + destruct (strings_Repeat "  " (Level d)); [|reflexivity].
      assert (Hadd : Int64.add i 1 = i + 1) by (int64_simpl; reflexivity).
      rewrite Hadd.
      replace (S (Z.to_nat i)) with (Z.to_nat (i + 1)) in Hrest by lia.
      now rewrite (IH (i + 1) ltac:(lia) Hlen Hrest).
Qed.

(** What [View] computes as the number of rows to render. *)
Lemma view_stop m :
  navOK m ->
  let stop := Int64.add (ScrollPos m) (maxVisible m) in
  let stop := if stop >? len (VisibleDirs m)
              then len (VisibleDirs m) else stop in
  maxVisible m = Height m - 2
  /\ stop = Z.min (ScrollPos m + (Height m - 2)) (len (VisibleDirs m)).
Proof.
  intros [Hh Hlen Hs _ _ _]. cbv zeta.
  assert (Hmv : maxVisible m = Height m - 2).
  { unfold maxVisible. int64_simpl. reflexivity. }
  split; [exact Hmv|]. rewrite Hmv. int64_simpl.
  case_cmp; lia.
Qed.

(** The rows the loop of [View] goes through are the rows of the
    window. *)
Lemma view_rows_window m :
  navOK m ->
  firstn (Z.to_nat (Z.min (ScrollPos m + (Height m - 2))
                          (len (VisibleDirs m)) - ScrollPos m))
         (skipn (Z.to_nat (ScrollPos m)) (VisibleDirs m))
  = window m.
Proof.
  intros Hok. destruct (view_stop m Hok) as [Hmv _].
  destruct Hok as [Hh Hlen Hs _ _ _].
  unfold window. rewrite Hmv.
  destruct (Z.le_gt_cases (ScrollPos m + (Height m - 2))
                          (len (VisibleDirs m))) as [Hfit|Hcut].
  - f_equal. lia.
  - rewrite !firstn_all2; [reflexivity| |];
      rewrite length_skipn; unfold len in *; lia.
Qed.

Lemma Forall_window (P : DirEntry -> Prop) m :
  Forall P (VisibleDirs m) -> Forall P (window m).
Proof.
  intros H. rewrite List.Forall_forall in *. intros c Hc. apply H.
  unfold window in Hc.
  rewrite <- (firstn_skipn (Z.to_nat (ScrollPos m)) (VisibleDirs m)).
  apply in_or_app. right.
  rewrite <- (firstn_skipn (Z.to_nat (maxVisible m))
                           (skipn (Z.to_nat (ScrollPos m)) (VisibleDirs m))).
  apply in_or_app. now left.
Qed.

(** [View] renders on every model whose cursor is on its list and whose
    rows can be indented. *)
Lemma view_total m :
  navOK m -> RootDir m <> None -> spinnerOK m ->
  Forall indentOK (VisibleDirs m) ->
  exists s, View m = Some s.
Proof.
  intros Hok Hroot Hsp Hind. unfold View.
  destruct (Error m) as [e|]; [now eexists|].
  destruct (Loading m).
  { destruct (index_in_range spinnerFrames (SpinnerIdx m) Hsp) as [f ->].
    now eexists. }
  destruct (RootDir m) as [root|]; [|easy].
  destruct (view_stop m Hok) as [_ Hstop]. cbv zeta in Hstop.
  rewrite Hstop.
  pose proof (view_rows_window m Hok) as Hwin.
  pose proof (Forall_window indentOK m Hind) as Hindw.
  rewrite <- Hwin in Hindw.
  destruct Hok as [Hh Hlen Hs _ _ _].
  set (n := Z.to_nat (Z.min (ScrollPos m + (Height m - 2))
                            (len (VisibleDirs m)) - ScrollPos m)) in *.
  destruct (viewRows_window m n (ScrollPos m) ltac:(lia) ltac:(lia) Hlen
                            Hindw) as (rows & -> & _).
  now eexists.
Qed.

(** X7: with the cursor on the list and inside the window, and rows
    whose [Level] can be indented, [View] renders the path of the root
    and the rows of the list that fall into the window, at most
    [Height - 2] of them, in the order of the list, each indented by two
    spaces per level; the row of the cursor is among them and it is the
    only one marked as selected.  When a row of the window has a negative
    [Level], [View] panics. *)
Theorem view_shows_window (m : Model) (root : DirEntry) :
  navOK m -> Error m = None -> Loading m = false -> RootDir m = Some root ->
  (Forall indentOK (window m) ->
   exists rows,
     View m = Some (ScreenListing (Path root) rows)
     /\ map row_entry rows = window m
     /\ len rows <= Height m - 2
     /\ (forall k r, nth_error rows k = Some r ->
           row_selected r = (ScrollPos m + Z.of_nat k =? CursorPos m)
           /\ row_indent r
              = repeatString "  " (Z.to_nat (Level (row_entry r))))
     /\ (2 < Height m -> VisibleDirs m <> [] ->
         exists r,
           nth_error rows (Z.to_nat (CursorPos m - ScrollPos m)) = Some r
           /\ row_selected r = true
           /\ index (VisibleDirs m) (CursorPos m) = Some (row_entry r)))
  /\ (Exists (fun c => Level c < 0) (window m) -> View m = None).
Proof.
  intros Hok He Hl Hroot. unfold View. rewrite He, Hl, Hroot.
  destruct (view_stop m Hok) as [Hmv Hstop]. cbv zeta in Hstop.
  rewrite Hstop.
  pose proof (view_rows_window m Hok) as Hwin.
  pose proof Hok as [Hh Hlen Hs Hc _ Hv].
  set (n := Z.to_nat (Z.min (ScrollPos m + (Height m - 2))
                            (len (VisibleDirs m)) - ScrollPos m)) in *.
  split.
  2:{ intros Hbad. rewrite <- Hwin in Hbad.
      now rewrite (viewRows_panics m n (ScrollPos m) ltac:(lia) Hlen Hbad). }
  intros Hind. rewrite <- Hwin in Hind.
  destruct (viewRows_window m n (ScrollPos m) ltac:(lia) ltac:(lia) Hlen
                            Hind) as (rows & -> & Hmap & Hsel).
  assert (Hn : length rows = n).
  { rewrite <- (length_map row_entry), Hmap, length_firstn, length_skipn.
    unfold len in *. lia. }
  exists rows. split; [reflexivity|]. split; [now rewrite Hmap|].
  split; [unfold len; lia|]. split; [exact Hsel|].
  intros Hh3 Hne. specialize (Hc Hne).
  assert (Hin : ScrollPos m <= CursorPos m <= ScrollPos m + maxVisible m - 1)
    by (apply Hv; [lia|exact Hne]).
  rewrite Hmv in Hin.
  set (k := Z.to_nat (CursorPos m - ScrollPos m)).
  destruct (nth_error rows k) as [r|] eqn:Hr;
    [|apply nth_error_None in Hr; lia].
  exists r. split; [reflexivity|]. rewrite (proj1 (Hsel k r Hr)).
  split; [apply Z.eqb_eq; lia|].
  rewrite index_nth_error by lia.
  assert (Hk : nth_error (map row_entry rows) k = Some (row_entry r))
    by (now apply map_nth_error).
  rewrite Hmap, nth_error_firstn in Hk.
  destruct (Nat.ltb_spec k n) as [_|Hge]; [|lia].
  rewrite nth_error_skipn in Hk. rewrite <- Hk. f_equal. lia.
Qed.

End ViewFacts.

(** The sample model is sound. *)
Lemma sample_navOK : navOK (Sample.model 2 20).
Proof.
  split.
  - vm_compute. split; [discriminate|reflexivity].
  - reflexivity.
  - vm_compute. split; discriminate.
  - intros _. vm_compute. split; [discriminate|reflexivity].
  - discriminate.
  - intros _ _. vm_compute. split; discriminate.
Defined.

(** The screen of the sample model: the parent row, selected and not
    indented, and the two sub-directories, indented by one step.  With a
    row of level -1 in the window there is no screen. *)
Lemma view_shows_window_witness :
  (exists rows,
      View (Sample.model 2 20) = Some (ScreenListing "/tmp/x" rows)
      /\ map row_entry rows = VisibleDirs (Sample.model 2 20)
      /\ map row_selected rows = [true; false; false]
      /\ map row_indent rows = [""; "  "; "  "])
  /\ View (withVisibleDirs (Sample.model 2 20)
             [mkDirEntry "d" "/tmp/x/d" 0 Float64.zero [] true (-1) None])
     = None.
Proof.
  split.
  - destruct (view_shows_window (Sample.model 2 20) (Sample.rootOf 2)
                sample_navOK eq_refl eq_refl eq_refl)
      as [Hrender _].
    destruct Hrender as (rows & Hview & Hrows & _).
    { repeat constructor; vm_compute; discriminate. }
    exists rows. split; [exact Hview|].
    vm_compute in Hview. injection Hview as <-.
    repeat split.
  - apply (view_shows_window
             (withVisibleDirs (Sample.model 2 20)
                [mkDirEntry "d" "/tmp/x/d" 0 Float64.zero [] true (-1) None])
             (Sample.rootOf 2)); try reflexivity.
    + split.
      * vm_compute. split; [discriminate|reflexivity].
      * reflexivity.
      * vm_compute. split; discriminate.
      * intros _. vm_compute. split; [discriminate|reflexivity].
      * discriminate.
      * intros _ _. vm_compute. split; discriminate.
    + left. reflexivity.
Defined.

(* ===================================================================== *)
(** ** A session never panics *)
(* ===================================================================== *)

Section SessionFacts.

Context {lib : GoLib}.

Lemma msgSafe_msgOK showFiles msg : msgSafe showFiles msg -> msgOK msg.
Proof.
  destruct msg as [w h|path|[dir|] [e|]| |key|f s e]; simpl; try easy.
Qed.

Lemma indentOK_visible showFiles (dir : DirEntry) :
  Forall indentOK (Children dir) ->
  Forall indentOK
    ((if String.eqb (filepath_Dir (Path dir)) (Path dir) then []
      else [mkDirEntry ".." (filepath_Dir (Path dir)) 0 Float64.zero [] true
                       0 None])
       ++ List.filter (fun child => IsDir child || showFiles)
                      (Children dir)).
Proof.
  intros Hch. apply Forall_app. split.
  - destruct (String.eqb _ _); repeat constructor; simpl;
      unfold maxDepth; lia.
  - rewrite List.Forall_forall in *. intros c Hc.
    apply filter_In in Hc as [Hc _]. now apply Hch.
Qed.

Lemma showsRow_visible showFiles (dir : DirEntry) :
  showsRow showFiles dir ->
  (if String.eqb (filepath_Dir (Path dir)) (Path dir) then []
   else [mkDirEntry ".." (filepath_Dir (Path dir)) 0 Float64.zero [] true 0
                    None])
    ++ List.filter (fun child => IsDir child || showFiles) (Children dir)
  <> [].
Proof.
  intros [Hne|(c & Hin & Hc)].
  - apply String.eqb_neq in Hne. now rewrite Hne.
  - intros Hnil. apply app_eq_nil in Hnil as [_ Hnil].
    assert (Hf : In c (List.filter (fun child => IsDir child || showFiles)
                                   (Children dir)))
      by (apply filter_In; now split).
    now rewrite Hnil in Hf.
Qed.

Lemma spinner_step i :
  0 <= i < len spinnerFrames ->
  0 <= Int64.rem (Int64.add i 1) (len spinnerFrames) < len spinnerFrames.
Proof.
  change (len spinnerFrames) with 4. intros Hi. unfold Int64.rem.
  int64_simpl. pose proof (Z.rem_bound_pos (i + 1) 4). lia.
Qed.

Lemma ready_same m m' :
  ready m -> navOK m' ->
  VisibleDirs m' = VisibleDirs m -> RootDir m' = RootDir m ->
  SpinnerIdx m' = SpinnerIdx m ->
  ready m'.
Proof.
  intros [_ Hrows Hroot Hsp Hind] Hok Hv Hr Hs.
  split; [exact Hok|now rewrite Hv|now rewrite Hr| |now rewrite Hv].
  unfold spinnerOK in *. now rewrite Hs.
Qed.

Lemma ensure_SpinnerIdx m : SpinnerIdx (ensureCursorVisible m) = SpinnerIdx m.
Proof. now rewrite ensure_withScrollPos. Qed.

Lemma ensure_ShowFiles m : ShowFiles (ensureCursorVisible m) = ShowFiles m.
Proof. now rewrite ensure_withScrollPos. Qed.

(** With a root and the cursor on the list, every key is handled. *)
Lemma updateKey_total m key :
  RootDir m <> None -> 0 <= CursorPos m < len (VisibleDirs m) ->
  exists m' cmd, updateKey m key = Some (m', cmd).
Proof.
  intros Hroot Hc.
  destruct (index_in_range (VisibleDirs m) (CursorPos m) Hc) as [d Hd].
  destruct (RootDir m) as [root|] eqn:Hr; [|easy].
  unfold updateKey. rewrite Hd, Hr.
  repeat match goal with
         | |- context [if ?c then _ else _] => destruct c
         end; now eexists _, _.
Qed.

(** Every message of a session is handled, and leaves the model ready
    for the next one. *)
Lemma update_ready m msg :
  ready m -> msgSafe (ShowFiles m) msg ->
  exists m' cmd,
    Update m msg = Some (m', cmd) /\ ready m' /\ ShowFiles m' = ShowFiles m.
Proof.
  intros Hready Hmsg. pose proof Hready as [Hok Hrows Hroot Hsp Hind].
  pose proof (msgSafe_msgOK _ _ Hmsg) as HmsgOK.
  pose proof (update_keeps_navOK m msg) as Hnav.
  destruct msg as [w h|path|[dir|] [e|]| |key|f s e].
  - eexists _, _. split; [reflexivity|].
    split; [|now rewrite ensure_ShowFiles].
    apply (ready_same m); [exact Hready|now apply (Hnav _ CmdNil)| | |].
    + now rewrite ensure_VisibleDirs.
    + now rewrite ensure_RootDir.
    + now rewrite ensure_SpinnerIdx.
  - eexists _, _. split; [reflexivity|]. split; [|reflexivity].
    apply (ready_same m); try easy. now eapply Hnav.
  - eexists _, _. split; [reflexivity|]. split; [|reflexivity].
    apply (ready_same m); try easy. now eapply Hnav.
  - destruct Hmsg as (Hlen & Hshow & Hlev).
    eexists _, _. split; [reflexivity|].
    split; [|now rewrite ensure_ShowFiles].
    split.
    + now apply (Hnav _ CmdNil).
    + rewrite ensure_VisibleDirs. simpl. now apply showsRow_visible.
    + now rewrite ensure_RootDir.
    + unfold spinnerOK. now rewrite ensure_SpinnerIdx.
    + rewrite ensure_VisibleDirs. simpl. now apply indentOK_visible.
  - eexists _, _. split; [reflexivity|]. split; [|reflexivity].
    apply (ready_same m); try easy. now eapply Hnav.
  - now destruct Hmsg.
  - simpl. destruct (Loading m) eqn:Hl.
    + eexists _, _. split; [reflexivity|]. split; [|reflexivity].
      split; try easy.
      * apply (Hnav _ CmdDoSpinner); try easy. simpl. now rewrite Hl.
      * unfold spinnerOK. simpl. now apply spinner_step.
    + eexists _, _. split; [reflexivity|]. now split.
  - simpl in *. destruct (Loading m).
    + destruct (_ || _); eexists _, _; (split; [reflexivity|]); now split.
    + destruct (updateKey_total m key Hroot (ok_cursor m Hok Hrows))
        as (m' & cmd & Hu).
      exists m', cmd. split; [exact Hu|].
      specialize (Hnav m' cmd Hok I Hu).
      apply updateKey_moves in Hu. rewrite Hu in Hnav |- *.
      split; [|reflexivity].
      now apply (ready_same m).
  - eexists _, _. split; [reflexivity|]. now split.
Qed.

Lemma run_ready msgs : forall m,
  ready m -> Forall (msgSafe (ShowFiles m)) msgs ->
  exists m', run m msgs = Some m' /\ ready m' /\ ShowFiles m' = ShowFiles m.
Proof.
  induction msgs as [|msg msgs IH]; intros m Hm Hmsgs.
  - now exists m.
  - inversion Hmsgs as [|? ? Hmsg Hrest]; subst.
    destruct (update_ready m msg Hm Hmsg) as (m1 & cmd & Hu & Hm1 & Hsf).
    rewrite <- Hsf in Hrest.
    destruct (IH m1 Hm1 Hrest) as (m' & Hrun & Hm' & Hsf').
    exists m'. simpl. rewrite Hu. split; [exact Hrun|].
    split; [exact Hm'|congruence].
Qed.

(** The model [main] builds from a scanned root that has a row. *)
Lemma initialModel_ready rootDir showFiles :
  len (Children rootDir) < 2 ^ 62 - 1 ->
  showsRow showFiles rootDir ->
  Forall indentOK (Children rootDir) ->
  exists m,
    initialModel rootDir showFiles = Some m
    /\ ready m /\ ShowFiles m = showFiles
    /\ CursorPos m = 0 /\ ScrollPos m = 0 /\ Height m = 20.
Proof.
  intros Hlen Hshow Hlev. unfold initialModel, updateVisibleDirs. simpl.
  eexists. split; [reflexivity|]. simpl.
  pose proof (showsRow_visible showFiles rootDir Hshow) as Hne.
  pose proof (indentOK_visible showFiles rootDir Hlev) as Hind.
  set (vis := _ ++ List.filter _ _) in *.
  assert (Hvis : 0 < len vis < 2 ^ 62).
  { split.
    - pose proof (len_nonneg vis) as Hnn.
      destruct (Z.eq_dec (len vis) 0) as [Hz|Hz]; [|lia].
      now apply len_zero in Hz.
    - unfold vis. rewrite len_app.
      pose proof (len_filter_le
                    (fun child => IsDir child || showFiles)
                    (Children rootDir)).
      destruct (String.eqb _ _); unfold len at 1; simpl length; lia. }
  repeat split; simpl; try lia; try easy.
Qed.

(** X8: the program started on a root that shows a row, in windows of
    two rows or more, with children whose [Level] can be indented in the
    root and in every root a load delivers, handles every sequence of
    messages and renders after each one: no index leaves the list, no nil
    root is read and no indentation has a negative count.  The cursor
    stays on a row of the list and inside the window. *)
Theorem session_never_panics (rootDir : DirEntry) (showFiles : bool)
        (msgs : list Msg) :
  len (Children rootDir) < 2 ^ 62 - 1 ->
  showsRow showFiles rootDir ->
  Forall indentOK (Children rootDir) ->
  Forall (msgSafe showFiles) msgs ->
  exists m0 m' s,
    initialModel rootDir showFiles = Some m0
    /\ run m0 msgs = Some m'
    /\ View m' = Some s
    /\ 0 <= CursorPos m' < len (VisibleDirs m')
    /\ viewportInv m'.
Proof.
  intros Hlen Hshow Hlev Hmsgs.
  destruct (initialModel_ready rootDir showFiles Hlen Hshow Hlev)
    as (m0 & Hm0 & Hready & Hsf & _).
  rewrite <- Hsf in Hmsgs.
  destruct (run_ready msgs m0 Hready Hmsgs)
    as (m' & Hrun & [Hok Hrows Hroot Hsp Hind] & _).
  destruct (view_total m' Hok Hroot Hsp Hind) as [s Hs].
  exists m0, m', s. split; [exact Hm0|]. split; [exact Hrun|].
  split; [exact Hs|]. split; [now apply (ok_cursor m' Hok)|apply Hok].
Qed.

End SessionFacts.

(** A session on the sample root: page down, open the row, shrink the
    window to its header, tick. *)
Lemma session_never_panics_witness :
  exists m0 m' s,
    initialModel (lib := Unix.lib) (Sample.rootOf 2) true = Some m0
    /\ run (lib := Unix.lib) m0
           [KeyMsg "pgdown"; KeyMsg "enter"; WindowSizeMsg 80 2; SpinnerMsg]
       = Some m'
    /\ View m' = Some s
    /\ 0 <= CursorPos m' < len (VisibleDirs m')
    /\ viewportInv m'.
Proof.
  apply (session_never_panics (lib := Unix.lib)).
  - reflexivity.
  - left. vm_compute. discriminate.
  - repeat constructor; vm_compute; discriminate.
  - repeat constructor. simpl. lia.
Defined.

(* ===================================================================== *)
(** ** The scroll offset *)
(* ===================================================================== *)

Section ScrollFacts.

Context {lib : GoLib}.

(** X9: in a window that shows a row, adjusting the scroll offset a
    second time changes nothing, wherever cursor and offset were. *)
Theorem ensure_idempotent (m : Model) :
  3 <= Height m < 2 ^ 62 ->
  len (VisibleDirs m) < 2 ^ 62 ->
  - 2 ^ 62 <= CursorPos m <= 2 ^ 62 ->
  - 2 ^ 62 <= ScrollPos m <= 2 ^ 62 ->
  ensureCursorVisible (ensureCursorVisible m) = ensureCursorVisible m.
Proof.
  intros Hh Hlen Hc Hs.
  destruct (Z.eq_dec (len (VisibleDirs m)) 0) as [H0|H0].
  { unfold ensureCursorVisible at 2. apply Z.eqb_eq in H0. rewrite H0.
    unfold ensureCursorVisible. now rewrite H0. }
  assert (Hne : VisibleDirs m <> []) by (now rewrite <- len_zero).
  pose proof (len_nonneg (VisibleDirs m)) as Hnn.
  rewrite (ensure_withScrollPos m).
  set (s1 := ScrollPos (ensureCursorVisible m)).
  assert (H1 : s1 = _)
    by (apply (ensure_scroll_rule m Hne); int64_simpl; lia).
  cbv zeta in H1. clearbody s1.
  assert (Hs1 : 0 <= s1 <= len (VisibleDirs m)) by lia.
  rewrite (ensure_withScrollPos (withScrollPos m s1)).
  rewrite (ensure_scroll_rule (withScrollPos m s1));
    cbn [VisibleDirs Height CursorPos ScrollPos withScrollPos];
    try assumption; try (int64_simpl; lia).
  cbv zeta.
  match goal with
  | |- withScrollPos _ ?s = _ => replace s with s1; [now destruct m|]
  end.
  revert H1. repeat case_cmp; lia.
Qed.

End ScrollFacts.

(** The cursor on row 50 of 101 in a window of 18 rows that starts at
    row 0: the window moves to row 33, and stays there. *)
Lemma ensure_idempotent_witness :
  let m := withCursorPos (Sample.model 100 20) 50 in
  ScrollPos (ensureCursorVisible m) = 33
  /\ ensureCursorVisible (ensureCursorVisible m) = ensureCursorVisible m.
Proof.
  split; [reflexivity|].
  apply ensure_idempotent; vm_compute; try split;
    first [discriminate|reflexivity].
Defined.

Section KeyFacts.

Context {lib : GoLib}.

Lemma updateKey_home m :
  updateKey m "home" = Some (ensureCursorVisible (withCursorPos m 0), CmdNil).
Proof. reflexivity. Qed.

Lemma updateKey_end m :
  updateKey m "end"
  = if len (VisibleDirs m) >? 0
    then Some (ensureCursorVisible
                 (withCursorPos m (Int64.sub (len (VisibleDirs m)) 1)),
               CmdNil)
    else Some (m, CmdNil).
Proof. reflexivity. Qed.

(** X10: in a window that shows a row, [home] puts the cursor on the
    first row and the window at the top of the list; [end] puts the
    cursor on the last row and the window at the last full page. *)
Theorem home_and_end (m : Model) :
  navOK m -> 3 <= Height m -> Loading m = false -> VisibleDirs m <> [] ->
  (exists m',
      Update m (KeyMsg "home") = Some (m', CmdNil)
      /\ CursorPos m' = 0 /\ ScrollPos m' = 0)
  /\ (exists m',
         Update m (KeyMsg "end") = Some (m', CmdNil)
         /\ CursorPos m' = len (VisibleDirs m) - 1
         /\ ScrollPos m' = Z.max (len (VisibleDirs m) - (Height m - 2)) 0).
Proof.
  intros [Hh Hlen Hs Hc _ _] Hh3 Hl Hne. specialize (Hc Hne).
  unfold Update. rewrite Hl, updateKey_home, updateKey_end.
  replace (len (VisibleDirs m) >? 0) with true by (symmetry; lia).
  split; eexists; (split; [reflexivity|]);
    rewrite ensure_CursorPos;
    (rewrite ensure_scroll_rule;
     cbn [VisibleDirs Height CursorPos ScrollPos withCursorPos];
     try assumption; try (int64_simpl; lia)); cbv zeta; int64_simpl.
  - split; [reflexivity|]. repeat case_cmp; lia.
  - split; [reflexivity|]. repeat case_cmp; lia.
Qed.

(** X11: [enter] on a row named [..] does what [backspace] does wherever
    the cursor is: both ask for the parent of the root, and the path of
    the row itself is not used. *)
Theorem enter_on_parent_row (m : Model) (d : DirEntry) :
  Loading m = false ->
  index (VisibleDirs m) (CursorPos m) = Some d ->
  Name d = ".." -> IsDir d = true ->
  Update m (KeyMsg "enter") = Update m (KeyMsg "backspace")
  /\ forall root,
       RootDir m = Some root ->
       Update m (KeyMsg "enter")
       = Some (m, if String.eqb (filepath_Dir (Path root)) (Path root)
                  then CmdNil
                  else CmdSend (LoadingMsg (filepath_Dir (Path root)))).
Proof.
  intros Hl Hd Hn Hi.
  assert (Hlt : (CursorPos m <? len (VisibleDirs m)) = true).
  { apply Z.ltb_lt. unfold index in Hd.
    destruct (CursorPos m <? 0) eqn:H0; [discriminate|].
    apply Z.ltb_ge in H0.
    assert (Hsome : nth_error (VisibleDirs m) (Z.to_nat (CursorPos m))
                    <> None) by (now rewrite Hd).
    apply nth_error_Some in Hsome. unfold len. lia. }
  assert (He : updateKey m "enter"
               = match RootDir m with
                 | None => None
                 | Some root =>
                     let parentPath := filepath_Dir (Path root) in
                     if String.eqb parentPath (Path root)
                     then Some (m, CmdNil)
                     else Some (m, CmdSend (LoadingMsg parentPath))
                 end).
  { change (updateKey m "enter")
      with (if CursorPos m <? len (VisibleDirs m) then
              match index (VisibleDirs m) (CursorPos m) with
              | None => None
              | Some dir =>
                  if IsDir dir then
                    if String.eqb (Name dir) ".." then
                      match RootDir m with
                      | None => None
                      | Some root =>
                          let parentPath := filepath_Dir (Path root) in
                          if String.eqb parentPath (Path root)
                          then Some (m, CmdNil)
                          else Some (m, CmdSend (LoadingMsg parentPath))
                      end
                    else Some (m, CmdSend (LoadingMsg (Path dir)))
                  else Some (m, CmdExecuteFile (Path dir))
              end
            else Some (m, CmdNil)).
    now rewrite Hlt, Hd, Hi, Hn. }
  unfold Update. rewrite Hl, He. split; [reflexivity|].
  intros root ->. cbv zeta. now destruct (String.eqb _ _).
Qed.

End KeyFacts.

(** A hundred and one rows in a window of eighteen: [end] shows rows 83
    to 100. *)
Lemma home_and_end_witness :
  (exists m',
      Update (lib := Unix.lib) (Sample.model 100 20) (KeyMsg "home")
      = Some (m', CmdNil)
      /\ CursorPos m' = 0 /\ ScrollPos m' = 0)
  /\ (exists m',
         Update (lib := Unix.lib) (Sample.model 100 20) (KeyMsg "end")
         = Some (m', CmdNil)
         /\ CursorPos m' = 100 /\ ScrollPos m' = 83).
Proof.
  apply (home_and_end (lib := Unix.lib) (Sample.model 100 20)).
  - split.
    + vm_compute. split; [discriminate|reflexivity].
    + reflexivity.
    + vm_compute. split; discriminate.
    + intros _. vm_compute. split; [discriminate|reflexivity].
    + discriminate.
    + intros _ _. vm_compute. split; discriminate.
  - vm_compute. discriminate.
  - reflexivity.
  - discriminate.
Defined.

(** The sample model, cursor on its [..] row. *)
Lemma enter_on_parent_row_witness :
  Update (lib := Unix.lib) (Sample.model 2 20) (KeyMsg "enter")
  = Update (lib := Unix.lib) (Sample.model 2 20) (KeyMsg "backspace")
  /\ Update (lib := Unix.lib) (Sample.model 2 20) (KeyMsg "enter")
     = Some (Sample.model 2 20, CmdSend (LoadingMsg "/tmp")).
Proof.
  destruct (enter_on_parent_row (lib := Unix.lib) (Sample.model 2 20)
              (mkDirEntry ".." "/tmp" 0 Float64.zero [] true 0 None)
              eq_refl eq_refl eq_refl eq_refl) as [Hsame Hcmd].
  split; [exact Hsame|]. exact (Hcmd (Sample.rootOf 2) eq_refl).
Defined.

(* ===================================================================== *)
(** ** Loading a directory *)
(* ===================================================================== *)

Section LoadCycleFacts.

Context {lib : GoLib} {laws : GoLibLaws lib}.

Lemma counted_length entries :
  (length (countedDirNames entries) + length (countedFileNames entries)
   <= length entries)%nat.
Proof.
  induction entries as [|[name [[sz|es]|]] rest IH]; simpl; try lia;
    destruct (isHidden name); simpl; lia.
Qed.

Lemma assignPercentages_length total l :
  length (assignPercentages total l) = length l.
Proof.
  rewrite <- (length_map Name (assignPercentages total l)).
  rewrite assignPercentages_map by reflexivity. apply length_map.
Qed.

(** The children of a scan are the rows the list will show, and there
    are no more of them than entries in the directory. *)
Lemma scan_children_shown path entries parentDir level showFiles st :
  exists r st',
    scanDirectoryWithCache path (Some (FsDir (Some entries))) parentDir
                           level showFiles st = (inr r, st')
    /\ Path r = path
    /\ Forall (fun c => IsDir c || showFiles = true) (Children r)
    /\ len (Children r) <= len entries.
Proof.
  rewrite scan_dir. cbv zeta.
  destruct (scanLoop_spec path level showFiles entries
              (mkScanAcc 0 [] [] st) zero_in_range)
    as (ds & fs & Hd & Hf & _ & Hfd & Hff & Hn & Hm & _).
  simpl in Hd, Hf. eexists _, _. split; [reflexivity|].
  cbn [Path Children]. split; [reflexivity|]. rewrite Hd, Hf. split.
  - rewrite assignPercentages_app. apply Forall_app. split.
    + eapply List.Forall_impl;
        [|apply (forall_isDir_assign _ true);
          eapply List.Forall_impl;
          [|apply (forall_fresh_perm path level true ds _
                     (sort_Slice_perm _ bySizeDesc _) Hfd)];
          intros c Hc; apply Hc].
      simpl. now intros c ->.
    + destruct showFiles.
      * apply List.Forall_forall. intros c _. apply orb_true_r.
      * destruct fs; [|discriminate].
        rewrite sort_Slice_nil. unfold assignPercentages.
        destruct (_ >? 0); constructor.
  - unfold len. rewrite assignPercentages_length, length_app.
    rewrite !(Permutation_length (sort_Slice_perm _ bySizeDesc _)).
    rewrite <- (length_map Name ds), <- (length_map Name fs), Hn, Hm.
    pose proof (counted_length entries).
    destruct showFiles; simpl length; lia.
Qed.

Lemma filter_all {A} (f : A -> bool) (l : list A) :
  Forall (fun a => f a = true) l -> List.filter f l = l.
Proof.
  induction 1 as [|a l Ha Hl IH]; simpl; [reflexivity|].
  now rewrite Ha, IH.
Qed.

(** X12: a load of a readable directory, from the request to the list:
    the scan runs with the model's [ShowFiles]; the new root carries the
    path asked for and 100 percent; the list is the parent row, when the
    path has a parent, followed by every child of the root in the order
    of the scan, none filtered out; cursor and window are at the top. *)
Theorem load_shows_directory (m : Model) (path : string)
        (entries : DirListing) (st : CacheState) :
  3 <= Height m < 2 ^ 62 ->
  len entries < 2 ^ 62 - 1 ->
  exists m1 root st' m2,
    Update m (LoadingMsg path)
    = Some (m1, CmdLoadDirectory path (ShowFiles m))
    /\ Loading m1 = true
    /\ loadDirectory m1 path (Some (FsDir (Some entries))) st
       = (LoadingCompleteMsg (Some root) None, st')
    /\ Path root = path
    /\ Percent root = Float64.hundred
    /\ Update m1 (LoadingCompleteMsg (Some root) None) = Some (m2, CmdNil)
    /\ Loading m2 = false
    /\ RootDir m2 = Some root
    /\ VisibleDirs m2
       = (if String.eqb (filepath_Dir path) path then []
          else [parentEntry (filepath_Dir path)]) ++ Children root
    /\ CursorPos m2 = 0
    /\ ScrollPos m2 = 0.
Proof.
  intros Hh Hlen.
  destruct (scan_children_shown path entries None 0 (ShowFiles m) st)
    as (r & st' & Hscan & Hpath & Hshown & Hlenr).
  eexists _, (setPercent Float64.hundred r), st', _.
  split; [reflexivity|]. split; [reflexivity|].
  split; [unfold loadDirectory; cbn [ShowFiles withLoading];
          now rewrite Hscan|].
  split; [exact Hpath|]. split; [reflexivity|].
  unfold Update, updateVisibleDirs.
  cbn [RootDir withRootDir withLoading ShowFiles setPercent Path Children
       LoadingPath].
  split; [reflexivity|].
  rewrite ensure_RootDir, ensure_VisibleDirs, ensure_CursorPos,
    ensure_withScrollPos.
  cbn [Loading RootDir VisibleDirs CursorPos withScrollPos withCursorPos
       withVisibleDirs withRootDir withLoading ShowFiles].
  rewrite (filter_all _ _ Hshown), Hpath.
  split; [reflexivity|]. split; [reflexivity|].
  split; [reflexivity|]. split; [reflexivity|].
  set (vis := _ ++ Children r).
  assert (Hvis : 0 <= len vis < 2 ^ 62).
  { split; [apply len_nonneg|]. unfold vis. rewrite len_app.
    destruct (String.eqb _ _); unfold len at 1; simpl length; lia. }
  change (ScrollPos (withScrollPos ?a ?b)) with b.
  match goal with
  | |- ScrollPos (ensureCursorVisible ?m0) = 0 => set (m3 := m0)
  end.
  destruct (Z.eq_dec (len vis) 0) as [H0|H0].
  - unfold ensureCursorVisible.
    replace (len (VisibleDirs m3) =? 0) with true
      by (symmetry; apply Z.eqb_eq; exact H0).
    reflexivity.
  - rewrite ensure_scroll_rule; unfold m3;
      cbn [VisibleDirs Height CursorPos ScrollPos withScrollPos withCursorPos
           withVisibleDirs withRootDir withLoading];
      try (int64_simpl; lia).
    + cbv zeta. repeat case_cmp; lia.
    + fold vis. now rewrite <- len_zero.
Qed.

(** X13: a load that fails, because [os.Stat] or [os.ReadDir] fails,
    leaves the cache, the root, the list, the cursor and the window as
    they were: the model records the error and the screen shows it. *)
Theorem failed_load_keeps_listing (m : Model) (path : string)
        (stat : option FsNode) (st : CacheState) :
  stat = None \/ stat = Some (FsDir None) ->
  exists m1 e m2,
    Update m (LoadingMsg path)
    = Some (m1, CmdLoadDirectory path (ShowFiles m))
    /\ loadDirectory m1 path stat st = (LoadingCompleteMsg None (Some e), st)
    /\ e = PathError (match stat with Some _ => "open" | None => "stat" end) path
    /\ Update m1 (LoadingCompleteMsg None (Some e)) = Some (m2, CmdNil)
    /\ m2 = withError (withLoading m false path) (Some e)
    /\ View m2 = Some (ScreenError e).
Proof.
  intros [->| ->]; eexists _, _, _;
    (split; [reflexivity|]); (split; [reflexivity|]);
    (split; [reflexivity|]); (split; [reflexivity|]);
    split; reflexivity.
Qed.

End LoadCycleFacts.

(** The load of the sample directory by the sample model. *)
Lemma load_shows_directory_witness :
  exists m1 root st' m2,
    Update (lib := Unix.lib) (Sample.model 0 20) (LoadingMsg "/tmp/x")
    = Some (m1, CmdLoadDirectory "/tmp/x" true)
    /\ Loading m1 = true
    /\ loadDirectory (lib := Unix.lib) m1 "/tmp/x"
                     (Some (FsDir (Some Sample.listing))) emptyCache
       = (LoadingCompleteMsg (Some root) None, st')
    /\ Path root = "/tmp/x"
    /\ Percent root = Float64.hundred
    /\ Update (lib := Unix.lib) m1 (LoadingCompleteMsg (Some root) None)
       = Some (m2, CmdNil)
    /\ Loading m2 = false
    /\ RootDir m2 = Some root
    /\ VisibleDirs m2 = [parentEntry "/tmp"] ++ Children root
    /\ CursorPos m2 = 0
    /\ ScrollPos m2 = 0.
Proof.
  apply (load_shows_directory (laws := UnixFacts.laws) (Sample.model 0 20)
                              "/tmp/x" Sample.listing emptyCache).
  - vm_compute. split; [discriminate|reflexivity].
  - reflexivity.
Defined.

(** The sample model asks for a directory that is gone. *)
Lemma failed_load_keeps_listing_witness :
  exists m2,
    Update (lib := Unix.lib)
           (withLoading (Sample.model 2 20) true "/tmp/x/d")
           (fst (loadDirectory (lib := Unix.lib)
                   (withLoading (Sample.model 2 20) true "/tmp/x/d")
                   "/tmp/x/d" None emptyCache))
    = Some (m2, CmdNil)
    /\ m2 = withError (withLoading (Sample.model 2 20) false "/tmp/x/d")
                      (Some (PathError "stat" "/tmp/x/d"))
    /\ View m2 = Some (ScreenError (PathError "stat" "/tmp/x/d")).
Proof.
  destruct (failed_load_keeps_listing (lib := Unix.lib) (Sample.model 2 20)
              "/tmp/x/d" None emptyCache (or_introl eq_refl))
    as (m1 & e & m2 & H1 & H2 & He & H3 & H4 & H5).
  injection H1 as <-. subst e. exists m2.
  rewrite H2. split; [exact H3|]. split; [exact H4|exact H5].
Defined.

(* ===================================================================== *)
(** ** Errors are final *)
(* ===================================================================== *)

Section ErrorFacts.

Context {lib : GoLib}.

(** X14: once a load has failed, whatever messages follow, later
    successful loads included, the model still holds an error and the
    screen shows an error and nothing else; the error shown is the one
    of the last failed load. *)
Theorem error_is_final (msgs : list Msg) : forall (m m' : Model) (e : error),
  Error m = Some e ->
  run m msgs = Some m' ->
  exists e', Error m' = Some e' /\ View m' = Some (ScreenError e').
Proof.
  induction msgs as [|msg msgs IH]; intros m m' e He Hrun.
  - injection Hrun as <-. exists e. split; [exact He|].
    unfold View. now rewrite He.
  - simpl in Hrun.
    destruct (Update m msg) as [[m1 cmd]|] eqn:Hu; [|discriminate].
    destruct (error_sticks m msg e m1 cmd He Hu) as (e1 & He1 & _).
    now apply (IH m1 m' e1).
Qed.

End ErrorFacts.

(** A failed load, then a successful one and a key: the error of the
    first is still on the screen. *)
Lemma error_is_final_witness :
  exists m',
    run (lib := Unix.lib)
        (withError Sample.loadingModel (Some Sample.failure))
        [LoadingMsg "/tmp/x/d";
         LoadingCompleteMsg (Some Sample.newRoot) None; KeyMsg "j"]
    = Some m'
    /\ RootDir m' = Some Sample.newRoot
    /\ exists e', Error m' = Some e' /\ View m' = Some (ScreenError e').
Proof.
  eexists.
  match goal with
  | |- ?lhs = ?rhs /\ _ =>
      assert (Hrun : lhs = rhs) by (vm_compute; reflexivity)
  end.
  split; [exact Hrun|]. split; [reflexivity|].
  eapply (error_is_final (lib := Unix.lib)); [|exact Hrun]. reflexivity.
Defined.

(* ===================================================================== *)
(** ** The ends of the percentage scale *)
(* ===================================================================== *)

Section PercentEnds.

Import Float64 Float64Spec Float64Facts.

(** A float divided by itself is [1.0]. *)
Lemma div_self m e :
  normal m -> -52 <= e <= 11 ->
  div (S754_finite false (Z.to_pos m) e) (S754_finite false (Z.to_pos m) e)
  = S754_finite false (Z.to_pos (2 ^ 52)) (-52).
Proof.
  intros Hm He. unfold normal in Hm.
  unfold div, SFdiv, SFdiv_core_binary.
  rewrite !Z2Pos.id by lia.
  replace (Zdigits2 m) with 53 by (symmetry; apply digits_unique; lia).
  replace (Z.min (fexp prec emax (53 + e - (53 + e))) (e - e))
    with (- 53) by (unfold fexp, emin, prec, emax; lia).
  replace (e - e - - 53) with 53 by lia.
  rewrite Z.shiftl_mul_pow2 by lia.
  rewrite div_eucl_div_mod. cbn [xorb].
  rewrite (Z.mul_comm m), Z.div_mul, Z.mod_mul by lia.
  rewrite new_location_zero. reflexivity.
Qed.

(** X15: a child that holds all the bytes of its directory is shown with
    exactly [100.0] percent, and a child of size 0 with exactly [0.0],
    whatever the total. *)
Theorem percentOf_ends (total : Z) :
  0 < total < 2 ^ 63 ->
  percentOf total total = Float64.hundred
  /\ percentOf 0 total = Float64.zero.
Proof.
  intros Ht. unfold percentOf.
  destruct (of_int_rnd total Ht) as (-> & Hn & He). split.
  - now rewrite div_self.
  - reflexivity.
Qed.

End PercentEnds.

(** A directory of 600 bytes. *)
Lemma percentOf_ends_witness :
  percentOf 600 600 = Float64.hundred /\ percentOf 0 600 = Float64.zero.
Proof. apply (percentOf_ends 600). vm_compute. split; reflexivity. Defined.

(* ===================================================================== *)
(** ** Walking the list *)
(* ===================================================================== *)

Section ArrowFacts.

Context {lib : GoLib}.

Lemma updateKey_up m :
  updateKey m "up"
  = if CursorPos m >? 0
    then Some (ensureCursorVisible
                 (withCursorPos m (Int64.sub (CursorPos m) 1)), CmdNil)
    else Some (m, CmdNil).
Proof. reflexivity. Qed.

Lemma updateKey_down m :
  updateKey m "down"
  = if CursorPos m <? Int64.sub (len (VisibleDirs m)) 1
    then Some (ensureCursorVisible
                 (withCursorPos m (Int64.add (CursorPos m) 1)), CmdNil)
    else Some (m, CmdNil).
Proof. reflexivity. Qed.

Lemma ensure_Loading m : Loading (ensureCursorVisible m) = Loading m.
Proof. now rewrite ensure_withScrollPos. Qed.

(** One arrow key: one row, unless the cursor is on the last (first)
    row already. *)
Lemma arrow_step m key (down : bool) :
  key = (if down then "down" else "up") ->
  navOK m -> Loading m = false -> VisibleDirs m <> [] ->
  exists m',
    Update m (KeyMsg key) = Some (m', CmdNil)
    /\ CursorPos m'
       = (if down then Z.min (CursorPos m + 1) (len (VisibleDirs m) - 1)
          else Z.max (CursorPos m - 1) 0)
    /\ VisibleDirs m' = VisibleDirs m
    /\ Loading m' = false
    /\ navOK m'.
Proof.
  intros -> Hok Hl Hne.
  pose proof Hok as [Hh Hlen Hs Hc _ _]. specialize (Hc Hne).
  assert (Hnav : forall m', Update m (KeyMsg (if down then "down" else "up"))
                            = Some (m', CmdNil) -> navOK m').
  { intros m' Hu.
    now apply (update_keeps_navOK m (KeyMsg (if down then "down" else "up"))
                                  m' CmdNil Hok I). }
  unfold Update in *. rewrite Hl in *.
  destruct down; [rewrite updateKey_down in *|rewrite updateKey_up in *];
    revert Hnav; int64_simpl; case_cmp; intros Hnav;
    eexists; (split; [reflexivity|]);
    rewrite ?ensure_CursorPos, ?ensure_VisibleDirs, ?ensure_Loading;
    cbn [CursorPos VisibleDirs Loading withCursorPos];
    (split; [lia|]); (split; [reflexivity|]); (split; [exact Hl|]);
    now apply Hnav.
Qed.

(** X16: [k] presses of [down] move the cursor down [k] rows and stop at
    the last row; [k] presses of [up] move it up [k] rows and stop at the
    first; the list is untouched and the cursor row is in the window
    afterwards. *)
Theorem arrows_walk_the_list (k : nat) : forall (m : Model) (down : bool),
  navOK m -> Loading m = false -> VisibleDirs m <> [] ->
  exists m',
    run m (repeat (KeyMsg (if down then "down" else "up")) k) = Some m'
    /\ CursorPos m'
       = (if down
          then Z.min (CursorPos m + Z.of_nat k) (len (VisibleDirs m) - 1)
          else Z.max (CursorPos m - Z.of_nat k) 0)
    /\ VisibleDirs m' = VisibleDirs m
    /\ viewportInv m'.
Proof.
  induction k as [|k IH]; intros m down Hok Hl Hne.
  - exists m. pose proof (ok_cursor m Hok Hne).
    split; [reflexivity|]. split; [destruct down; lia|].
    split; [reflexivity|apply Hok].
  - destruct (arrow_step m _ down eq_refl Hok Hl Hne)
      as (m1 & Hu & Hc1 & Hv1 & Hl1 & Hok1).
    destruct (IH m1 down Hok1 Hl1 ltac:(now rewrite Hv1))
      as (m' & Hrun & Hc & Hv & Hinv).
    exists m'. cbn [repeat run]. rewrite Hu.
    split; [exact Hrun|]. rewrite Hc, Hc1, Hv, Hv1.
    pose proof (ok_cursor m Hok Hne).
    split; [destruct down; lia|]. split; [reflexivity|exact Hinv].
Qed.

End ArrowFacts.

(** Five rows down from the top of the sample list of a hundred and one
    rows, and two hundred rows down. *)
Lemma arrows_walk_the_list_witness :
  (exists m',
      run (lib := Unix.lib) (Sample.model 100 20)
          (repeat (KeyMsg "down") 5) = Some m'
      /\ CursorPos m' = 5)
  /\ (exists m',
         run (lib := Unix.lib) (Sample.model 100 20)
             (repeat (KeyMsg "down") 200) = Some m'
         /\ CursorPos m' = 100).
Proof.
  assert (Hok : navOK (Sample.model 100 20)).
  { split.
    - vm_compute. split; [discriminate|reflexivity].
    - reflexivity.
    - vm_compute. split; discriminate.
    - intros _. vm_compute. split; [discriminate|reflexivity].
    - discriminate.
    - intros _ _. vm_compute. split; discriminate. }
  split.
  - destruct (arrows_walk_the_list (lib := Unix.lib) 5 (Sample.model 100 20)
                true Hok eq_refl ltac:(discriminate))
      as (m' & Hrun & Hc & _).
    exists m'. split; [exact Hrun|]. rewrite Hc. reflexivity.
  - destruct (arrows_walk_the_list (lib := Unix.lib) 200
                (Sample.model 100 20) true Hok eq_refl ltac:(discriminate))
      as (m' & Hrun & Hc & _).
    exists m'. split; [exact Hrun|]. rewrite Hc. reflexivity.
Defined.
